(** * docx-to-questions: the segmentation and classification engine

    A shallow embedding of [app/api/docx-to-questions/route.ts]: the part of
    the [POST] handler that runs after the document has been decoded into an
    ordered sequence of lines.  JavaScript strings are sequences of UTF-16
    code units; the three regular expressions of the route are written with
    backtracking combinators that try alternatives in the order the
    ECMAScript matcher does. *)

From Stdlib Require Import ZArith NArith Ascii String DecimalString DecimalN Sorted Permutation.
From stdpp Require Import base tactics option list list_numbers sorting.

Local Open Scope Z_scope.

(** ** JavaScript strings *)

Module JS.

(** A string is a list of UTF-16 code units. *)
Abbreviation char := N (only parsing).
Abbreviation str := (list N) (only parsing).

(** A source literal (ASCII only) as code units. *)
Definition lit (s : string) : str := map N_of_ascii (list_ascii_of_string s).

Definition inRange (lo hi c : N) : bool := ((lo <=? c) && (c <=? hi))%N.

(** ECMAScript LineTerminator: LF, CR, LS, PS. *)
Definition is_lt (c : char) : bool :=
  ((c =? 10) || (c =? 13) || (c =? 8232) || (c =? 8233))%N.

(** What [\s] matches and [trim] removes: WhiteSpace and LineTerminator. *)
Definition is_ws (c : char) : bool :=
  (inRange 9 13 c || (c =? 32) || (c =? 160) || (c =? 5760)
   || inRange 8192 8202 c || (c =? 8232) || (c =? 8233) || (c =? 8239)
   || (c =? 8287) || (c =? 12288) || (c =? 65279))%N.

Definition is_tab (c : char) : bool := (c =? 9)%N.
Definition is_digit (c : char) : bool := inRange 48 57 c.
Definition is_upper (c : char) : bool := inRange 65 90 c.
Definition is_lower (c : char) : bool := inRange 97 122 c.
(** [\w] without the unicode flag. *)
Definition is_word (c : char) : bool :=
  is_upper c || is_lower c || is_digit c || (c =? 95)%N.
(** [.] without the dotAll flag. *)
Definition is_dot (c : char) : bool := negb (is_lt c).

(** [toUpperCase] on the Basic Latin letters (the only code units the route
    applies it to are those matched by [[A-H]], with or without [/i]). *)
Definition toUpperCase (c : char) : char := if is_lower c then (c - 32)%N else c.

(** Canonicalize of a case-insensitive, non-unicode pattern: a code unit of
    128 or more is never mapped onto a Basic Latin one. *)
Definition canonicalize (c : char) : char := toUpperCase c.

Fixpoint dropWhile (p : char -> bool) (s : str) : str :=
  match s with
  | c :: s' => if p c then dropWhile p s' else s
  | [] => []
  end.

Definition trimStart (s : str) : str := dropWhile is_ws s.
Definition trimEnd (s : str) : str := rev (dropWhile is_ws (rev s)).
(** [String.prototype.trim]. *)
Definition trim (s : str) : str := trimEnd (trimStart s).

(** [s.replace(/p+/g, " ")]: every maximal run of [p] becomes one space.
    [inRun] records that the previous code unit was part of a run. *)
Fixpoint collapseFrom (p : char -> bool) (inRun : bool) (s : str) : str :=
  match s with
  | [] => []
  | c :: s' =>
      if p c then (if inRun then collapseFrom p true s' else 32%N :: collapseFrom p true s')
      else c :: collapseFrom p false s'
  end.
Definition collapse (p : char -> bool) (s : str) : str := collapseFrom p false s.

(** [s.replace(/\s+/g, "")]. *)
Definition removeWs (s : str) : str := List.filter (fun c => negb (is_ws c)) s.

(** [s.slice(0, n)]. *)
Definition slice0 (n : nat) (s : str) : str := take n s.

(** [parts.join(sep)]. *)
Fixpoint join (sep : str) (parts : list str) : str :=
  match parts with
  | [] => []
  | [p] => p
  | p :: rest => p ++ sep ++ join sep rest
  end.

(** [parseInt(d, 10)] on a string of decimal digits. *)
Definition digitVal (c : char) : Z := Z.of_N (c - 48).
Definition parseInt (d : str) : Z := fold_left (fun acc c => 10 * acc + digitVal c) d 0.

(** [String(n)] and [`${n}`] for a non-negative integer. *)
Definition decimal (n : Z) : str := lit (NilZero.string_of_uint (N.to_uint (Z.to_N n))).

(** *** Backtracking matchers

    Every matcher takes the continuation of the pattern; the first success
    in the matcher's priority order is the match. *)
Section Matchers.
Context {R : Type}.

(** One code unit of class [p]. *)
Definition chr (p : char -> bool) (k : char -> str -> option R) (s : str) : option R :=
  match s with
  | c :: s' => if p c then k c s' else None
  | [] => None
  end.

(** Greedy [p*], handing the matched text (after [acc]) to [k]. *)
Fixpoint starC (p : char -> bool) (acc : str) (k : str -> str -> option R) (s : str)
  : option R :=
  match s with
  | c :: s' =>
      if p c then
        match starC p (acc ++ [c]) k s' with
        | Some r => Some r
        | None => k acc s
        end
      else k acc s
  | [] => k acc []
  end.

Definition star (p : char -> bool) (k : str -> option R) : str -> option R :=
  starC p [] (fun _ => k).

(** Greedy [p+]. *)
Definition plusC (p : char -> bool) (k : str -> str -> option R) : str -> option R :=
  chr p (fun c => starC p [c] k).
Definition plus (p : char -> bool) (k : str -> option R) : str -> option R :=
  plusC p (fun _ => k).

(** Greedy [p{0,n}] after [acc]. *)
Fixpoint uptoC (n : nat) (p : char -> bool) (acc : str) (k : str -> str -> option R)
  (s : str) : option R :=
  match n, s with
  | S n', c :: s' =>
      if p c then
        match uptoC n' p (acc ++ [c]) k s' with
        | Some r => Some r
        | None => k acc s
        end
      else k acc s
  | _, _ => k acc s
  end.

(** Greedy [p{1,3}]. *)
Definition rep13C (p : char -> bool) (k : str -> str -> option R) : str -> option R :=
  chr p (fun c => uptoC 2 p [c] k).

(** A literal word. *)
Fixpoint word (w : str) (k : str -> option R) (s : str) : option R :=
  match w with
  | [] => k s
  | a :: w' =>
      match s with
      | c :: s' => if (c =? a)%N then word w' k s' else None
      | [] => None
      end
  end.

(** A literal word under [/i]. *)
Fixpoint wordCI (w : str) (k : str -> option R) (s : str) : option R :=
  match w with
  | [] => k s
  | a :: w' =>
      match s with
      | c :: s' => if (canonicalize c =? canonicalize a)%N then wordCI w' k s' else None
      | [] => None
      end
  end.

(** [a|b]. *)
Definition alt (a b : str -> option R) (s : str) : option R :=
  match a s with
  | Some r => Some r
  | None => b s
  end.

(** [$] without the multiline flag. *)
Definition eos (r : R) (s : str) : option R :=
  match s with
  | [] => Some r
  | _ => None
  end.
End Matchers.

End JS.

(** ** The route *)

Module Route.
Import JS.

(** *** Output and working types *)

(** [ChoiceOut = { key; text }]. *)
Record ChoiceOut := { c_key : str; c_text : str }.

(** [Media = { type: "image"; url; alt }]. *)
Record Media := { m_type : str; m_url : str; m_alt : str }.

Inductive QuestionType := MULTIPLE_CHOICE | FREE_RESPONSE.

(** [QuestionOut], as the handler fills it. *)
Record QuestionOut := {
  q_id : str;
  q_index : Z;
  q_type : QuestionType;
  q_category : str;
  q_stem : str;
  q_media : Media;
  q_choices : list ChoiceOut;
  q_answer : str
}.

(** The [reason] tags the handler writes. *)
Inductive Reason :=
  | DuplicateNumber | MissingNumber | NoNumber | EmptyStem
  | IncompleteChoices | TooManyChoices.

(** An entry of the [unparsed] bucket; [index] may be [null], and [sample]
    and [note] are absent from some entries. *)
Record Unparsed := {
  u_index : option Z;
  u_reason : Reason;
  u_sample : option str;
  u_note : option str
}.

(** [type Line = { html; text }]. *)
Record Line := { l_html : str; l_text : str }.

(** [type Block = { num: number | null; lines }]. *)
Record Block := { b_num : option Z; b_lines : list Line }.

Record Stats := { totalBlocks : nat; parsed : nat; unparsedCount : nat }.

(** What the handler answers with: the diagnostics payload when the form
    carries [withDiagnostics=1], the bare question array otherwise. *)
Inductive Response :=
  | WithDiagnostics (questions : list QuestionOut) (unparsed : list Unparsed) (stats : Stats)
  | Plain (questions : list QuestionOut).

Definition questionsOf (r : Response) : list QuestionOut :=
  match r with
  | WithDiagnostics qs _ _ => qs
  | Plain qs => qs
  end.

Definition diagnosticsOf (r : Response) : option (list Unparsed) :=
  match r with
  | WithDiagnostics _ u _ => Some u
  | Plain _ => None
  end.

Definition statsOf (r : Response) : option Stats :=
  match r with
  | WithDiagnostics _ _ st => Some st
  | Plain _ => None
  end.

#[global] Instance QuestionType_eq_dec : EqDecision QuestionType.
Proof. solve_decision. Defined.
#[global] Instance Reason_eq_dec : EqDecision Reason.
Proof. solve_decision. Defined.
#[global] Instance ChoiceOut_eq_dec : EqDecision ChoiceOut.
Proof. solve_decision. Defined.
#[global] Instance Media_eq_dec : EqDecision Media.
Proof. solve_decision. Defined.
#[global] Instance QuestionOut_eq_dec : EqDecision QuestionOut.
Proof. solve_decision. Defined.
#[global] Instance Unparsed_eq_dec : EqDecision Unparsed.
Proof. solve_decision. Defined.
#[global] Instance Line_eq_dec : EqDecision Line.
Proof. solve_decision. Defined.
#[global] Instance Block_eq_dec : EqDecision Block.
Proof. solve_decision. Defined.

(** *** The three patterns *)

Definition is_sep (c : char) : bool := ((c =? 46) || (c =? 41))%N.      (* [.)] *)
Definition is_AH (c : char) : bool := inRange 65 72 c.                  (* [A-H] *)
Definition is_colon_dash (c : char) : bool := ((c =? 58) || (c =? 45))%N. (* [:\-] *)

(** [^\s*(\d{1,3})\s*[.)]\s+]; [k] receives the digits and what follows the
    match. *)
Definition numberPrefix {R} (k : str -> str -> option R) : str -> option R :=
  star is_ws (rep13C is_digit (fun d =>
    star is_ws (chr is_sep (fun _ => plus is_ws (k d))))).

(** [^\s*([A-H])\s*[.)]\s+]; [k] receives the letter and what follows. *)
Definition letterPrefix {R} (k : char -> str -> option R) : str -> option R :=
  star is_ws (chr is_AH (fun key =>
    star is_ws (chr is_sep (fun _ => plus is_ws (k key))))).

(** [Q_START = /^\s*(\d{1,3})\s*[.)]\s+/]: the first capture group. *)
Definition Q_START (s : str) : option str := numberPrefix (fun d _ => Some d) s.

(** [CHOICE], the pattern [^\s*([A-H])\s*[.)]\s+] followed by a captured
    greedy run of [.] up to [$]: both capture groups. *)
Definition CHOICE (s : str) : option (char * str) :=
  letterPrefix (fun key => starC is_dot [] (fun body => eos (key, body))) s.

(** [ANSWER = /^\s*(?:Answer|Ans|Correct Answer)\s*[:\-]\s*(.+)\s*$/i]: the
    capture group. *)
Definition answerWord {R} (k : str -> option R) : str -> option R :=
  alt (wordCI (lit "Answer") k)
      (alt (wordCI (lit "Ans") k) (wordCI (lit "Correct Answer") k)).

Definition ANSWER (s : str) : option str :=
  star is_ws (answerWord (
    star is_ws (chr is_colon_dash (fun _ =>
      star is_ws (plusC is_dot (fun body => star is_ws (eos body))))))) s.

(** *** Helpers *)

(** [normalizeAnswer]: the letter matched by [/^[A-H]\b/i], upper-cased, or
    the trimmed text with its whitespace runs collapsed. *)
Definition leadingLetter (s : str) : option str :=
  match s with
  | c :: rest =>
      let after := match rest with d :: _ => is_word d | [] => false end in
      if is_AH (canonicalize c) && negb after then Some [c] else None
  | [] => None
  end.

Definition normalizeAnswer (raw : str) : str :=
  let s := trim raw in
  match leadingLetter s with
  | Some letter => map toUpperCase letter
  | None => collapse is_ws s
  end.

(** [stripPrefix(html, /^\s*[A-H]\s*[.)]\s+/)]. *)
Definition stripLetterPrefix (html : str) : str :=
  match letterPrefix (fun _ rest => Some rest) html with
  | Some rest => rest
  | None => html
  end.

(** [stripPrefix(html, /^\s*\d{1,3}\s*[.)]\s+/)]. *)
Definition stripNumberPrefix (html : str) : str :=
  match numberPrefix (fun _ rest => Some rest) html with
  | Some rest => rest
  | None => html
  end.

(** Three or more repetitions of the group [<br\/>\s*], greedy, at the start
    of [s]: what follows the match.  The group consumes at least five code
    units, so [length s] rounds are enough for the open-ended repetition. *)
Definition brUnit {R} (k : str -> option R) : str -> option R :=
  word (lit "<br/>") (star is_ws k).

Fixpoint brMany {R} (fuel : nat) (k : str -> option R) (s : str) : option R :=
  match fuel with
  | O => k s
  | S fuel' =>
      match brUnit (brMany fuel' k) s with
      | Some r => Some r
      | None => k s
      end
  end.

Definition brRun (s : str) : option str :=
  brUnit (brUnit (brUnit (brMany (length s) Some))) s.

(** The global replacement of every such run by two [<br/>]; [skip] counts
    the code units of a match still to be passed over. *)
Fixpoint collapseBreaks (skip : nat) (s : str) : str :=
  match s with
  | [] => []
  | c :: s' =>
      match skip with
      | S n => collapseBreaks n s'
      | O =>
          match brRun s with
          | Some rest =>
              lit "<br/><br/>" ++ collapseBreaks (length s - length rest - 1) s'
          | None => c :: collapseBreaks 0 s'
          end
      end
  end.

(** ** The page-list route and its client

    [parsePagesList] and the page selection of [POST] in
    [app/api/pdf-pages/route.ts], and [compressRanges] of the page picker,
    which writes the list the route parses. *)

Module Pdf.

(** [`${n}`] for an integer (below 10^21 in size, where JavaScript writes
    all the digits). *)
Definition numberText (n : Z) : str :=
  if n <? 0 then 45%N :: decimal (- n) else decimal n.

(** A JavaScript [Set] of numbers, in insertion order. *)
Definition setHas (s : list Z) (n : Z) : bool := bool_decide (n ∈ s).
Definition setAdd (s : list Z) (n : Z) : list Z := if setHas s n then s else s ++ [n].

(** [[,\s]]. *)
Definition is_listSep (c : char) : bool := (c =? 44)%N || is_ws c.
Definition is_dash (c : char) : bool := (c =? 45)%N.

(** [s.split(/[,\s]+/)]: [cur] is the piece being read, [inSep] tells that
    the code unit before [s] was part of a separator. *)
Fixpoint splitFrom (cur : str) (inSep : bool) (s : str) : list str :=
  match s with
  | [] => [cur]
  | c :: s' =>
      if is_listSep c then (if inSep then splitFrom cur true s' else cur :: splitFrom [] true s')
      else splitFrom (cur ++ [c]) false s'
  end.
Definition split (s : str) : list str := splitFrom [] false s.

(** [/^(\d+)(?:-(\d+))?$/]: the two capture groups. *)
Definition PAGE_RANGE (part : str) : option (str * option str) :=
  plusC is_digit (fun a =>
    alt (chr is_dash (fun _ => plusC is_digit (fun b => eos (a, Some b))))
        (eos (a, None))) part.

(** [Math.max(1, Math.min(max, x))]. *)
Definition clamp (max x : Z) : Z := Z.max 1 (Z.min max x).

(** [for (let i = a; i <= b; i++) out.add(i)]. *)
Definition addRange (out : list Z) (a b : Z) : list Z :=
  foldl setAdd out (seqZ a (b - a + 1)).

Section Engine.

(** [Number.isFinite] on the result of [parseInt]: which digit strings
    overflow to [Infinity] is the engine's affair.  The result itself is kept
    as the exact integer: a double differs from it only at or above 2^53,
    where it stays at or above 2^53, so for [max] below 2^53 the comparison
    and the clamp below give what they give on the double. *)
Variable isFinite : Z -> bool.

(** One round of the loop over the parts. *)
Definition partStep (max : Z) (out : list Z) (part : str) : list Z :=
  match part with
  | [] => out
  | _ =>
      match PAGE_RANGE part with
      | None => out
      | Some (m1, m2) =>
          let a := parseInt m1 in
          let b := match m2 with Some d => parseInt d | None => a end in
          if negb (isFinite a) || negb (isFinite b) then out
          else
            let ab := if b <? a then (b, a) else (a, b) in
            addRange out (clamp max ab.1) (clamp max ab.2)
      end
  end.

(** The clamped range a part stands for, if the loop does not skip it. *)
Definition partRange (max : Z) (part : str) : option (Z * Z) :=
  match part with
  | [] => None
  | _ =>
      match PAGE_RANGE part with
      | None => None
      | Some (m1, m2) =>
          let a := parseInt m1 in
          let b := match m2 with Some d => parseInt d | None => a end in
          if negb (isFinite a) || negb (isFinite b) then None
          else Some (clamp max (Z.min a b), clamp max (Z.max a b))
      end
  end.

(** [parsePagesList]. *)
Definition parsePagesList (input : str) (max : Z) : list Z :=
  match trim input with
  | [] => []
  | s => merge_sort Z.le (foldl (partStep max) [] (split s))
  end.

(** The pages [POST] keeps in edit mode: the selected ones when [mode] is
    "keep", the others of [1..total] for any other mode. *)
Definition keptPages (mode : str) (selected : list Z) (total : Z) : list Z :=
  if bool_decide (mode = lit "keep") then selected
  else filter (fun i => setHas selected i = false) (seqZ 1 total).

(** What [POST] does with a loaded document of [total] pages in edit mode:
    it refuses with status 400 when no page is left, and otherwise asks the
    PDF library for the zero-based pages and reports the kept ones. *)
Inductive EditPlan :=
  | NoPagesToKeep
  | CopyPages (zeroBased : list Z) (keptPages : list Z).

Definition editPlan (mode pages : str) (total : Z) : EditPlan :=
  let keep := keptPages mode (parsePagesList pages total) total in
  match keep with
  | [] => NoPagesToKeep
  | _ => CopyPages ((fun n => n - 1) <$> keep) keep
  end.

End Engine.

(** [Number.isFinite] for the examples: the integers below 2^1024 (an
    engine with IEEE doubles gives [Infinity] a little below that, far above
    any page number used here). *)
Definition belowInfinity (z : Z) : bool := z <? 2 ^ 1024.

(** [compressRanges] of the page picker: [start] and [prev] are the ends of
    the run being read, [out] the ranges written so far. *)
Definition rangeText (start prev : Z) : str :=
  if start =? prev then numberText start
  else numberText start ++ lit "-" ++ numberText prev.

Fixpoint compressFrom (start prev : Z) (nums : list Z) (out : list str) : list str :=
  match nums with
  | [] => out ++ [rangeText start prev]
  | n :: rest =>
      if n =? prev + 1 then compressFrom start n rest out
      else compressFrom n n rest (out ++ [rangeText start prev])
  end.

Definition compressRanges (nums : list Z) : str :=
  match nums with
  | [] => []
  | n :: rest => join (lit ",") (compressFrom n n rest [])
  end.

(** The [pages] field the page picker sends: the typed list if there is
    one, else the ticked pages, sorted and compressed. *)
Definition pagesField (pagesQuery : str) (selected : list Z) : str :=
  match trim pagesQuery with
  | [] => compressRanges (merge_sort Z.le selected)
  | q => q
  end.

(** [Set.prototype.delete]. *)
Definition setDelete (s : list Z) (n : Z) : list Z := filter (fun x => x <> n) s.

(** The handlers of the page picker, as functions from the selection they
    close over to the selection they set.  [pageCount] is [None] while it is
    [null]; [!pageCount] also holds for 0. *)
Definition noPageCount (pageCount : option Z) : bool :=
  match pageCount with
  | None => true
  | Some c => c =? 0
  end.

Definition togglePage (selected : list Z) (n : Z) (checked : bool) : list Z :=
  if checked then setAdd selected n else setDelete selected n.

Definition selectAll (pageCount : option Z) (selected : list Z) : list Z :=
  if noPageCount pageCount then selected
  else foldl setAdd [] (seqZ 1 (default 0 pageCount)).

Definition selectNone : list Z := [].

Definition invert (pageCount : option Z) (selected : list Z) : list Z :=
  if noPageCount pageCount then selected
  else foldl (fun next i => if setHas selected i then next else setAdd next i) []
         (seqZ 1 (default 0 pageCount)).

(** What the user can do with the selection, and what it does to it. *)
Inductive PickerEvent :=
  | TogglePage (n : Z) (checked : bool)
  | SelectAll
  | SelectNone
  | Invert.

Definition pickerStep (pageCount : option Z) (selected : list Z) (e : PickerEvent)
  : list Z :=
  match e with
  | TogglePage n checked => togglePage selected n checked
  | SelectAll => selectAll pageCount selected
  | SelectNone => selectNone
  | Invert => invert pageCount selected
  end.

(** The picker shows one checkbox for each of the pages 1 to [pageCount]. *)
Definition offered (pageCount : option Z) (e : PickerEvent) : Prop :=
  match e with
  | TogglePage n _ => 1 <= n <= default 0 pageCount
  | _ => True
  end.

End Pdf.

Section Handler.

(** The DOM library (cheerio) is outside the repository.  [domText] stands for
    loading a fragment and reading the text of its root; [domChoiceText] for
    loading it, unwrapping every [strong] and [tr] element, replacing every
    [br] by a space, and reading the text of the root. *)
Variable domText : str -> str.
Variable domChoiceText : str -> str.

Definition wrapDiv (html : str) : str := lit "<div>" ++ html ++ lit "</div>".

(** [toPlainStem]. *)
Definition toPlainStem (html : str) : str :=
  trim (collapse is_ws (collapse is_tab (domText (wrapDiv html)))).

(** [cleanChoiceHtml]. *)
Definition cleanChoiceHtml (html : str) : str :=
  trim (collapse is_ws (collapse is_tab (domChoiceText (wrapDiv html)))).

(** *** Segmenting lines into blocks *)

(** The block list and the block being filled ([cur]). *)
Record SegState := { s_blocks : list Block; s_cur : option Block }.

(** The [while] loop of [pushCur]: pop lines from the end while the last one
    has only whitespace for text. *)
Definition isBlank (ln : Line) : bool := bool_decide (trim (l_text ln) = []).

Fixpoint popBlank (ls : list Line) : list Line :=
  match ls with
  | [] => []
  | ln :: rest =>
      match popBlank rest with
      | [] => if isBlank ln then [] else [ln]
      | kept => ln :: kept
      end
  end.

Definition pushCur (st : SegState) : SegState :=
  match s_cur st with
  | None => st
  | Some c =>
      let kept := popBlank (b_lines c) in
      {| s_blocks :=
           match kept with
           | [] => s_blocks st
           | _ => s_blocks st ++ [{| b_num := b_num c; b_lines := kept |}]
           end;
         s_cur := None |}
  end.

(** One round of the loop over [lines]. *)
Definition segStep (st : SegState) (ln : Line) : SegState :=
  match Q_START (l_text ln) with
  | Some d =>
      {| s_blocks := s_blocks (pushCur st);
         s_cur := Some {| b_num := Some (parseInt d); b_lines := [ln] |} |}
  | None =>
      match s_cur st with
      | Some c =>
          {| s_blocks := s_blocks st;
             s_cur := Some {| b_num := b_num c; b_lines := b_lines c ++ [ln] |} |}
      | None => st
      end
  end.

Definition segment (lines : list Line) : list Block :=
  s_blocks (pushCur (foldl segStep {| s_blocks := []; s_cur := None |} lines)).

(** [if (blocks.length === 0 && lines.length) blocks.push({num: null, lines})]. *)
Definition fallback (lines : list Line) (blocks : list Block) : list Block :=
  match blocks, lines with
  | [], _ :: _ => [{| b_num := None; b_lines := lines |}]
  | _, _ => blocks
  end.

(** *** Auditing the declared numbers *)

(** A JavaScript [Set] of numbers, in insertion order. *)
Definition has (s : list Z) (n : Z) : bool := bool_decide (n ∈ s).
Definition add (s : list Z) (n : Z) : list Z := if has s n then s else s ++ [n].

(** The loop filling [present] and [duplicates]. *)
Definition scanStep (pd : list Z * list Z) (b : Block) : list Z * list Z :=
  match b_num b with
  | Some n => if has pd.1 n then (pd.1, add pd.2 n) else (add pd.1 n, pd.2)
  | None => pd
  end.

Definition scanNumbers (blocks : list Block) : list Z * list Z :=
  foldl scanStep ([], []) blocks.

Definition duplicateEntry (n : Z) : Unparsed :=
  {| u_index := Some n; u_reason := DuplicateNumber; u_sample := None; u_note := None |}.
Definition missingEntry (n : Z) : Unparsed :=
  {| u_index := Some n; u_reason := MissingNumber; u_sample := None; u_note := None |}.

(** [Array.from(present).sort((a, b) => a - b)]. *)
Definition sortNumbers (present : list Z) : list Z := merge_sort Z.le present.

(** The entries pushed for the gaps between the smallest and the largest
    number present. *)
Definition missingEntries (present : list Z) : list Unparsed :=
  match present with
  | [] => []
  | _ :: _ =>
      let nums := sortNumbers present in
      let min := default 0 (head nums) in
      let max := default 0 (last nums) in
      missingEntry <$> filter (fun i => has present i = false) (seqZ min (max - min + 1))
  end.

(** Everything the numbering audit pushes onto [unparsed], in order. *)
Definition auditNumbers (blocks : list Block) : list Unparsed :=
  let pd := scanNumbers blocks in
  (duplicateEntry <$> pd.2) ++ missingEntries pd.1.

(** *** Classifying the lines of a block *)

(** The locals of one round of [blocks.forEach].  [currentChoice] aliases an
    element of [choices]; it is kept as the position of that element. *)
Record ClsState := {
  stemParts : list str;
  choices : list ChoiceOut;
  currentChoice : option nat;
  answer : option str
}.

Definition clsInit : ClsState :=
  {| stemParts := []; choices := []; currentChoice := None; answer := None |}.

(** [currentChoice.text = (currentChoice.text + " " + ln.html).trim()]. *)
Definition appendToChoice (html : str) (c : ChoiceOut) : ChoiceOut :=
  {| c_key := c_key c; c_text := trim (c_text c ++ lit " " ++ html) |}.

(** The body of [b.lines.forEach((ln, j) => ...)]. *)
Definition classifyLine (j : nat) (ln : Line) (st : ClsState) : ClsState :=
  let t := trim (l_text ln) in
  match CHOICE t with
  | Some (k, _) =>
      let c := {| c_key := [toUpperCase k];
                  c_text := cleanChoiceHtml (stripLetterPrefix (l_html ln)) |} in
      {| stemParts := stemParts st;
         choices := choices st ++ [c];
         currentChoice := Some (length (choices st));
         answer := answer st |}
  | None =>
      match ANSWER t with
      | Some body =>
          {| stemParts := stemParts st;
             choices := choices st;
             currentChoice := None;
             answer := Some (normalizeAnswer body) |}
      | None =>
          match j with
          | O =>
              {| stemParts := stemParts st ++ [stripNumberPrefix (l_html ln)];
                 choices := choices st;
                 currentChoice := None;
                 answer := answer st |}
          | S _ =>
              match currentChoice st with
              | Some i =>
                  {| stemParts := stemParts st;
                     choices := alter (appendToChoice (l_html ln)) i (choices st);
                     currentChoice := Some i;
                     answer := answer st |}
              | None =>
                  {| stemParts := stemParts st ++ [l_html ln];
                     choices := choices st;
                     currentChoice := None;
                     answer := answer st |}
              end
          end
      end
  end.

(** The loop over the lines of a block, starting at position [j]. *)
Fixpoint classifyFrom (j : nat) (ls : list Line) (st : ClsState) : ClsState :=
  match ls with
  | [] => st
  | ln :: rest => classifyFrom (S j) rest (classifyLine j ln st)
  end.

Definition classify (b : Block) : ClsState := classifyFrom 0 (b_lines b) clsInit.

(** *** Building the question of a block *)

Definition stemHTML (st : ClsState) : str :=
  trim (collapseBreaks 0 (join (lit "<br/>") (stemParts st))).

(** [Number.isFinite(b.num) ? b.num : i + 1]. *)
Definition indexOf (i : nat) (b : Block) : Z :=
  match b_num b with
  | Some n => n
  | None => Z.of_nat i + 1
  end.

Definition typeOf (cs : list ChoiceOut) : QuestionType :=
  if (2 <=? length cs)%nat then MULTIPLE_CHOICE else FREE_RESPONSE.

(** The question pushed onto [out] for block [b] at position [i]. *)
Definition buildQuestion (i : nat) (b : Block) : QuestionOut :=
  let st := classify b in
  let index := indexOf i b in
  {| q_id := lit "Q" ++ decimal index;
     q_index := index;
     q_type := typeOf (choices st);
     q_category := lit "Uncategorized";
     q_stem := toPlainStem (stemHTML st);
     q_media := {| m_type := lit "image";
                   m_url := lit "/images/2018/B/q" ++ decimal index ++ lit ".png";
                   m_alt := [] |};
     q_choices := choices st;
     q_answer := [] |}.

(** The entries pushed onto [unparsed] for block [b] at position [i], in
    order. *)
Definition blockEntries (i : nat) (b : Block) : list Unparsed :=
  let st := classify b in
  let index := indexOf i b in
  let plainStem := toPlainStem (stemHTML st) in
  (match b_num b with
   | Some _ => []
   | None =>
       [{| u_index := None; u_reason := NoNumber;
           u_sample := Some (slice0 120 (default [] (l_text <$> head (b_lines b))));
           u_note := None |}]
   end)
  ++ (if bool_decide (plainStem = []) || (length (removeWs plainStem) <? 3)%nat
      then [{| u_index := Some index; u_reason := EmptyStem;
               u_sample := Some (slice0 140 (join (lit " ") (l_text <$> b_lines b)));
               u_note := None |}]
      else [])
  ++ (match choices st with
      | [c] => [{| u_index := Some index; u_reason := IncompleteChoices;
                   u_sample := Some (slice0 100 (c_text c));
                   u_note := Some (lit "found 1 choice") |}]
      | _ => []
      end)
  ++ (if (8 <? length (choices st))%nat
      then [{| u_index := Some index; u_reason := TooManyChoices;
               u_sample := None;
               u_note := Some (decimal (Z.of_nat (length (choices st)))) |}]
      else []).

(** *** The handler, from the line sequence on *)

(** The state that outlives a call: the module-level [const unparsed = []]. *)
Definition Store := list Unparsed.

(** One round of [blocks.forEach((b, i) => ...)]: the entries of the block
    are pushed onto [unparsed] and its question onto [out]. *)
Definition convertStep (i : nat) (b : Block) (acc : list QuestionOut * Store)
  : list QuestionOut * Store :=
  (acc.1 ++ [buildQuestion i b], acc.2 ++ blockEntries i b).

Fixpoint convertFrom (i : nat) (blocks : list Block) (acc : list QuestionOut * Store)
  : list QuestionOut * Store :=
  match blocks with
  | [] => acc
  | b :: rest => convertFrom (S i) rest (convertStep i b acc)
  end.

(** [POST] after line extraction: the response and the store it leaves. *)
Definition POST (withDiagnostics : bool) (lines : list Line) (unparsed : Store)
  : Response * Store :=
  let blocks := fallback lines (segment lines) in
  let unparsed1 := unparsed ++ auditNumbers blocks in
  let blocks := fallback lines blocks in
  let (out, unparsed2) := convertFrom 0 blocks ([], unparsed1) in
  (if withDiagnostics
   then WithDiagnostics out unparsed2
          {| totalBlocks := length blocks; parsed := length out;
             unparsedCount := length unparsed2 |}
   else Plain out,
   unparsed2).

(** *** Vocabulary of the statements *)

(** The blocks the conversion loop runs over. *)
Definition blocksOf (lines : list Line) : list Block :=
  fallback lines (fallback lines (segment lines)).

(** The entries one call pushes onto [unparsed], in order. *)
Definition entriesOf (lines : list Line) : list Unparsed :=
  auditNumbers (fallback lines (segment lines))
  ++ mjoin (imap blockEntries (blocksOf lines)).

(** Block list [blocks] declares the number [n]. *)
Definition declares (blocks : list Block) (n : Z) : Prop :=
  Some n ∈ (b_num <$> blocks).

#[global] Instance declares_dec blocks n : Decision (declares blocks n).
Proof. unfold declares. apply _. Defined.

(** How many blocks declare [n]. *)
Definition timesDeclared (blocks : list Block) (n : Z) : nat :=
  length (filter (fun b => b_num b = Some n) blocks).

Definition isLeast (blocks : list Block) (lo : Z) : Prop :=
  declares blocks lo /\ forall n, declares blocks n -> lo <= n.
Definition isGreatest (blocks : list Block) (hi : Z) : Prop :=
  declares blocks hi /\ forall n, declares blocks n -> n <= hi.

(** A block that carries a declared number, which is not negative. *)
Definition numbered (b : Block) : Prop := exists n, b_num b = Some n /\ 0 <= n.

(** An answer line: its trimmed text matches [ANSWER]. *)
Definition isAnswerLine (ln : Line) : Prop := is_Some (ANSWER (trim (l_text ln))).

(** Two lines that are the same unless both are answer lines. *)
Definition sameUpToAnswer (l1 l2 : Line) : Prop :=
  l1 = l2 \/ (isAnswerLine l1 /\ isAnswerLine l2).

Definition sameBlockUpToAnswer (b1 b2 : Block) : Prop :=
  b_num b1 = b_num b2 /\ Forall2 sameUpToAnswer (b_lines b1) (b_lines b2).

(** Two entries that agree on index, reason and note, and on the sample too
    unless they are no-number or empty-stem entries, whose sample quotes the
    text of the lines. *)
Definition sameButSample (u1 u2 : Unparsed) : Prop :=
  u_index u1 = u_index u2 /\ u_reason u1 = u_reason u2 /\ u_note u1 = u_note u2
  /\ (u_reason u1 <> NoNumber -> u_reason u1 <> EmptyStem -> u_sample u1 = u_sample u2).

(** The first two code units of a string that starts with one of the three
    answer words. *)
Definition startsAnswerWord (t : str) : Prop :=
  exists c c2 r, t = c :: c2 :: r /\
    (((c = 65 \/ c = 97) /\ (c2 = 78 \/ c2 = 110))
     \/ ((c = 67 \/ c = 99) /\ (c2 = 79 \/ c2 = 111)))%N.

(** The segmenter states reached on two such line sequences. *)
Definition sameSegState (st1 st2 : SegState) : Prop :=
  Forall2 sameBlockUpToAnswer (s_blocks st1) (s_blocks st2)
  /\ option_Forall2 sameBlockUpToAnswer (s_cur st1) (s_cur st2).

(** What the question builder reads of the classifier's locals. *)
Definition visible (st : ClsState) : list str * list ChoiceOut * option nat :=
  (stemParts st, choices st, currentChoice st).

(** How many entries of [es] carry reason [r] and index [n]. *)
Definition entriesAt (r : Reason) (n : Z) (es : list Unparsed) : nat :=
  length (filter (fun u => u_reason u = r /\ u_index u = Some n) es).

(** How many questions of [qs] have index [n]. *)
Definition questionsAt (n : Z) (qs : list QuestionOut) : nat :=
  length (filter (fun q => q_index q = n) qs).

(** A line that opens a block: its text matches [Q_START]. *)
Definition startsBlock (ln : Line) : Prop := is_Some (Q_START (l_text ln)).

(** A choice line: its trimmed text matches [CHOICE]. *)
Definition isChoiceLine (ln : Line) : Prop := is_Some (CHOICE (trim (l_text ln))).

(** A block as the segmenter opens and fills it: a line that matches
    [Q_START] and gives the number, followed by lines that do not match. *)
Definition opened (b : Block) : Prop :=
  exists ln rest d,
    b_lines b = ln :: rest /\ Q_START (l_text ln) = Some d
    /\ b_num b = Some (parseInt d) /\ Forall (fun l => ~ startsBlock l) rest.

(** A segmenter state with the blocks [before] emitted before it. *)
Definition afterBlocks (before : list Block) (st : SegState) : SegState :=
  {| s_blocks := before ++ s_blocks st; s_cur := s_cur st |}.

#[global] Instance startsBlock_dec ln : Decision (startsBlock ln).
Proof. unfold startsBlock. apply _. Defined.

#[global] Instance isChoiceLine_dec ln : Decision (isChoiceLine ln).
Proof. unfold isChoiceLine. apply _. Defined.

(** The lines of the block being filled, if any. *)
Definition pendingLines (st : SegState) : list Line :=
  match s_cur st with
  | Some c => b_lines c
  | None => []
  end.

(** What holds of the segmenter's state after any number of rounds: the
    emitted blocks and the block being filled are opened blocks, and no
    emitted block ends in a blank line. *)
Definition segInv (st : SegState) : Prop :=
  Forall (fun b => opened b
            /\ forall l, last (b_lines b) = Some l -> isBlank l = false)
         (s_blocks st)
  /\ (forall c, s_cur st = Some c -> opened c).

(** The key letter a line contributes when it is a choice line. *)
Definition keyOf (ln : Line) : option str :=
  (fun kb : char * str => [kb.1]) <$> CHOICE (trim (l_text ln)).

(** What holds of the classifier's locals after any number of lines:
    [currentChoice], when set, is the last element of [choices]. *)
Definition aliasesLast (st : ClsState) : Prop :=
  forall i, currentChoice st = Some i -> S i = length (choices st).

#[global] Instance isAnswerLine_dec ln : Decision (isAnswerLine ln).
Proof. unfold isAnswerLine. apply _. Defined.

(** Text in which whitespace occurs only as single plain spaces;
    [afterSpace] tells that the code unit before [s] was a space. *)
Fixpoint singleSpaced (afterSpace : bool) (s : str) : bool :=
  match s with
  | [] => true
  | c :: s' =>
      if is_ws c then (c =? 32)%N && negb afterSpace && singleSpaced true s'
      else singleSpaced false s'
  end.

(** Text without whitespace at either end. *)
Definition noEdgeSpace (s : str) : Prop :=
  (forall c, head s = Some c -> is_ws c = false)
  /\ (forall c, last s = Some c -> is_ws c = false).

(** Plain text: single-spaced and without whitespace at either end. *)
Definition plainText (s : str) : Prop :=
  singleSpaced false s = true /\ noEdgeSpace s.

(** The line extractor of [POST]: a paragraph comes as its inner markup and
    its text; the markup is trimmed, trailing whitespace is removed from the
    text, and a line with neither markup nor text is dropped. *)
Definition extractLine (p : str * str) : Line :=
  {| l_html := trim p.1; l_text := trimEnd p.2 |}.

Definition keptLine (ln : Line) : bool :=
  negb (bool_decide (l_html ln = [])) || negb (bool_decide (l_text ln = [])).

Definition extractLines (paragraphs : list (str * str)) : list Line :=
  List.filter keptLine (extractLine <$> paragraphs).

(** A paragraph with nothing but whitespace in its markup and its text. *)
Definition blankParagraph (p : str * str) : bool :=
  forallb is_ws p.1 && forallb is_ws p.2.

(** *** Sample inputs

    A line whose markup and text are the same ASCII string, and a DOM text
    function for running the handler on fragments without entities: it drops
    the tags. *)
Definition line (s : string) : Line := {| l_html := lit s; l_text := lit s |}.

Fixpoint dropTags (inTag : bool) (s : str) : str :=
  match s with
  | [] => []
  | c :: s' =>
      if (c =? 60)%N then dropTags true s'
      else if (c =? 62)%N then (if inTag then dropTags false s' else c :: dropTags false s')
      else if inTag then dropTags true s'
      else c :: dropTags false s'
  end.
Definition tagless : str -> str := dropTags false.

Definition sampleQuiz : list Line :=
  [line "1. What is 2+2?"; line "A. 3"; line "B. 4"; line "Answer: B"].
Definition twoFives : list Line := [line "5. First"; line "5. Second"].
Definition oneAndThree : list Line := [line "1. First"; line "3. Third"].
Definition oneChoice : list Line := [line "1. Pick one"; line "A. only one"].
Definition untitled : list Line := [line "Hello"].
Definition choiceFirst : list Line := [line "A. foo"].
Definition answerB : list Line := [line "Answer: B"].
Definition answerC : list Line := [line "Answer: C"].
Definition quizB : list Line := [line "1. What is 2+2?"; line "Answer: B"].
Definition quizC : list Line := [line "1. What is 2+2?"; line "Answer: C"].

(** ** Facts about the matchers *)

Lemma dropWhile_split p s :
  exists u, s = u ++ dropWhile p s /\ forallb p u = true.
Proof.
  induction s as [|c s IH]; simpl.
  - exists []. done.
  - destruct (p c) eqn:Hc.
    + destruct IH as (u & Hu & Hall). exists (c :: u). simpl.
      rewrite Hc, Hall. split; [by f_equal | done].
    + exists []. done.
Qed.

Lemma dropWhile_head p s c r : dropWhile p s = c :: r -> p c = false.
Proof.
  induction s as [|x s IH]; simpl; [done|].
  destruct (p x) eqn:Hx; [done|]. intros [= -> _]. done.
Qed.

Lemma trimEnd_prefix s : exists w, s = trimEnd s ++ w.
Proof.
  unfold trimEnd. destruct (dropWhile_split is_ws (rev s)) as (u & Hu & _).
  exists (rev u). rewrite <- rev_app_distr, <- Hu. by rewrite rev_involutive.
Qed.

Lemma trimEnd_head s c r : trimEnd s = c :: r -> exists r', s = c :: r'.
Proof.
  intros H. destruct (trimEnd_prefix s) as (w & Hw). rewrite H in Hw.
  exists (r ++ w). done.
Qed.

(** The first code unit of a trimmed string is the first one of the string
    that is not whitespace. *)
Lemma trim_head s c r :
  trim s = c :: r -> is_ws c = false /\ exists r', dropWhile is_ws s = c :: r'.
Proof.
  unfold trim, trimStart. intros H.
  destruct (trimEnd_head _ _ _ H) as (r' & Hr'). split; [|eauto].
  by eapply dropWhile_head.
Qed.

Lemma starC_skip {R} p acc (k : str -> str -> option R) c r :
  p c = false -> starC p acc k (c :: r) = k acc (c :: r).
Proof. intros H. simpl. by rewrite H. Qed.

(** A [p*] followed by one code unit of class [q] fails when [q] excludes [p]
    and the first code unit after the leading run of [p]. *)
Lemma starC_chr_None {R} p q (k : str -> char -> str -> option R) s :
  (forall x, p x = true -> q x = false) ->
  (forall c r, dropWhile p s = c :: r -> q c = false) ->
  forall acc, starC p acc (fun a => chr q (k a)) s = None.
Proof.
  intros Hpq. induction s as [|c s IH]; intros Hd acc; simpl; [done|].
  simpl in Hd. destruct (p c) eqn:Hc.
  - rewrite (IH Hd). by rewrite (Hpq c Hc).
  - by rewrite (Hd c s eq_refl).
Qed.

Lemma inRange_spec lo hi c : inRange lo hi c = true <-> (lo <= c <= hi)%N.
Proof. unfold inRange. rewrite andb_true_iff, !N.leb_le. done. Qed.

Lemma is_digit_cases c :
  is_digit c = true ->
  c ∈ [48; 49; 50; 51; 52; 53; 54; 55; 56; 57]%N.
Proof.
  unfold is_digit. rewrite inRange_spec. intros H. rewrite !elem_of_cons. lia.
Qed.

(** Splits on the ten digits and computes. *)
Ltac by_digit H :=
  apply is_digit_cases in H; rewrite ?elem_of_cons, elem_of_nil in H;
  repeat (destruct H as [->|H]); try done; try reflexivity.

Lemma digit_not_ws c : is_digit c = true -> is_ws c = false.
Proof. intros H. by_digit H. Qed.

Lemma ws_not_digit c : is_ws c = true -> is_digit c = false.
Proof.
  intros H. destruct (is_digit c) eqn:Hd; [|done].
  apply digit_not_ws in Hd. congruence.
Qed.

Lemma canonicalize_inv a c :
  (65 <= a <= 90)%N -> canonicalize c = a -> c = a \/ c = (a + 32)%N.
Proof.
  unfold canonicalize, toUpperCase, is_lower. intros Ha.
  destruct (inRange 97 122 c) eqn:Hc.
  - apply inRange_spec in Hc. lia.
  - intros ->. by left.
Qed.

Lemma dropWhile_snoc_keep p l c :
  p c = false -> exists u, dropWhile p (l ++ [c]) = u ++ [c].
Proof.
  intros Hc. induction l as [|x l IH]; simpl.
  - rewrite Hc. by exists [].
  - destruct (p x); [done|]. by exists (x :: l).
Qed.

Lemma trimEnd_cons_keep c r :
  is_ws c = false -> exists r', trimEnd (c :: r) = c :: r'.
Proof.
  intros Hc. unfold trimEnd. change (rev (c :: r)) with (rev r ++ [c]).
  destruct (dropWhile_snoc_keep is_ws (rev r) c Hc) as (u & ->).
  exists (rev u). by rewrite rev_app_distr.
Qed.

(** *** The numbering pattern against the other two *)

Lemma Q_START_fails s :
  (forall c r, dropWhile is_ws s = c :: r -> is_digit c = false) -> Q_START s = None.
Proof.
  intros H. unfold Q_START, numberPrefix, star, rep13C.
  apply (starC_chr_None is_ws is_digit (fun _ c => uptoC 2 is_digit [c] _)).
  - apply ws_not_digit.
  - done.
Qed.

Lemma Q_START_head s d :
  Q_START s = Some d ->
  exists c r, dropWhile is_ws s = c :: r /\ is_digit c = true.
Proof.
  intros H. destruct (dropWhile is_ws s) as [|c r] eqn:Hd.
  - rewrite Q_START_fails in H; [done|]. intros ? ? ?; congruence.
  - destruct (is_digit c) eqn:Hc; [eauto|].
    rewrite Q_START_fails in H; [done|]. intros ? ? ?; congruence.
Qed.

(** A line that opens a block by its number is neither a choice line nor an
    answer line. *)
Lemma numbered_neither s d :
  Q_START s = Some d -> CHOICE (trim s) = None /\ ANSWER (trim s) = None.
Proof.
  intros H. destruct (Q_START_head _ _ H) as (c & r & Hd & Hc).
  unfold trim, trimStart. rewrite Hd.
  destruct (trimEnd_cons_keep c r (digit_not_ws _ Hc)) as (r' & ->).
  split; by_digit Hc.
Qed.

(** *** Answer lines *)

Lemma wordCI_two {R} a b w (k : str -> option R) s x :
  wordCI (a :: b :: w) k s = Some x ->
  exists c c2 r, s = c :: c2 :: r
    /\ canonicalize c = canonicalize a /\ canonicalize c2 = canonicalize b.
Proof.
  simpl. destruct s as [|c [|c2 s']]; try done.
  - destruct (_ =? _)%N; done.
  - destruct (canonicalize c =? canonicalize a)%N eqn:E1; [|done].
    destruct (canonicalize c2 =? canonicalize b)%N eqn:E2; [|done].
    apply N.eqb_eq in E1, E2. intros _. eauto 6.
Qed.

Lemma answerWord_start {R} (k : str -> option R) s x :
  answerWord k s = Some x -> startsAnswerWord s.
Proof.
  unfold answerWord, alt.
  destruct (wordCI (lit "Answer") k s) as [y|] eqn:E1;
    [|destruct (wordCI (lit "Ans") k s) as [y|] eqn:E2]; intros H.
  - apply wordCI_two in E1 as (c & c2 & r & -> & Hc & Hc2).
    apply canonicalize_inv in Hc; [|vm_compute; split; discriminate].
    apply canonicalize_inv in Hc2; [|vm_compute; split; discriminate].
    exists c, c2, r. split; [done|]. left. done.
  - apply wordCI_two in E2 as (c & c2 & r & -> & Hc & Hc2).
    apply canonicalize_inv in Hc; [|vm_compute; split; discriminate].
    apply canonicalize_inv in Hc2; [|vm_compute; split; discriminate].
    exists c, c2, r. split; [done|]. left. done.
  - apply wordCI_two in H as (c & c2 & r & -> & Hc & Hc2).
    apply canonicalize_inv in Hc; [|vm_compute; split; discriminate].
    apply canonicalize_inv in Hc2; [|vm_compute; split; discriminate].
    exists c, c2, r. split; [done|]. right. done.
Qed.

Lemma ANSWER_start s body :
  ANSWER (trim s) = Some body -> startsAnswerWord (trim s).
Proof.
  destruct (trim s) as [|c r] eqn:Ht; [done|].
  destruct (trim_head _ _ _ Ht) as [Hc _].
  unfold ANSWER, star. rewrite starC_skip by done. apply answerWord_start.
Qed.

Lemma startsAnswerWord_not_choice t : startsAnswerWord t -> CHOICE t = None.
Proof.
  intros (c & c2 & r & -> & H).
  destruct H as [[[-> | ->] [-> | ->]] | [[-> | ->] [-> | ->]]]; reflexivity.
Qed.

(** An answer line does not open a block, is not a choice line and is not
    blank. *)
Lemma answer_line_facts s body :
  ANSWER (trim s) = Some body ->
  Q_START s = None /\ CHOICE (trim s) = None /\ trim s <> [].
Proof.
  intros H. pose proof (ANSWER_start _ _ H) as Hs.
  split; [|split].
  - destruct Hs as (c & c2 & r & Ht & Hcc).
    destruct (trim_head _ _ _ Ht) as (_ & r' & Hd).
    apply Q_START_fails. intros c' r'' Hd'. rewrite Hd in Hd'.
    injection Hd' as <- _.
    destruct Hcc as [[[-> | ->] _] | [[-> | ->] _]]; reflexivity.
  - by apply startsAnswerWord_not_choice.
  - destruct Hs as (c & c2 & r & -> & _). done.
Qed.

(** ** Facts about the handler *)

Lemma fallback_idem lines blocks :
  fallback lines (fallback lines blocks) = fallback lines blocks.
Proof. by destruct blocks, lines. Qed.

Lemma blocksOf_fallback lines : blocksOf lines = fallback lines (segment lines).
Proof. apply fallback_idem. Qed.

Lemma blocksOf_nonempty lines : lines <> [] -> blocksOf lines <> [].
Proof.
  rewrite blocksOf_fallback. unfold fallback.
  destruct (segment lines), lines; done.
Qed.

(** The conversion loop as two maps over the block list. *)
Lemma convertFrom_maps blocks i out store :
  convertFrom i blocks (out, store) =
  (out ++ imap (fun k => buildQuestion (i + k)) blocks,
   store ++ mjoin (imap (fun k => blockEntries (i + k)) blocks)).
Proof.
  revert i out store. induction blocks as [|b blocks IH]; intros i out store.
  - simpl. by rewrite !app_nil_r.
  - assert (forall A (f : nat -> Block -> A),
              imap (fun k => f (S i + k)%nat) blocks
              = imap ((fun k => f (i + k)%nat) ∘ S) blocks) as Hshift.
    { intros A f. apply imap_ext. intros k x _. simpl. f_equal. lia. }
    simpl. unfold convertStep. simpl. rewrite IH, <- !app_assoc. simpl.
    by rewrite Nat.add_0_r, !Hshift.
Qed.

(** The handler in closed form. *)
Lemma POST_unfold wd lines store :
  POST wd lines store =
  let out := imap buildQuestion (blocksOf lines) in
  let unparsed' := store ++ entriesOf lines in
  (if wd
   then WithDiagnostics out unparsed'
          {| totalBlocks := length (blocksOf lines); parsed := length out;
             unparsedCount := length unparsed' |}
   else Plain out,
   unparsed').
Proof.
  unfold POST. rewrite convertFrom_maps. simpl.
  unfold entriesOf, blocksOf. by rewrite app_assoc.
Qed.

Lemma POST_questions wd lines store :
  questionsOf (POST wd lines store).1 = imap buildQuestion (blocksOf lines).
Proof. rewrite POST_unfold. by destruct wd. Qed.

Lemma POST_store wd lines store :
  (POST wd lines store).2 = store ++ entriesOf lines.
Proof. by rewrite POST_unfold. Qed.

Lemma question_at wd lines store i b :
  blocksOf lines !! i = Some b ->
  questionsOf (POST wd lines store).1 !! i = Some (buildQuestion i b).
Proof. intros H. by rewrite POST_questions, list_lookup_imap, H. Qed.

Lemma question_from wd lines store q :
  q ∈ questionsOf (POST wd lines store).1 ->
  exists i b, blocksOf lines !! i = Some b /\ q = buildQuestion i b.
Proof.
  rewrite POST_questions. intros H.
  apply elem_of_lookup_imap in H as (i & b & -> & Hb). eauto.
Qed.

Lemma blockEntries_in lines i b u :
  blocksOf lines !! i = Some b -> u ∈ blockEntries i b -> u ∈ entriesOf lines.
Proof.
  intros Hb Hu. unfold entriesOf. rewrite elem_of_app. right.
  apply list_elem_of_join. exists (blockEntries i b). split; [done|].
  by apply elem_of_lookup_imap_2.
Qed.

Lemma typeOf_multiple cs : typeOf cs = MULTIPLE_CHOICE <-> (2 <= length cs)%nat.
Proof.
  unfold typeOf. destruct (2 <=? length cs)%nat eqn:E.
  - apply Nat.leb_le in E. done.
  - apply Nat.leb_gt in E. split; [done|lia].
Qed.

Lemma typeOf_free cs : typeOf cs = FREE_RESPONSE <-> (length cs < 2)%nat.
Proof.
  unfold typeOf. destruct (2 <=? length cs)%nat eqn:E.
  - apply Nat.leb_le in E. split; [done|lia].
  - apply Nat.leb_gt in E. done.
Qed.

(** ** The claims *)

(** C3: for a non-empty line sequence the handler emits at least one
    question.  When the segmenter emits no block the whole line sequence
    becomes one block with [num = null]; otherwise the segmenter's blocks are
    kept; and the question list is as long as the block list. *)
Theorem nonempty_input_yields_question (wd : bool) (lines : list Line) (store : Store) :
  lines <> [] ->
  (segment lines = [] -> blocksOf lines = [{| b_num := None; b_lines := lines |}])
  /\ (segment lines <> [] -> blocksOf lines = segment lines)
  /\ length (questionsOf (POST wd lines store).1) = length (blocksOf lines)
  /\ (1 <= length (questionsOf (POST wd lines store).1))%nat.
Proof.
  intros Hne. rewrite POST_questions, length_imap.
  pose proof (blocksOf_nonempty lines Hne) as Hb.
  repeat split.
  - rewrite blocksOf_fallback. intros ->. by destruct lines.
  - rewrite blocksOf_fallback. by destruct (segment lines).
  - destruct (blocksOf lines); [done|simpl; lia].
Qed.

(** C4: one question per block, in block order; the stats report
    [parsed = totalBlocks]; and a call only appends entries to [unparsed],
    whatever anomalies the blocks show. *)
Theorem one_question_per_block (wd : bool) (lines : list Line) (store : Store) :
  let blocks := blocksOf lines in
  let r := POST wd lines store in
  length (questionsOf r.1) = length blocks
  /\ (forall i b, blocks !! i = Some b ->
        questionsOf r.1 !! i = Some (buildQuestion i b))
  /\ (forall i q, questionsOf r.1 !! i = Some q ->
        exists b, blocks !! i = Some b /\ q = buildQuestion i b)
  /\ (forall st, statsOf r.1 = Some st ->
        parsed st = totalBlocks st /\ totalBlocks st = length blocks)
  /\ (wd = true -> is_Some (statsOf r.1))
  /\ r.2 = store ++ entriesOf lines.
Proof.
  intros blocks r. subst blocks r. rewrite POST_questions.
  split; [apply length_imap|]. split; [|split; [|split; [|split]]].
  - intros i b H. by rewrite list_lookup_imap, H.
  - intros i q. rewrite list_lookup_imap.
    destruct (blocksOf lines !! i) as [b|]; [|done]. intros [= <-]. eauto.
  - rewrite POST_unfold. destruct wd; simpl; [|done]. intros st [= <-]. simpl.
    by rewrite length_imap.
  - intros ->. rewrite POST_unfold. simpl. eauto.
  - apply POST_store.
Qed.

(** C5: every emitted question has the empty string for [answer]. *)
Theorem answer_always_empty (wd : bool) (lines : list Line) (store : Store)
    (q : QuestionOut) :
  q ∈ questionsOf (POST wd lines store).1 -> q_answer q = [].
Proof. intros H. apply question_from in H as (i & b & _ & ->). done. Qed.

(** C8: the question of a block is MULTIPLE_CHOICE exactly when the
    classifier found two or more choices and FREE_RESPONSE otherwise; with
    exactly one choice it is FREE_RESPONSE and an incomplete-choices entry
    with the question's index is pushed onto [unparsed]. *)
Theorem type_by_choice_count (wd : bool) (lines : list Line) (store : Store)
    (i : nat) (b : Block) :
  blocksOf lines !! i = Some b ->
  exists q,
    questionsOf (POST wd lines store).1 !! i = Some q
    /\ q_choices q = choices (classify b)
    /\ (q_type q = MULTIPLE_CHOICE <-> (2 <= length (choices (classify b)))%nat)
    /\ (q_type q = FREE_RESPONSE <-> (length (choices (classify b)) < 2)%nat)
    /\ (length (choices (classify b)) = 1%nat ->
          q_type q = FREE_RESPONSE
          /\ exists u, u ∈ (POST wd lines store).2
               /\ u_reason u = IncompleteChoices
               /\ u_index u = Some (q_index q)
               /\ u_note u = Some (lit "found 1 choice")).
Proof.
  intros Hb. exists (buildQuestion i b).
  split; [by apply question_at|]. split; [done|].
  split; [apply typeOf_multiple|]. split; [apply typeOf_free|].
  intros Hlen. split; [apply typeOf_free; simpl; lia|].
  destruct (choices (classify b)) as [|c [|c' cs]] eqn:Hcs; try done.
  eexists. rewrite POST_store, elem_of_app. split.
  - right. eapply blockEntries_in; [done|]. unfold blockEntries.
    rewrite Hcs. rewrite !elem_of_app. right. right. left. apply list_elem_of_here.
  - done.
Qed.

(** ** The numbering audit *)

Lemma elem_of_add s n x : x ∈ add s n <-> x ∈ s \/ x = n.
Proof.
  unfold add, has. case_bool_decide.
  - split; [by left|]. intros [?| ->]; done.
  - rewrite elem_of_app, list_elem_of_singleton. done.
Qed.

Lemma NoDup_add s n : NoDup s -> NoDup (add s n).
Proof.
  unfold add, has. case_bool_decide; [done|]. intros Hs.
  apply NoDup_app. split; [done|]. split; [|apply NoDup_singleton].
  intros x Hx. rewrite list_elem_of_singleton. by intros ->.
Qed.

Lemma timesDeclared_snoc blocks b n :
  timesDeclared (blocks ++ [b]) n =
  (timesDeclared blocks n + if bool_decide (b_num b = Some n) then 1 else 0)%nat.
Proof.
  unfold timesDeclared. rewrite filter_app, length_app. f_equal.
  case_bool_decide.
  - by rewrite filter_cons_True.
  - by rewrite filter_cons_False.
Qed.

Lemma declares_times blocks n : declares blocks n <-> (1 <= timesDeclared blocks n)%nat.
Proof.
  unfold declares, timesDeclared. rewrite list_elem_of_fmap. split.
  - intros (b & Hb & Hin).
    assert (b ∈ filter (fun b => b_num b = Some n) blocks) as Hf
      by (by apply list_elem_of_filter).
    destruct (filter _ blocks); [by apply not_elem_of_nil in Hf|simpl; lia].
  - destruct (filter _ blocks) as [|b l] eqn:Hf; [simpl; lia|]. intros _.
    assert (b ∈ filter (fun b => b_num b = Some n) blocks) as Hb
      by (rewrite Hf; apply list_elem_of_here).
    apply list_elem_of_filter in Hb as [Hb Hin]. eauto.
Qed.

(** What the scanning loop leaves in [present] and [duplicates]. *)
Lemma scanNumbers_spec blocks :
  NoDup (scanNumbers blocks).1 /\ NoDup (scanNumbers blocks).2
  /\ (forall n, n ∈ (scanNumbers blocks).1 <-> (1 <= timesDeclared blocks n)%nat)
  /\ (forall n, n ∈ (scanNumbers blocks).2 <-> (2 <= timesDeclared blocks n)%nat).
Proof.
  induction blocks as [|b blocks IH] using rev_ind.
  - repeat split; try apply NoDup_nil_2; try (by intros ?%not_elem_of_nil);
      unfold timesDeclared; simpl; lia.
  - unfold scanNumbers in *. rewrite foldl_snoc.
    destruct (foldl scanStep ([], []) blocks) as [p d]. simpl in IH.
    destruct IH as (Hp & Hd & Hpn & Hdn).
    unfold scanStep. simpl. destruct (b_num b) as [m|] eqn:Hm.
    + destruct (has p m) eqn:Hin; simpl; unfold has in Hin;
        [apply bool_decide_eq_true in Hin|apply bool_decide_eq_false in Hin].
      * split; [done|]. split; [by apply NoDup_add|]. split; intros n;
          rewrite timesDeclared_snoc; case_bool_decide; simplify_eq.
        -- rewrite Hpn. apply Hpn in Hin. lia.
        -- rewrite Hpn. lia.
        -- rewrite elem_of_add. apply Hpn in Hin. split; [lia|by right].
        -- rewrite elem_of_add, Hdn. split; [intros [?| ->]; [lia|done]|]. intros. left. lia.
      * split; [by apply NoDup_add|]. split; [done|]. split; intros n;
          rewrite timesDeclared_snoc; case_bool_decide; simplify_eq.
        -- rewrite elem_of_add. split; [lia|by right].
        -- rewrite elem_of_add, Hpn. split; [intros [?| ->]; [lia|done]|]. intros. left. lia.
        -- rewrite Hdn. rewrite Hpn in Hin. lia.
        -- rewrite Hdn. lia.
    + simpl. split; [done|]. split; [done|]. split; intros n;
        rewrite timesDeclared_snoc; rewrite bool_decide_eq_false_2 by congruence;
        rewrite ?Hpn, ?Hdn; lia.
Qed.

Lemma present_declares blocks n : n ∈ (scanNumbers blocks).1 <-> declares blocks n.
Proof.
  destruct (scanNumbers_spec blocks) as (_ & _ & H & _). by rewrite H, declares_times.
Qed.

Lemma sorted_head_least (l : list Z) a :
  StronglySorted Z.le l -> head l = Some a -> forall x, x ∈ l -> a <= x.
Proof.
  intros Hs Hh x Hx. apply head_Some in Hh as (l' & ->).
  apply StronglySorted_inv in Hs as [_ Hall].
  apply elem_of_cons in Hx as [->|Hx]; [lia|].
  rewrite Forall_forall in Hall. by apply Hall.
Qed.

Lemma sorted_last_greatest (l : list Z) b :
  StronglySorted Z.le l -> last l = Some b -> forall x, x ∈ l -> x <= b.
Proof.
  intros Hs Hl x Hx. apply last_Some in Hl as (l' & ->).
  apply elem_of_app in Hx as [Hx|Hx].
  - eapply (StronglySorted_app_1_elem_of Z.le); [done..|apply list_elem_of_here].
  - apply list_elem_of_singleton in Hx as ->. lia.
Qed.

(** The ends of the sorted array are the least and the greatest number
    present. *)
Lemma sortNumbers_ends present :
  present <> [] ->
  exists lo hi,
    head (sortNumbers present) = Some lo /\ last (sortNumbers present) = Some hi
    /\ lo ∈ present /\ hi ∈ present
    /\ forall x, x ∈ present -> lo <= x <= hi.
Proof.
  intros Hne. unfold sortNumbers.
  pose proof (merge_sort_Permutation Z.le present) as Hperm.
  pose proof (StronglySorted_merge_sort Z.le present) as Hs.
  assert (merge_sort Z.le present <> []) as Hne'.
  { intros E. rewrite E in Hperm. by apply Permutation_nil_l in Hperm. }
  destruct (head (merge_sort Z.le present)) as [lo|] eqn:Hlo;
    [|by apply head_None in Hlo].
  destruct (last (merge_sort Z.le present)) as [hi|] eqn:Hhi;
    [|by apply last_None in Hhi].
  exists lo, hi. split; [done|]. split; [done|]. split; [|split].
  - rewrite <- Hperm. by apply head_Some_elem_of.
  - rewrite <- Hperm. by apply last_Some_elem_of.
  - intros x Hx. rewrite <- Hperm in Hx. split.
    + by eapply sorted_head_least.
    + by eapply sorted_last_greatest.
Qed.

Lemma bool_decide_ext_if {A} (P Q : Prop) `{Decision P, Decision Q} (a b : A) :
  (P <-> Q) -> (if bool_decide P then a else b) = (if bool_decide Q then a else b).
Proof. intros HPQ. by rewrite (bool_decide_ext P Q HPQ). Qed.

Lemma entriesAt_app r n es1 es2 :
  entriesAt r n (es1 ++ es2) = (entriesAt r n es1 + entriesAt r n es2)%nat.
Proof. unfold entriesAt. by rewrite filter_app, length_app. Qed.

Lemma entriesAt_other r n es :
  (forall u, u ∈ es -> u_reason u <> r) -> entriesAt r n es = 0%nat.
Proof.
  intros H. unfold entriesAt. induction es as [|u es IH]; [done|].
  rewrite filter_cons_False.
  - apply IH. intros v Hv. apply H. by right.
  - intros [Hr _]. by apply (H u); [left|].
Qed.

Lemma entriesAt_fmap (mk : Z -> Unparsed) r l z :
  (forall n, u_reason (mk n) = r /\ u_index (mk n) = Some n) ->
  NoDup l ->
  entriesAt r z (mk <$> l) = if bool_decide (z ∈ l) then 1%nat else 0%nat.
Proof.
  intros Hmk. unfold entriesAt. induction l as [|x l IH]; intros Hnd; [done|].
  apply NoDup_cons in Hnd as [Hx Hnd]. rewrite fmap_cons.
  destruct (decide (x = z)) as [->|Hne].
  - rewrite filter_cons_True by apply Hmk. simpl. rewrite (IH Hnd).
    rewrite bool_decide_eq_false_2 by done.
    rewrite bool_decide_eq_true_2 by left. done.
  - rewrite filter_cons_False.
    + rewrite (IH Hnd). apply bool_decide_ext_if. rewrite elem_of_cons.
      split; [by right|intros [?|?]; [congruence|done]].
    + intros [_ Hi]. destruct (Hmk x) as [_ Hx']. congruence.
Qed.

Lemma missingEntries_count present lo hi z :
  NoDup present ->
  lo ∈ present -> hi ∈ present -> (forall x, x ∈ present -> lo <= x <= hi) ->
  entriesAt MissingNumber z (missingEntries present) =
  if bool_decide (lo <= z <= hi /\ z ∉ present) then 1%nat else 0%nat.
Proof.
  intros Hnd Hlo Hhi Hall.
  assert (present <> []) as Hne by (intros ->; by apply not_elem_of_nil in Hlo).
  destruct (sortNumbers_ends present Hne)
    as (lo' & hi' & Hlo' & Hhi' & Hlin & Hhin & Hall').
  assert (lo' = lo) as -> by (apply Hall in Hlin; apply Hall' in Hlo; lia).
  assert (hi' = hi) as -> by (apply Hall in Hhin; apply Hall' in Hhi; lia).
  unfold missingEntries. destruct present as [|p0 ps] eqn:Hp; [done|].
  rewrite <- Hp in *. rewrite Hlo', Hhi'. simpl.
  rewrite (entriesAt_fmap missingEntry MissingNumber); [|done|].
  - apply bool_decide_ext_if.
    rewrite list_elem_of_filter, elem_of_seqZ. unfold has.
    rewrite bool_decide_eq_false. split; [intros [? ?]|intros [? ?]]; split; (done || lia).
  - apply NoDup_filter, NoDup_seqZ.
Qed.

(** C7: when some block declares a number, the audit pushes exactly one
    missing-number entry for every integer between the least and the greatest
    declared number that no block declares, and none for any other integer;
    when no block declares a number it pushes no missing-number entry.
    Declared numbers 1 and 3 give the single entry for 2. *)
Theorem missing_numbers_reported (blocks : list Block) :
  (forall lo hi z,
     isLeast blocks lo -> isGreatest blocks hi ->
     entriesAt MissingNumber z (auditNumbers blocks) =
     if bool_decide (lo <= z <= hi /\ ~ declares blocks z) then 1%nat else 0%nat)
  /\ ((forall n, ~ declares blocks n) ->
       forall z, entriesAt MissingNumber z (auditNumbers blocks) = 0%nat)
  /\ (forall u, u ∈ auditNumbers blocks -> u_reason u = MissingNumber ->
       exists z, u = missingEntry z)
  /\ (forall l1 l2,
       auditNumbers [{| b_num := Some 1; b_lines := l1 |};
                     {| b_num := Some 3; b_lines := l2 |}] = [missingEntry 2]).
Proof.
  destruct (scanNumbers_spec blocks) as (Hp & Hd & _ & _).
  assert (forall z, entriesAt MissingNumber z (duplicateEntry <$> (scanNumbers blocks).2)
                    = 0%nat) as Hdup.
  { intros z. apply entriesAt_other. intros u Hu.
    apply list_elem_of_fmap in Hu as (n & -> & _). done. }
  split; [|split; [|split]].
  - intros lo hi z [Hlo Hlo'] [Hhi Hhi']. unfold auditNumbers.
    rewrite entriesAt_app, Hdup. simpl.
    rewrite (missingEntries_count _ lo hi); try done.
    + apply bool_decide_ext_if. by rewrite present_declares.
    + by apply present_declares.
    + by apply present_declares.
    + intros x Hx%present_declares. split; [by apply Hlo'|by apply Hhi'].
  - intros Hnone z. unfold auditNumbers. rewrite entriesAt_app, Hdup. simpl.
    destruct (scanNumbers blocks).1 as [|n ns] eqn:E; [done|].
    exfalso. apply (Hnone n). apply present_declares. rewrite E. left.
  - intros u Hu Hr. unfold auditNumbers in Hu. apply elem_of_app in Hu as [Hu|Hu].
    + apply list_elem_of_fmap in Hu as (n & -> & _). done.
    + unfold missingEntries in Hu. destruct (scanNumbers blocks).1; [by apply not_elem_of_nil in Hu|].
      apply list_elem_of_fmap in Hu as (n & -> & _). eauto.
  - intros l1 l2. reflexivity.
Qed.

(** ** The segmenter *)

Lemma parseInt_nonneg d : 0 <= parseInt d.
Proof.
  unfold parseInt.
  assert (forall acc, 0 <= acc ->
    0 <= fold_left (fun a c => 10 * a + digitVal c) d acc) as H.
  { induction d as [|c d IH]; intros acc Hacc; [done|]. simpl. apply IH.
    unfold digitVal. lia. }
  apply H. lia.
Qed.

Lemma pushCur_numbered st :
  Forall numbered (s_blocks st) ->
  (forall c, s_cur st = Some c -> numbered c) ->
  Forall numbered (s_blocks (pushCur st)).
Proof.
  intros Hb Hc. unfold pushCur. destruct (s_cur st) as [c|]; [|done]. simpl.
  destruct (popBlank (b_lines c)); [done|].
  apply Forall_app. split; [done|]. apply Forall_singleton.
  exact (Hc c eq_refl).
Qed.

Lemma segStep_numbered st ln :
  Forall numbered (s_blocks st) ->
  (forall c, s_cur st = Some c -> numbered c) ->
  Forall numbered (s_blocks (segStep st ln))
  /\ (forall c, s_cur (segStep st ln) = Some c -> numbered c).
Proof.
  intros Hb Hc. unfold segStep. destruct (Q_START (l_text ln)) as [d|].
  - split.
    + simpl. by apply pushCur_numbered.
    + simpl. intros c Hcur. injection Hcur as <-. unfold numbered. simpl.
      eauto using parseInt_nonneg.
  - destruct (s_cur st) as [c|] eqn:E; [|by rewrite E].
    split; [done|]. simpl. intros c' Hcur. injection Hcur as <-.
    exact (Hc c eq_refl).
Qed.

Lemma foldl_segStep_numbered lines st :
  Forall numbered (s_blocks st) ->
  (forall c, s_cur st = Some c -> numbered c) ->
  Forall numbered (s_blocks (foldl segStep st lines))
  /\ (forall c, s_cur (foldl segStep st lines) = Some c -> numbered c).
Proof.
  revert st. induction lines as [|ln lines IH]; intros st Hb Hc; [done|].
  simpl. destruct (segStep_numbered st ln Hb Hc). by apply IH.
Qed.

(** Every block the segmenter emits carries a number. *)
Lemma segment_numbered lines : Forall numbered (segment lines).
Proof.
  unfold segment.
  destruct (foldl_segStep_numbered lines {| s_blocks := []; s_cur := None |})
    as [Hb Hc]; [done..|].
  by apply pushCur_numbered.
Qed.

Lemma declared_blocks_numbered lines n :
  (1 <= timesDeclared (blocksOf lines) n)%nat -> Forall numbered (blocksOf lines).
Proof.
  rewrite blocksOf_fallback. pose proof (segment_numbered lines) as Hs.
  unfold fallback. destruct (segment lines) as [|b bs]; [|done].
  destruct lines as [|ln lines]; [done|].
  unfold timesDeclared. rewrite filter_cons_False by done. simpl. lia.
Qed.

Lemma questionsAt_imap n (f : nat -> Block -> QuestionOut) blocks :
  (forall i b, numbered b -> q_index (f i b) = n <-> b_num b = Some n) ->
  Forall numbered blocks ->
  questionsAt n (imap f blocks) = timesDeclared blocks n.
Proof.
  unfold questionsAt, timesDeclared. revert f.
  induction blocks as [|b blocks IH]; intros f Hf Hall; [done|].
  apply Forall_cons in Hall as [Hb Hall]. rewrite imap_cons.
  destruct (decide (b_num b = Some n)) as [Hn|Hn].
  - rewrite !filter_cons_True; [|done|by apply Hf]. simpl. f_equal.
    apply IH; [|done]. intros i b'. apply Hf.
  - rewrite !filter_cons_False; [|done|by rewrite Hf].
    apply IH; [|done]. intros i b'. apply Hf.
Qed.

Lemma blockEntries_reason i b u :
  u ∈ blockEntries i b ->
  u_reason u <> DuplicateNumber /\ u_reason u <> MissingNumber.
Proof.
  unfold blockEntries. rewrite !elem_of_app.
  intros [H|[H|[H|H]]].
  - destruct (b_num b); [by apply not_elem_of_nil in H|].
    by apply list_elem_of_singleton in H as ->.
  - destruct (_ || _); [|by apply not_elem_of_nil in H].
    by apply list_elem_of_singleton in H as ->.
  - destruct (choices (classify b)) as [|c [|c' cs]];
      [by apply not_elem_of_nil in H| |by apply not_elem_of_nil in H].
    by apply list_elem_of_singleton in H as ->.
  - destruct (8 <? _)%nat; [|by apply not_elem_of_nil in H].
    by apply list_elem_of_singleton in H as ->.
Qed.

Lemma blocks_entries_reason blocks u :
  u ∈ mjoin (imap blockEntries blocks) ->
  u_reason u <> DuplicateNumber /\ u_reason u <> MissingNumber.
Proof.
  intros H. apply list_elem_of_join in H as (l & Hu & Hl).
  apply elem_of_lookup_imap in Hl as (i & b & -> & _).
  by eapply blockEntries_reason.
Qed.

Lemma auditNumbers_duplicates blocks n :
  entriesAt DuplicateNumber n (auditNumbers blocks) =
  if bool_decide (2 <= timesDeclared blocks n)%nat then 1%nat else 0%nat.
Proof.
  destruct (scanNumbers_spec blocks) as (_ & Hd & _ & Hdn).
  unfold auditNumbers. rewrite entriesAt_app.
  rewrite (entriesAt_fmap duplicateEntry DuplicateNumber) by done.
  rewrite (entriesAt_other _ _ (missingEntries _)).
  - rewrite Nat.add_0_r. apply bool_decide_ext_if, Hdn.
  - intros u Hu. unfold missingEntries in Hu.
    destruct (scanNumbers blocks).1; [by apply not_elem_of_nil in Hu|].
    by apply list_elem_of_fmap in Hu as (m & -> & _).
Qed.

(** C6: when exactly two blocks declare the number [n], exactly two
    questions have index [n], namely the questions of those two blocks, and
    the call pushes exactly one duplicate-number entry with index [n], which
    comes from the numbering audit. *)
Theorem duplicate_number_kept (wd : bool) (lines : list Line) (store : Store) (n : Z) :
  timesDeclared (blocksOf lines) n = 2%nat ->
  let r := POST wd lines store in
  questionsAt n (questionsOf r.1) = 2%nat
  /\ (forall i b, blocksOf lines !! i = Some b -> b_num b = Some n ->
        exists q, questionsOf r.1 !! i = Some q /\ q_index q = n)
  /\ entriesAt DuplicateNumber n (auditNumbers (blocksOf lines)) = 1%nat
  /\ entriesAt DuplicateNumber n (entriesOf lines) = 1%nat
  /\ r.2 = store ++ entriesOf lines.
Proof.
  intros Htwo r. subst r.
  assert (Forall numbered (blocksOf lines)) as Hnum
    by (apply (declared_blocks_numbered lines n); lia).
  split; [|split; [|split; [|split]]].
  - rewrite POST_questions, questionsAt_imap; [done| |done].
    intros i b (m & Hm & _). unfold buildQuestion, indexOf. simpl. rewrite Hm.
    split; congruence.
  - intros i b Hb Hn. exists (buildQuestion i b). split; [by apply question_at|].
    unfold buildQuestion, indexOf. simpl. by rewrite Hn.
  - rewrite auditNumbers_duplicates, Htwo. done.
  - unfold entriesOf. rewrite <- blocksOf_fallback, entriesAt_app.
    rewrite auditNumbers_duplicates, Htwo.
    rewrite entriesAt_other; [done|].
    intros u Hu. by apply blocks_entries_reason in Hu as [? _].
  - apply POST_store.
Qed.

(** The index of a question is never negative, so its decimal rendering is
    the plain digit string. *)
Lemma index_nonneg lines i b :
  blocksOf lines !! i = Some b -> 0 <= indexOf i b.
Proof.
  intros Hb. unfold indexOf. destruct (b_num b) as [n|] eqn:Hn; [|lia].
  assert (declares (blocksOf lines) n) as Hd.
  { unfold declares. apply list_elem_of_fmap. exists b. split; [done|].
    by eapply list_elem_of_lookup_2. }
  apply declares_times, declared_blocks_numbered in Hd.
  rewrite Forall_lookup in Hd. destruct (Hd i b Hb) as (m & Hm & Hpos).
  congruence.
Qed.

(** C10: the id of every question is "Q" followed by the decimal rendering
    of its index (a non-negative integer), so two blocks that declare the
    same number give two questions with the same id. *)
Theorem id_from_index (wd : bool) (lines : list Line) (store : Store) :
  let qs := questionsOf (POST wd lines store).1 in
  (forall q, q ∈ qs -> 0 <= q_index q /\ q_id q = lit "Q" ++ decimal (q_index q))
  /\ (forall i j bi bj n,
        i <> j ->
        blocksOf lines !! i = Some bi -> blocksOf lines !! j = Some bj ->
        b_num bi = Some n -> b_num bj = Some n ->
        exists qi qj,
          qs !! i = Some qi /\ qs !! j = Some qj
          /\ q_index qi = n /\ q_index qj = n
          /\ q_id qi = lit "Q" ++ decimal n /\ q_id qj = q_id qi).
Proof.
  intros qs. split.
  - intros q H. apply question_from in H as (i & b & Hb & ->).
    split; [by eapply index_nonneg|done].
  - intros i j bi bj n _ Hi Hj Hni Hnj.
    exists (buildQuestion i bi), (buildQuestion j bj).
    split; [by apply question_at|]. split; [by apply question_at|].
    unfold buildQuestion, indexOf. simpl. rewrite Hni, Hnj. done.
Qed.

(** ** The classifier on the first line of a block *)

(** C1, as the code has it: on the first line of a block the choice pattern
    is tried first, then the answer pattern, and only a line that matches
    neither goes to the stem, with its numbering prefix stripped from the
    markup.  A line that matched the numbering pattern, as the first line of
    every block the segmenter opens does, matches neither. *)
Theorem first_line_dispatch (n : option Z) (ln : Line) (rest : list Line) :
  let t := trim (l_text ln) in
  let first := classifyLine 0 ln clsInit in
  let toStem :=
    {| stemParts := [stripNumberPrefix (l_html ln)]; choices := [];
       currentChoice := None; answer := None |} in
  classify {| b_num := n; b_lines := ln :: rest |} = classifyFrom 1 rest first
  /\ (forall k body, CHOICE t = Some (k, body) ->
        first =
        {| stemParts := [];
           choices := [{| c_key := [toUpperCase k];
                          c_text := cleanChoiceHtml (stripLetterPrefix (l_html ln)) |}];
           currentChoice := Some 0%nat; answer := None |})
  /\ (forall body, CHOICE t = None -> ANSWER t = Some body ->
        first =
        {| stemParts := []; choices := []; currentChoice := None;
           answer := Some (normalizeAnswer body) |})
  /\ (CHOICE t = None -> ANSWER t = None -> first = toStem)
  /\ (forall d, Q_START (l_text ln) = Some d -> first = toStem).
Proof.
  intros t first toStem. subst t first toStem. split; [done|].
  unfold classifyLine. split; [|split; [|split]].
  - intros k body ->. done.
  - intros body -> ->. done.
  - intros -> ->. done.
  - intros d Hd. destruct (numbered_neither _ _ Hd) as [-> ->]. done.
Qed.

(** ** The store across calls *)

(** C2, evaluated on the code: the diagnostics of a call are the store the
    call found followed by its own entries, so a second call on the same
    lines answers with the entries of the first call as well.  A single line
    without a number already gives the first call an entry. *)
Theorem unparsed_accumulates_across_calls (lines : list Line) (store : Store) :
  let r1 := POST true lines store in
  let r2 := POST true lines r1.2 in
  diagnosticsOf r1.1 = Some (store ++ entriesOf lines)
  /\ diagnosticsOf r2.1 = Some ((store ++ entriesOf lines) ++ entriesOf lines)
  /\ questionsOf r2.1 = questionsOf r1.1
  /\ (unparsedCount <$> statsOf r1.1) = Some (length store + length (entriesOf lines))%nat
  /\ (unparsedCount <$> statsOf r2.1) =
     Some (length store + 2 * length (entriesOf lines))%nat
  /\ (exists e es, entriesOf untitled = e :: es /\ u_reason e = NoNumber).
Proof.
  intros r1 r2. subst r1 r2. rewrite !POST_unfold. simpl. repeat split.
  - by rewrite length_app.
  - rewrite !length_app. f_equal. lia.
  - eexists _, _. split; [reflexivity|done].
Qed.

(** ** Lines that differ on answer lines only *)

Lemma sameUpToAnswer_Q_START l1 l2 :
  sameUpToAnswer l1 l2 -> Q_START (l_text l1) = Q_START (l_text l2).
Proof.
  intros [->|[[b1 H1] [b2 H2]]]; [done|].
  apply answer_line_facts in H1 as (-> & _), H2 as (-> & _). done.
Qed.

Lemma sameUpToAnswer_isBlank l1 l2 :
  sameUpToAnswer l1 l2 -> isBlank l1 = isBlank l2.
Proof.
  intros [->|[[b1 H1] [b2 H2]]]; [done|].
  apply answer_line_facts in H1 as (_ & _ & H1), H2 as (_ & _ & H2).
  unfold isBlank. by rewrite !bool_decide_eq_false_2.
Qed.

Lemma classifyLine_visible j ln st1 st2 :
  visible st1 = visible st2 ->
  visible (classifyLine j ln st1) = visible (classifyLine j ln st2).
Proof.
  destruct st1 as [s1 c1 k1 a1], st2 as [s2 c2 k2 a2]. unfold visible. simpl.
  intros [= -> -> ->]. unfold classifyLine. simpl.
  destruct (CHOICE _) as [[k body]|]; [done|].
  destruct (ANSWER _); [done|]. destruct j; [done|]. by destruct k2.
Qed.

Lemma classifyLine_answer j ln st body :
  ANSWER (trim (l_text ln)) = Some body ->
  visible (classifyLine j ln st) = (stemParts st, choices st, None).
Proof.
  intros H. unfold classifyLine.
  destruct (answer_line_facts _ _ H) as (_ & -> & _). by rewrite H.
Qed.

Lemma classifyLine_same j l1 l2 st1 st2 :
  sameUpToAnswer l1 l2 -> visible st1 = visible st2 ->
  visible (classifyLine j l1 st1) = visible (classifyLine j l2 st2).
Proof.
  intros [->|[[b1 H1] [b2 H2]]] Hv; [by apply classifyLine_visible|].
  rewrite (classifyLine_answer _ _ _ _ H1), (classifyLine_answer _ _ _ _ H2).
  unfold visible in Hv. by injection Hv as -> -> _.
Qed.

Lemma classifyFrom_same ls1 ls2 :
  Forall2 sameUpToAnswer ls1 ls2 ->
  forall j st1 st2, visible st1 = visible st2 ->
  visible (classifyFrom j ls1 st1) = visible (classifyFrom j ls2 st2).
Proof.
  induction 1 as [|l1 l2 ls1 ls2 Hl _ IH]; intros j st1 st2 Hv; [done|].
  simpl. apply IH. by apply classifyLine_same.
Qed.

Lemma classify_same b1 b2 :
  sameBlockUpToAnswer b1 b2 -> visible (classify b1) = visible (classify b2).
Proof. intros [_ H]. unfold classify. by apply classifyFrom_same. Qed.

Lemma buildQuestion_same i b1 b2 :
  sameBlockUpToAnswer b1 b2 -> buildQuestion i b1 = buildQuestion i b2.
Proof.
  intros H. pose proof (classify_same _ _ H) as Hv. destruct H as [Hn _].
  unfold buildQuestion, stemHTML, indexOf. rewrite Hn.
  unfold visible in Hv. by injection Hv as -> -> _.
Qed.

Lemma blockEntries_same i b1 b2 :
  sameBlockUpToAnswer b1 b2 ->
  Forall2 sameButSample (blockEntries i b1) (blockEntries i b2).
Proof.
  intros H. pose proof (classify_same _ _ H) as Hv. destruct H as [Hn _].
  unfold blockEntries, stemHTML, indexOf. rewrite Hn.
  unfold visible in Hv. injection Hv as -> -> _.
  repeat apply Forall2_app.
  - destruct (b_num b2); [constructor|]. constructor; [|constructor]. by repeat split.
  - destruct (_ || _); [|constructor]. constructor; [|constructor]. by repeat split.
  - destruct (choices (classify b2)) as [|c [|c' cs]]; try constructor; [|constructor].
    by repeat split.
  - destruct (8 <? _)%nat; [|constructor]. constructor; [|constructor]. by repeat split.
Qed.

(** Closes a [Forall2] goal over explicit lists whose pairs are at hand. *)
Ltac pairwise :=
  repeat first
    [ done
    | lazymatch goal with
      | |- Forall2 _ [] [] => constructor 1
      | |- Forall2 _ (_ :: _) (_ :: _) => constructor 2
      | |- Forall2 _ (_ ++ _) (_ ++ _) => apply Forall2_app
      | |- option_Forall2 _ _ _ => constructor
      | |- sameBlockUpToAnswer _ _ => split; simpl
      end ].

Lemma popBlank_same ls1 ls2 :
  Forall2 sameUpToAnswer ls1 ls2 ->
  Forall2 sameUpToAnswer (popBlank ls1) (popBlank ls2).
Proof.
  induction 1 as [|l1 l2 ls1 ls2 Hl _ IH]; [constructor|]. simpl.
  rewrite (sameUpToAnswer_isBlank _ _ Hl).
  destruct IH as [|k1 k2 r1 r2 Hk Hr].
  - destruct (isBlank l2); pairwise.
  - pairwise.
Qed.

Lemma pushCur_same st1 st2 :
  sameSegState st1 st2 -> sameSegState (pushCur st1) (pushCur st2).
Proof.
  intros [Hb Hc]. unfold pushCur.
  destruct (s_cur st1) as [c1|] eqn:E1, (s_cur st2) as [c2|] eqn:E2;
    inversion Hc as [? ? [Hn Hl]|]; subst.
  - split; [|constructor]. simpl.
    destruct (popBlank_same _ _ Hl) as [|k1 k2 r1 r2 Hk Hr]; [done|].
    pairwise.
  - split; [done|]. rewrite E1, E2. constructor.
Qed.

Lemma segStep_same st1 st2 l1 l2 :
  sameSegState st1 st2 -> sameUpToAnswer l1 l2 ->
  sameSegState (segStep st1 l1) (segStep st2 l2).
Proof.
  intros Hst Hl. unfold segStep. rewrite (sameUpToAnswer_Q_START _ _ Hl).
  destruct (Q_START (l_text l2)) as [d|].
  - split; simpl; [by apply pushCur_same|]. pairwise.
  - pose proof Hst as [Hb Hc].
    destruct (s_cur st1) as [c1|] eqn:E1, (s_cur st2) as [c2|] eqn:E2;
      inversion Hc as [? ? [Hn Hls]|]; subst; [|done].
    split; [done|]. simpl. pairwise.
Qed.

Lemma foldl_segStep_same ls1 ls2 :
  Forall2 sameUpToAnswer ls1 ls2 ->
  forall st1 st2, sameSegState st1 st2 ->
  sameSegState (foldl segStep st1 ls1) (foldl segStep st2 ls2).
Proof.
  induction 1 as [|l1 l2 ls1 ls2 Hl _ IH]; intros st1 st2 Hst; [done|].
  simpl. apply IH. by apply segStep_same.
Qed.

Lemma segment_same ls1 ls2 :
  Forall2 sameUpToAnswer ls1 ls2 ->
  Forall2 sameBlockUpToAnswer (segment ls1) (segment ls2).
Proof.
  intros H. unfold segment.
  apply pushCur_same, foldl_segStep_same; [done|]. split; constructor.
Qed.

Lemma fallback_same ls1 ls2 bs1 bs2 :
  Forall2 sameUpToAnswer ls1 ls2 -> Forall2 sameBlockUpToAnswer bs1 bs2 ->
  Forall2 sameBlockUpToAnswer (fallback ls1 bs1) (fallback ls2 bs2).
Proof.
  intros Hl Hb. unfold fallback.
  destruct Hb; [|pairwise]. destruct Hl; pairwise.
Qed.

Lemma blocksOf_same ls1 ls2 :
  Forall2 sameUpToAnswer ls1 ls2 ->
  Forall2 sameBlockUpToAnswer (blocksOf ls1) (blocksOf ls2).
Proof.
  intros H. unfold blocksOf.
  apply fallback_same; [done|]. apply fallback_same; [done|]. by apply segment_same.
Qed.

Lemma scanNumbers_same bs1 bs2 :
  Forall2 sameBlockUpToAnswer bs1 bs2 -> scanNumbers bs1 = scanNumbers bs2.
Proof.
  unfold scanNumbers. generalize (@nil Z, @nil Z).
  intros pd H. revert pd.
  induction H as [|b1 b2 bs1 bs2 [Hn _] _ IH]; intros pd; [done|].
  simpl. unfold scanStep at 2 4. rewrite Hn. apply IH.
Qed.

Lemma auditNumbers_same bs1 bs2 :
  Forall2 sameBlockUpToAnswer bs1 bs2 -> auditNumbers bs1 = auditNumbers bs2.
Proof. intros H. unfold auditNumbers. by rewrite (scanNumbers_same _ _ H). Qed.

Lemma questions_same bs1 bs2 :
  Forall2 sameBlockUpToAnswer bs1 bs2 ->
  imap buildQuestion bs1 = imap buildQuestion bs2.
Proof.
  intros H. apply list_eq. intros i. rewrite !list_lookup_imap.
  rewrite Forall2_lookup in H. destruct (H i) as [b1 b2 Hb|]; [|done].
  simpl. f_equal. by apply buildQuestion_same.
Qed.

Lemma blocks_entries_same bs1 bs2 :
  Forall2 sameBlockUpToAnswer bs1 bs2 ->
  Forall2 sameButSample (mjoin (imap blockEntries bs1)) (mjoin (imap blockEntries bs2)).
Proof.
  intros H. apply Forall2_join, Forall2_lookup. intros i.
  rewrite !list_lookup_imap. rewrite Forall2_lookup in H.
  destruct (H i) as [b1 b2 Hb|]; constructor. by apply blockEntries_same.
Qed.

Lemma sameButSample_refl es : Forall2 sameButSample es es.
Proof. apply Forall_Forall2_diag, Forall_forall. intros u _. by repeat split. Qed.

Lemma entriesOf_same ls1 ls2 :
  Forall2 sameUpToAnswer ls1 ls2 ->
  Forall2 sameButSample (entriesOf ls1) (entriesOf ls2).
Proof.
  intros H. unfold entriesOf. apply Forall2_app.
  - rewrite (auditNumbers_same _ (fallback ls2 (segment ls2))).
    + apply sameButSample_refl.
    + by apply fallback_same, segment_same.
  - by apply blocks_entries_same, blocksOf_same.
Qed.

(** C9, as the code has it: two line sequences that differ on answer lines
    only give the same question list and the same stats, and diagnostics that
    agree entry by entry on index, reason and note; the samples of no-number
    and empty-stem entries quote the text of the lines and may differ. *)
Theorem answer_text_reaches_samples_only (wd : bool) (lines1 lines2 : list Line)
    (store : Store) :
  Forall2 sameUpToAnswer lines1 lines2 ->
  let r1 := POST wd lines1 store in
  let r2 := POST wd lines2 store in
  questionsOf r1.1 = questionsOf r2.1
  /\ statsOf r1.1 = statsOf r2.1
  /\ Forall2 sameButSample r1.2 r2.2
  /\ option_Forall2 (Forall2 sameButSample) (diagnosticsOf r1.1) (diagnosticsOf r2.1).
Proof.
  intros H r1 r2. subst r1 r2.
  pose proof (questions_same _ _ (blocksOf_same _ _ H)) as Hq.
  pose proof (entriesOf_same _ _ H) as He.
  assert (Forall2 sameButSample (store ++ entriesOf lines1) (store ++ entriesOf lines2))
    as Hs by (apply Forall2_app; [apply sameButSample_refl|done]).
  split; [by rewrite !POST_questions|]. rewrite !POST_unfold.
  split; [|split; [done|]].
  - destruct wd; simpl; [|done]. f_equal.
    rewrite Hq, !length_imap.
    rewrite (Forall2_length _ _ _ (blocksOf_same _ _ H)).
    by rewrite (Forall2_length _ _ _ Hs).
  - destruct wd; simpl; by constructor.
Qed.

(** ** More on the matchers *)

(** A successful [p*] splits the input into a run of [p] and a rest on which
    the continuation succeeds. *)
Lemma starC_Some {R} p acc (k : str -> str -> option R) s r :
  starC p acc k s = Some r ->
  exists w s', s = w ++ s' /\ forallb p w = true /\ k (acc ++ w) s' = Some r.
Proof.
  assert (forall a t, k a t = Some r ->
            exists w s', t = w ++ s' /\ forallb p w = true /\ k (a ++ w) s' = Some r)
    as Hstop.
  { intros a t H. exists [], t. by rewrite app_nil_r. }
  revert acc. induction s as [|c s IH]; intros acc; simpl; [apply Hstop|].
  destruct (p c) eqn:Hc; [|apply Hstop].
  destruct (starC p (acc ++ [c]) k s) as [y|] eqn:E; [|apply Hstop].
  intros [= <-]. apply IH in E as (w & s' & -> & Hw & Hk).
  exists (c :: w), s'. simpl. rewrite Hc, Hw.
  by rewrite <- app_assoc in Hk.
Qed.

Lemma uptoC_Some {R} n p acc (k : str -> str -> option R) s r :
  uptoC n p acc k s = Some r ->
  exists w s', s = w ++ s' /\ forallb p w = true /\ (length w <= n)%nat
    /\ k (acc ++ w) s' = Some r.
Proof.
  assert (forall m a t, k a t = Some r ->
            exists w s', t = w ++ s' /\ forallb p w = true /\ (length w <= m)%nat
              /\ k (a ++ w) s' = Some r) as Hstop.
  { intros m a t H. exists [], t. rewrite app_nil_r. simpl.
    split; [done|]. split; [done|]. split; [lia|done]. }
  revert acc s. induction n as [|n IH]; intros acc s.
  - simpl. intros H. apply Hstop. by destruct s.
  - destruct s as [|c s]; simpl; [apply Hstop|].
    destruct (p c) eqn:Hc; [|apply Hstop].
    destruct (uptoC n p (acc ++ [c]) k s) as [y|] eqn:E; [|apply Hstop].
    intros [= <-]. apply IH in E as (w & s' & -> & Hw & Hlen & Hk).
    exists (c :: w), s'. simpl. rewrite Hc, Hw.
    rewrite <- app_assoc in Hk. split; [done|]. split; [done|]. split; [lia|done].
Qed.

Lemma chr_Some {R} p (k : char -> str -> option R) s r :
  chr p k s = Some r -> exists c s', s = c :: s' /\ p c = true /\ k c s' = Some r.
Proof.
  destruct s as [|c s]; simpl; [done|]. destruct (p c) eqn:Hc; [|done]. eauto.
Qed.

(** What [numberPrefix] hands to its continuation: one to three digits, and
    a rest that is a suffix of the input and does not start with whitespace
    when the continuation accepts everything. *)
Lemma numberPrefix_Some {R} (k : str -> str -> option R) s r :
  numberPrefix k s = Some r ->
  exists pre d rest,
    s = pre ++ rest /\ k d rest = Some r
    /\ forallb is_digit d = true /\ (1 <= length d <= 3)%nat.
Proof.
  unfold numberPrefix, star, rep13C, plus, plusC. intros H.
  apply starC_Some in H as (w1 & s1 & -> & _ & H).
  apply chr_Some in H as (c & s2 & -> & Hc & H).
  apply uptoC_Some in H as (w2 & s3 & -> & Hw2 & Hlen & H).
  apply starC_Some in H as (w3 & s4 & -> & _ & H).
  apply chr_Some in H as (c4 & s5 & -> & _ & H).
  apply chr_Some in H as (c5 & s6 & -> & _ & H).
  apply starC_Some in H as (w6 & s7 & -> & _ & H).
  exists (w1 ++ c :: w2 ++ w3 ++ c4 :: c5 :: w6), ([c] ++ w2), s7.
  split; [by rewrite <- !app_assoc; simpl; rewrite <- !app_assoc|].
  split; [done|]. simpl. rewrite Hc, Hw2. split; [done|lia].
Qed.

Lemma Q_START_digits s d :
  Q_START s = Some d -> forallb is_digit d = true /\ (1 <= length d <= 3)%nat.
Proof.
  intros H. apply numberPrefix_Some in H as (pre & d' & rest & _ & [= <-] & Hd).
  done.
Qed.

Lemma digitVal_range c : is_digit c = true -> 0 <= digitVal c <= 9.
Proof.
  unfold is_digit, digitVal. rewrite inRange_spec. lia.
Qed.

(** A number of one to three digits. *)
Lemma parseInt_range d :
  forallb is_digit d = true -> (1 <= length d <= 3)%nat -> 0 <= parseInt d <= 999.
Proof.
  intros Hd Hlen. unfold parseInt.
  destruct d as [|a [|b [|c [|e d]]]]; simpl in Hlen; try lia; simpl in Hd;
    repeat (apply andb_prop in Hd as [?%digitVal_range Hd]); simpl; lia.
Qed.

(** ** More on the segmenter *)

Lemma popBlank_prefix ls :
  exists w, ls = popBlank ls ++ w /\ Forall (fun l => isBlank l = true) w.
Proof.
  induction ls as [|ln ls (w & Hw & Hall)]; [by exists []|]. simpl.
  destruct (popBlank ls) as [|k kept] eqn:E.
  - simpl in Hw. subst w. destruct (isBlank ln) eqn:Hb.
    + exists (ln :: ls). split; [done|]. by constructor.
    + by exists ls.
  - exists w. split; [|done]. rewrite Hw at 1. done.
Qed.

Lemma popBlank_last ls l : last (popBlank ls) = Some l -> isBlank l = false.
Proof.
  revert l. induction ls as [|ln ls IH]; intros l; [done|]. simpl.
  destruct (popBlank ls) as [|k kept] eqn:E.
  - destruct (isBlank ln) eqn:Hb; [done|]. by intros [= <-].
  - rewrite last_cons_cons. apply IH.
Qed.

Lemma popBlank_cons ln ls :
  isBlank ln = false -> popBlank (ln :: ls) = ln :: popBlank ls.
Proof. intros H. simpl. rewrite H. by destruct (popBlank ls). Qed.

Lemma startsBlock_not_blank ln d :
  Q_START (l_text ln) = Some d -> isBlank ln = false.
Proof.
  intros H. destruct (Q_START_head _ _ H) as (c & r & Hd & Hc).
  unfold isBlank, trim, trimStart. rewrite Hd.
  destruct (trimEnd_cons_keep c r (digit_not_ws _ Hc)) as (r' & ->).
  by apply bool_decide_eq_false.
Qed.

Lemma popBlank_opened c :
  opened c ->
  exists ln kept w,
    b_lines c = ln :: kept ++ w /\ popBlank (b_lines c) = ln :: kept
    /\ opened {| b_num := b_num c; b_lines := ln :: kept |}.
Proof.
  intros (ln & rest & d & Hl & Hq & Hn & Hrest).
  destruct (popBlank_prefix rest) as (w & Hw & _).
  exists ln, (popBlank rest), w. rewrite Hl.
  split; [by rewrite <- Hw|].
  split; [apply popBlank_cons; by eapply startsBlock_not_blank|].
  exists ln, (popBlank rest), d. repeat split; try done. simpl.
  rewrite Hw in Hrest. by apply Forall_app in Hrest as [? _].
Qed.

Lemma pushCur_inv st : segInv st -> segInv (pushCur st).
Proof.
  intros [Hb Hc]. unfold pushCur.
  destruct (s_cur st) as [c|] eqn:E; [|split; [done|by rewrite E]].
  destruct (popBlank_opened c (Hc c eq_refl)) as (ln & kept & w & _ & Hp & Ho).
  split; [|done]. simpl. rewrite Hp. apply Forall_app. split; [done|].
  apply Forall_singleton. split; [done|]. simpl. rewrite <- Hp. apply popBlank_last.
Qed.

Lemma segStep_inv st ln : segInv st -> segInv (segStep st ln).
Proof.
  intros Hst. unfold segStep. destruct (Q_START (l_text ln)) as [d|] eqn:Hq.
  - split; [apply (pushCur_inv st Hst)|]. simpl. intros c [= <-].
    exists ln, [], d. by repeat split.
  - destruct Hst as [Hb Hc].
    destruct (s_cur st) as [c|] eqn:E; [|split; [done|by rewrite E]].
    split; [done|]. simpl. intros c' [= <-].
    destruct (Hc c eq_refl) as (l0 & rest & d & Hl & Hq0 & Hn & Hrest).
    exists l0, (rest ++ [ln]), d. simpl. rewrite Hl. repeat split; try done.
    apply Forall_app. split; [done|]. apply Forall_singleton.
    unfold startsBlock. rewrite Hq. by intros [? ?].
Qed.

Lemma foldl_segStep_inv lines st : segInv st -> segInv (foldl segStep st lines).
Proof.
  revert st. induction lines as [|ln lines IH]; intros st Hst; [done|].
  simpl. by apply IH, segStep_inv.
Qed.

Lemma segInv_init : segInv {| s_blocks := []; s_cur := None |}.
Proof. by split. Qed.

(** X1: every block the segmenter emits starts with a line that matches
    [Q_START], carries the number written on that line, a number between 0
    and 999, contains no other line that matches [Q_START], and does not end
    in a blank line. *)
Theorem segment_blocks_opened (lines : list Line) (b : Block) :
  b ∈ segment lines ->
  opened b
  /\ (exists n, b_num b = Some n /\ 0 <= n <= 999)
  /\ (forall l, last (b_lines b) = Some l -> isBlank l = false).
Proof.
  intros Hb. pose proof (pushCur_inv _ (foldl_segStep_inv lines _ segInv_init)) as [Hall _].
  rewrite Forall_forall in Hall. destruct (Hall b Hb) as [Ho Hlast].
  split; [done|]. split; [|done].
  destruct Ho as (ln & rest & d & _ & Hq & Hn & _).
  exists (parseInt d). split; [done|].
  apply Q_START_digits in Hq as [Hd Hlen]. by apply parseInt_range.
Qed.

(** The segmenter started with some blocks already emitted. *)
Lemma pushCur_afterBlocks before st :
  pushCur (afterBlocks before st) = afterBlocks before (pushCur st).
Proof.
  unfold pushCur, afterBlocks. simpl. destruct (s_cur st) as [c|] eqn:E; [|by rewrite E].
  simpl. f_equal. destruct (popBlank (b_lines c)); [done|]. by rewrite app_assoc.
Qed.

Lemma segStep_afterBlocks before st ln :
  segStep (afterBlocks before st) ln = afterBlocks before (segStep st ln).
Proof.
  unfold segStep. destruct (Q_START (l_text ln)) as [d|].
  - rewrite pushCur_afterBlocks. done.
  - unfold afterBlocks. simpl. destruct (s_cur st) as [c|] eqn:E; [done|].
    simpl. by rewrite E.
Qed.

Lemma foldl_segStep_afterBlocks before lines st :
  foldl segStep (afterBlocks before st) lines
  = afterBlocks before (foldl segStep st lines).
Proof.
  revert st. induction lines as [|ln lines IH]; intros st; [done|].
  simpl. by rewrite segStep_afterBlocks, IH.
Qed.

Lemma foldl_segStep_preamble pre :
  Forall (fun l => ~ startsBlock l) pre ->
  foldl segStep {| s_blocks := []; s_cur := None |} pre
  = {| s_blocks := []; s_cur := None |}.
Proof.
  induction 1 as [|ln pre Hln _ IH]; [done|]. simpl. unfold segStep at 2.
  destruct (Q_START (l_text ln)) as [d|] eqn:Hq; [|done].
  destruct Hln. unfold startsBlock. rewrite Hq. by eexists.
Qed.

(** X2: the lines before the first line that matches [Q_START] are
    dropped: they change nothing in what the segmenter emits, and a document
    in which no line matches gives no block at all. *)
Theorem segment_drops_preamble (pre rest : list Line) :
  Forall (fun l => ~ startsBlock l) pre ->
  segment (pre ++ rest) = segment rest /\ segment pre = [].
Proof.
  intros H. unfold segment. rewrite foldl_app, !foldl_segStep_preamble by done.
  done.
Qed.

(** X3: the segmenter works block by block: cutting the document in front of
    a line that matches [Q_START] and segmenting the two parts gives the same
    blocks. *)
Theorem segment_app (lines1 : list Line) (ln : Line) (lines2 : list Line) :
  startsBlock ln ->
  segment (lines1 ++ ln :: lines2) = segment lines1 ++ segment (ln :: lines2).
Proof.
  intros [d Hd]. unfold segment. rewrite foldl_app. simpl.
  set (st1 := foldl segStep {| s_blocks := []; s_cur := None |} lines1).
  assert (segStep st1 ln
          = afterBlocks (s_blocks (pushCur st1))
              (segStep {| s_blocks := []; s_cur := None |} ln)) as ->.
  { unfold segStep. rewrite Hd. unfold afterBlocks. simpl. by rewrite app_nil_r. }
  by rewrite foldl_segStep_afterBlocks, pushCur_afterBlocks.
Qed.

Lemma pushCur_length st :
  segInv st ->
  length (s_blocks (pushCur st))
  = (length (s_blocks st) + length (option_list (s_cur st)))%nat.
Proof.
  intros [_ Hc]. unfold pushCur. destruct (s_cur st) as [c|] eqn:E.
  - destruct (popBlank_opened c (Hc c eq_refl)) as (ln & kept & w & _ & Hp & _).
    simpl. rewrite Hp, length_app. done.
  - simpl. lia.
Qed.

Lemma foldl_segStep_length lines st :
  segInv st ->
  length (s_blocks (pushCur (foldl segStep st lines)))
  = (length (s_blocks st) + length (option_list (s_cur st))
     + length (filter startsBlock lines))%nat.
Proof.
  revert st. induction lines as [|ln lines IH]; intros st Hst.
  - rewrite filter_nil. simpl. rewrite pushCur_length by done. lia.
  - simpl. rewrite IH by (by apply segStep_inv). unfold segStep.
    destruct (Q_START (l_text ln)) as [d|] eqn:Hq.
    + rewrite filter_cons_True by (unfold startsBlock; rewrite Hq; eauto).
      simpl. rewrite pushCur_length by done. lia.
    + rewrite filter_cons_False by (unfold startsBlock; rewrite Hq; by intros [? ?]).
      destruct (s_cur st) as [c|] eqn:E; simpl; rewrite ?E; simpl; lia.
Qed.

Lemma segment_length lines :
  length (segment lines) = length (filter startsBlock lines).
Proof.
  unfold segment. rewrite foldl_segStep_length by apply segInv_init. done.
Qed.

(** X4: the segmenter emits exactly one block for every line that matches
    [Q_START], whatever lies between those lines. *)
Theorem one_block_per_numbered_line (lines : list Line) :
  length (segment lines) = length (filter startsBlock lines)
  /\ (segment lines = [] <-> Forall (fun l => ~ startsBlock l) lines).
Proof.
  split; [apply segment_length|]. rewrite <- length_zero_iff_nil, segment_length.
  rewrite length_zero_iff_nil. split.
  - intros H. apply Forall_forall. intros l Hl Hs.
    assert (l ∈ filter startsBlock lines) as Hin by (by apply list_elem_of_filter).
    rewrite H in Hin. by apply not_elem_of_nil in Hin.
  - intros H. induction H as [|l ls Hl _ IH]; [done|]. by rewrite filter_cons_False.
Qed.

Lemma pushCur_lines st :
  exists w,
    mjoin (b_lines <$> s_blocks st) ++ pendingLines st
    = mjoin (b_lines <$> s_blocks (pushCur st)) ++ w.
Proof.
  unfold pushCur, pendingLines. destruct (s_cur st) as [c|] eqn:E.
  - destruct (popBlank_prefix (b_lines c)) as (w & Hw & _). simpl.
    destruct (popBlank (b_lines c)) as [|k kept] eqn:Hp.
    + exists w. by rewrite Hw.
    + exists w. rewrite fmap_app, join_app. simpl. rewrite app_nil_r, <- app_assoc.
      by rewrite <- Hw.
  - exists []. done.
Qed.

Lemma foldl_segStep_sublist lines st seen :
  mjoin (b_lines <$> s_blocks st) ++ pendingLines st `sublist_of` seen ->
  mjoin (b_lines <$> s_blocks (pushCur (foldl segStep st lines)))
    `sublist_of` seen ++ lines.
Proof.
  revert st seen. induction lines as [|ln lines IH]; intros st seen Hsub.
  - rewrite app_nil_r. destruct (pushCur_lines st) as (w & Hw).
    rewrite Hw in Hsub. etrans; [|done]. by apply sublist_inserts_r.
  - simpl. replace (seen ++ ln :: lines) with ((seen ++ [ln]) ++ lines)
      by (by rewrite <- app_assoc).
    apply IH. unfold segStep. destruct (Q_START (l_text ln)) as [d|].
    + unfold pendingLines. simpl. apply sublist_app; [|done].
      destruct (pushCur_lines st) as (w & Hw). rewrite Hw in Hsub.
      etrans; [|done]. by apply sublist_inserts_r.
    + unfold pendingLines in *. destruct (s_cur st) as [c|] eqn:E; simpl.
      * rewrite app_assoc. by apply sublist_app.
      * rewrite E. by apply sublist_inserts_r.
Qed.

(** X5: the lines of the emitted blocks, taken block after block, are lines
    of the document in document order: the segmenter drops lines (the
    preamble, trailing blank lines) but never repeats, reorders or invents
    one. *)
Theorem segment_keeps_order (lines : list Line) :
  mjoin (b_lines <$> segment lines) `sublist_of` lines.
Proof.
  unfold segment. apply (foldl_segStep_sublist lines _ []). simpl. done.
Qed.

(** ** Whole documents *)

(** The entries of a block apart from the no-number entry all carry the
    index of the block's question. *)
Lemma blockEntries_shape i b :
  exists rest,
    blockEntries i b
    = match b_num b with
      | Some _ => []
      | None =>
          [{| u_index := None; u_reason := NoNumber;
              u_sample := Some (slice0 120 (default [] (l_text <$> head (b_lines b))));
              u_note := None |}]
      end ++ rest
    /\ (length rest <= 2)%nat
    /\ Forall (fun u => u_index u = Some (indexOf i b) /\ u_reason u <> NoNumber) rest.
Proof.
  unfold blockEntries. eexists. split; [reflexivity|]. split.
  - rewrite !length_app.
    destruct (_ || _); destruct (choices (classify b)) as [|c [|c' cs]];
      simpl; try lia; destruct (8 <? _)%nat; simpl; lia.
  - apply Forall_app. split; [|apply Forall_app; split].
    + destruct (_ || _); [|constructor]. constructor; [done|constructor].
    + destruct (choices (classify b)) as [|c [|c' cs]]; try constructor;
        [done|constructor].
    + destruct (8 <? _)%nat; [|constructor]. constructor; [done|constructor].
Qed.

(** X6: the handler answers with an empty question list exactly when it is
    given no line; on no line it also leaves [unparsed] as it found it. *)
Theorem no_lines_no_questions (wd : bool) (lines : list Line) (store : Store) :
  (questionsOf (POST wd lines store).1 = [] <-> lines = [])
  /\ (lines = [] -> (POST wd lines store).2 = store).
Proof.
  rewrite POST_questions, POST_store. split; [split|].
  - intros H. destruct lines as [|ln lines]; [done|].
    assert (blocksOf (ln :: lines) <> []) as Hne by (by apply blocksOf_nonempty).
    destruct (blocksOf (ln :: lines)); done.
  - intros ->. done.
  - intros ->. apply app_nil_r.
Qed.

(** X7: a document in which no line matches [Q_START] becomes a single
    question with index 1 and id "Q1"; the call's entries start with one
    no-number entry that quotes the first 120 code units of the first line,
    and the remaining entries carry index 1. *)
Theorem unnumbered_document (wd : bool) (lines : list Line) (store : Store) :
  lines <> [] -> Forall (fun l => ~ startsBlock l) lines ->
  let b := {| b_num := None; b_lines := lines |} in
  questionsOf (POST wd lines store).1 = [buildQuestion 0 b]
  /\ q_index (buildQuestion 0 b) = 1
  /\ q_id (buildQuestion 0 b) = lit "Q1"
  /\ exists rest,
       entriesOf lines
       = {| u_index := None; u_reason := NoNumber;
            u_sample := Some (slice0 120 (default [] (l_text <$> head lines)));
            u_note := None |} :: rest
       /\ Forall (fun u => u_index u = Some 1 /\ u_reason u <> NoNumber) rest.
Proof.
  intros Hne Hall b.
  assert (blocksOf lines = [b]) as Hb.
  { rewrite blocksOf_fallback. unfold segment.
    rewrite foldl_segStep_preamble by done. simpl. by destruct lines. }
  rewrite POST_questions, Hb. split; [done|]. split; [done|]. split; [done|].
  unfold entriesOf. rewrite Hb, <- blocksOf_fallback, Hb.
  assert (auditNumbers [b] = []) as -> by reflexivity.
  change (mjoin (imap blockEntries [b])) with (blockEntries 0 b ++ []).
  destruct (blockEntries_shape 0 b) as (rest & -> & _ & Hrest).
  exists rest. rewrite app_nil_r. done.
Qed.

(** X8: in a document with at least one line that matches [Q_START] every
    question's index is a number some block declares, between 0 and 999, and
    the call pushes no no-number entry: every entry carries a number. *)
Theorem numbered_document (wd : bool) (lines : list Line) (store : Store) :
  Exists startsBlock lines ->
  blocksOf lines = segment lines
  /\ (forall q, q ∈ questionsOf (POST wd lines store).1 ->
        declares (segment lines) (q_index q) /\ 0 <= q_index q <= 999)
  /\ (forall u, u ∈ entriesOf lines ->
        u_reason u <> NoNumber /\ is_Some (u_index u)).
Proof.
  intros Hex.
  assert (segment lines <> []) as Hne.
  { intros E. apply (f_equal length) in E. rewrite segment_length in E.
    apply Exists_exists in Hex as (l & Hl & Hs).
    assert (l ∈ filter startsBlock lines) as Hin by (by apply list_elem_of_filter).
    destruct (filter startsBlock lines); [by apply not_elem_of_nil in Hin|done]. }
  assert (blocksOf lines = segment lines) as Hb.
  { rewrite blocksOf_fallback. by destruct (segment lines). }
  assert (forall i b, segment lines !! i = Some b ->
            exists n, b_num b = Some n /\ indexOf i b = n /\ 0 <= n <= 999) as Hnum.
  { intros i b Hi. apply list_elem_of_lookup_2 in Hi.
    pose proof (pushCur_inv _ (foldl_segStep_inv lines _ segInv_init)) as [Hall _].
    rewrite Forall_forall in Hall.
    destruct (Hall b Hi) as [(ln & rest & d & _ & Hq & Hn & _) _].
    exists (parseInt d). unfold indexOf. rewrite Hn. split; [done|]. split; [done|].
    apply Q_START_digits in Hq as [Hd Hlen]. by apply parseInt_range. }
  split; [done|]. split.
  - intros q Hq. apply question_from in Hq as (i & b & Hi & ->). rewrite Hb in Hi.
    destruct (Hnum i b Hi) as (n & Hn & Hidx & Hrange). simpl. rewrite Hidx.
    split; [|done]. unfold declares. apply list_elem_of_fmap. exists b.
    split; [done|]. by eapply list_elem_of_lookup_2.
  - intros u Hu. unfold entriesOf in Hu. rewrite Hb in Hu.
    apply elem_of_app in Hu as [Hu|Hu].
    + unfold auditNumbers in Hu. apply elem_of_app in Hu as [Hu|Hu].
      * apply list_elem_of_fmap in Hu as (n & -> & _). split; [done|by eexists].
      * unfold missingEntries in Hu.
        destruct (scanNumbers _).1; [by apply not_elem_of_nil in Hu|].
        apply list_elem_of_fmap in Hu as (n & -> & _). split; [done|by eexists].
    + apply list_elem_of_join in Hu as (l & Hu & Hl).
      apply elem_of_lookup_imap in Hl as (i & b & -> & Hi).
      destruct (Hnum i b Hi) as (n & Hn & _).
      destruct (blockEntries_shape i b) as (rest & Hrest & _ & Hall).
      rewrite Hn in Hrest. simpl in Hrest. rewrite Hrest in Hu.
      rewrite Forall_forall in Hall. destruct (Hall u Hu) as [Hi' Hr].
      split; [done|]. rewrite Hi'. by eexists.
Qed.


(** ** More on the classifier *)

Lemma letterPrefix_Some {R} (k : char -> str -> option R) s r :
  letterPrefix k s = Some r ->
  exists pre key rest, s = pre ++ rest /\ is_AH key = true /\ k key rest = Some r.
Proof.
  unfold letterPrefix, star, plus, plusC. intros H.
  apply starC_Some in H as (w1 & s1 & -> & _ & H).
  apply chr_Some in H as (key & s2 & -> & Hkey & H).
  apply starC_Some in H as (w3 & s4 & -> & _ & H).
  apply chr_Some in H as (c4 & s5 & -> & _ & H).
  apply chr_Some in H as (c5 & s6 & -> & _ & H).
  apply starC_Some in H as (w6 & s7 & -> & _ & H).
  exists (w1 ++ key :: w3 ++ c4 :: c5 :: w6), key, s7.
  split; [by rewrite <- !app_assoc; simpl; rewrite <- !app_assoc|]. done.
Qed.

Lemma CHOICE_key t k body : CHOICE t = Some (k, body) -> is_AH k = true.
Proof.
  unfold CHOICE. intros H.
  apply letterPrefix_Some in H as (pre & key & rest & _ & Hkey & H).
  apply starC_Some in H as (w & s' & _ & _ & H).
  destruct s'; [|done]. by injection H as <- _.
Qed.

Lemma toUpperCase_AH k : is_AH k = true -> toUpperCase k = k.
Proof.
  unfold is_AH, toUpperCase, is_lower. rewrite inRange_spec. intros H.
  destruct (inRange 97 122 k) eqn:E; [|done]. apply inRange_spec in E. lia.
Qed.

Lemma classifyLine_aliasesLast j ln st :
  aliasesLast st -> aliasesLast (classifyLine j ln st).
Proof.
  unfold aliasesLast, classifyLine. intros Hst i.
  destruct (CHOICE _) as [[k body]|]; simpl.
  - intros [= <-]. rewrite length_app. simpl. lia.
  - destruct (ANSWER _); [done|]. destruct j; [done|].
    destruct (currentChoice st) as [i0|] eqn:E; simpl; [|done].
    intros [= <-]. rewrite length_alter. by apply Hst.
Qed.

Lemma classifyLine_keys j ln st :
  c_key <$> choices (classifyLine j ln st)
  = (c_key <$> choices st) ++ option_list (keyOf ln).
Proof.
  unfold classifyLine, keyOf.
  destruct (CHOICE _) as [[k body]|] eqn:Hc; simpl.
  - rewrite fmap_app. simpl. by rewrite (toUpperCase_AH k (CHOICE_key _ _ _ Hc)).
  - rewrite app_nil_r. destruct (ANSWER _); [done|]. destruct j; [done|].
    destruct (currentChoice st); [|done]. simpl.
    rewrite (list_fmap_alter c_key _ id); [by rewrite list_alter_id|].
    by apply Forall_forall.
Qed.

Lemma classifyFrom_facts ls :
  forall j st,
    aliasesLast st ->
    aliasesLast (classifyFrom j ls st)
    /\ c_key <$> choices (classifyFrom j ls st)
       = (c_key <$> choices st) ++ omap keyOf ls.
Proof.
  induction ls as [|ln ls IH]; intros j st Hst.
  - simpl. by rewrite app_nil_r.
  - simpl. destruct (IH (S j) _ (classifyLine_aliasesLast j ln st Hst)) as [H1 H2].
    split; [done|]. rewrite H2, classifyLine_keys, <- app_assoc. f_equal.
    by destruct (keyOf ln).
Qed.

Lemma keyOf_letter ln key : keyOf ln = Some key -> exists k, key = [k] /\ is_AH k = true.
Proof.
  unfold keyOf. destruct (CHOICE _) as [[k body]|] eqn:Hc; [|done].
  intros [= <-]. exists k. split; [done|]. by eapply CHOICE_key.
Qed.

Lemma omap_keyOf_length ls :
  length (omap keyOf ls) = length (filter isChoiceLine ls).
Proof.
  induction ls as [|ln ls IH]; [done|].
  change (omap keyOf (ln :: ls))
    with (match keyOf ln with Some y => y :: omap keyOf ls | None => omap keyOf ls end).
  unfold keyOf at 1. destruct (CHOICE (trim (l_text ln))) as [kb|] eqn:E.
  - rewrite filter_cons_True by (unfold isChoiceLine; rewrite E; eauto).
    simpl. by rewrite IH.
  - rewrite filter_cons_False by (unfold isChoiceLine; rewrite E; by intros [? ?]).
    done.
Qed.

(** X10: the keys of the choices of a block are the letters of its choice
    lines, in line order: every choice line gives one choice, no other line
    gives one, and every key is a single capital letter from A to H. *)
Theorem choices_follow_choice_lines (b : Block) :
  c_key <$> choices (classify b) = omap keyOf (b_lines b)
  /\ length (choices (classify b)) = length (filter isChoiceLine (b_lines b))
  /\ Forall (fun c => exists k, c_key c = [k] /\ is_AH k = true) (choices (classify b)).
Proof.
  destruct (classifyFrom_facts (b_lines b) 0 clsInit) as [_ Hkeys]; [by intros i|].
  fold (classify b) in Hkeys. simpl in Hkeys. split; [done|]. split.
  - rewrite <- (length_fmap c_key), Hkeys. apply omap_keyOf_length.
  - apply Forall_forall. intros c Hc.
    assert (c_key c ∈ omap keyOf (b_lines b)) as Hin.
    { rewrite <- Hkeys. by apply list_elem_of_fmap_2. }
    apply list_elem_of_omap in Hin as (ln & _ & Hk). by eapply keyOf_letter.
Qed.

Lemma classifyFrom_app ls1 ls2 :
  forall j st,
    classifyFrom j (ls1 ++ ls2) st
    = classifyFrom (j + length ls1) ls2 (classifyFrom j ls1 st).
Proof.
  induction ls1 as [|ln ls1 IH]; intros j st; simpl.
  - by rewrite Nat.add_0_r.
  - rewrite IH. f_equal. lia.
Qed.

(** X11: a line after the first that is neither a choice line nor an answer
    line extends the choice pushed last when a choice is current, leaving the
    stem and the other choices as they are, and goes to the stem otherwise:
    here for such a line at the end of a block, against the block without
    it. *)
Theorem continuation_extends_last_choice (n : option Z) (ls : list Line) (ln : Line) :
  ls <> [] -> ~ isChoiceLine ln -> ~ isAnswerLine ln ->
  let st := classify {| b_num := n; b_lines := ls |} in
  let st' := classify {| b_num := n; b_lines := ls ++ [ln] |} in
  (forall i, currentChoice st = Some i ->
     stemParts st' = stemParts st
     /\ exists earlier c,
          choices st = earlier ++ [c]
          /\ choices st' = earlier ++ [appendToChoice (l_html ln) c])
  /\ (currentChoice st = None ->
        choices st' = choices st /\ stemParts st' = stemParts st ++ [l_html ln]).
Proof.
  intros Hne Hc Ha st st'. subst st st'. unfold classify. simpl.
  rewrite classifyFrom_app. simpl.
  destruct (classifyFrom_facts ls 0 clsInit) as [Hlast _]; [by intros i|].
  set (st := classifyFrom 0 ls clsInit) in *.
  destruct (length ls) as [|j] eqn:Hlen; [by destruct ls|].
  unfold classifyLine.
  destruct (CHOICE _) eqn:E1; [destruct Hc; unfold isChoiceLine; rewrite E1; eauto|].
  destruct (ANSWER _) eqn:E2; [destruct Ha; unfold isAnswerLine; rewrite E2; eauto|].
  split.
  - intros i Hi. rewrite Hi. simpl. pose proof (Hlast i Hi) as Hl.
    split; [done|].
    destruct (choices st) as [|c0 cs] using rev_ind; [simpl in Hl; lia|].
    rewrite length_app in Hl. simpl in Hl.
    assert (i = length cs) as -> by lia.
    exists cs, c0. split; [done|].
    apply list_eq. intros m. destruct (decide (m = length cs)) as [->|Hm].
    + rewrite list_lookup_alter_eq, !lookup_app_r, Nat.sub_diag by lia. done.
    + rewrite list_lookup_alter_ne by done.
      destruct (decide (m < length cs)%nat).
      * by rewrite !lookup_app_l by lia.
      * rewrite !lookup_ge_None_2; [done|rewrite length_app; simpl; lia..].
  - intros Hn. rewrite Hn. done.
Qed.

Lemma classifyFrom_plain ls :
  Forall (fun l => ~ isChoiceLine l) ls ->
  forall j st,
    currentChoice st = None ->
    let st' := classifyFrom (S j) ls st in
    stemParts st' = stemParts st ++ (l_html <$> filter (fun l => ~ isAnswerLine l) ls)
    /\ choices st' = choices st /\ currentChoice st' = None.
Proof.
  induction 1 as [|ln ls Hln _ IH]; intros j st Hcur; simpl.
  - by rewrite app_nil_r.
  - cbv zeta. assert (CHOICE (trim (l_text ln)) = None) as Hc.
    { destruct (CHOICE _) eqn:E; [|done]. destruct Hln. unfold isChoiceLine.
      rewrite E. eauto. }
    destruct (ANSWER (trim (l_text ln))) as [body|] eqn:Ha.
    + rewrite filter_cons_False
        by (intros Hn; apply Hn; unfold isAnswerLine; rewrite Ha; eauto).
      set (st1 := {| stemParts := stemParts st; choices := choices st;
                     currentChoice := None;
                     answer := Some (normalizeAnswer body) |}).
      assert (classifyLine (S j) ln st = st1) as ->
        by (unfold classifyLine; by rewrite Hc, Ha).
      destruct (IH (S j) st1 eq_refl) as (H1 & H2 & H3). by split_and!.
    + rewrite filter_cons_True by (unfold isAnswerLine; rewrite Ha; by intros [? ?]).
      set (st1 := {| stemParts := stemParts st ++ [l_html ln]; choices := choices st;
                     currentChoice := None; answer := answer st |}).
      assert (classifyLine (S j) ln st = st1) as ->
        by (unfold classifyLine; by rewrite Hc, Ha, Hcur).
      destruct (IH (S j) st1 eq_refl) as (H1 & H2 & H3).
      split_and!; [|done|done]. rewrite H1. simpl. by rewrite <- app_assoc.
Qed.

(** X12: in a block without choice lines whose first line is not an answer
    line, the stem accumulator holds the markup of the first line with its
    numbering prefix stripped, followed by the markup of every later line
    that is not an answer line, in order; there are no choices, and the
    question is FREE_RESPONSE. *)
Theorem stem_of_plain_block (n : option Z) (ln : Line) (rest : list Line) :
  Forall (fun l => ~ isChoiceLine l) (ln :: rest) -> ~ isAnswerLine ln ->
  let b := {| b_num := n; b_lines := ln :: rest |} in
  stemParts (classify b)
  = stripNumberPrefix (l_html ln)
      :: (l_html <$> filter (fun l => ~ isAnswerLine l) rest)
  /\ choices (classify b) = []
  /\ forall i, q_type (buildQuestion i b) = FREE_RESPONSE.
Proof.
  intros Hall Ha b. apply Forall_cons in Hall as [Hln Hrest].
  assert (classifyLine 0 ln clsInit
          = {| stemParts := [stripNumberPrefix (l_html ln)]; choices := [];
               currentChoice := None; answer := None |}) as Hfirst.
  { unfold classifyLine.
    destruct (CHOICE _) eqn:E1; [destruct Hln; unfold isChoiceLine; rewrite E1; eauto|].
    destruct (ANSWER _) eqn:E2; [destruct Ha; unfold isAnswerLine; rewrite E2; eauto|].
    done. }
  set (st1 := {| stemParts := [stripNumberPrefix (l_html ln)]; choices := [];
                 currentChoice := None; answer := None |}) in *.
  unfold classify. simpl. rewrite Hfirst.
  destruct (classifyFrom_plain rest Hrest 0 st1 eq_refl) as (H1 & H2 & _).
  simpl in H1, H2. split; [done|]. split; [done|].
  intros i. unfold buildQuestion, classify. simpl. by rewrite Hfirst, H2.
Qed.

(** ** More on the numbering audit *)

Lemma StronglySorted_lookup {A} (R : relation A) (l : list A) :
  (forall i j x y, (i < j)%nat -> l !! i = Some x -> l !! j = Some y -> R x y) ->
  StronglySorted R l.
Proof.
  induction l as [|a l IH]; intros H; constructor.
  - apply IH. intros i j x y Hij Hi Hj. by apply (H (S i) (S j) x y); [lia|..].
  - apply Forall_forall. intros y Hy. apply list_elem_of_lookup in Hy as [j Hj].
    by apply (H 0%nat (S j) a y); [lia|..].
Qed.

Lemma seqZ_ascending m n : StronglySorted Z.lt (seqZ m n).
Proof.
  apply StronglySorted_lookup. intros i j x y Hij Hi Hj.
  apply lookup_seqZ in Hi as [-> _], Hj as [-> _]. lia.
Qed.

Lemma StronglySorted_filter {A} (R : relation A) (P : A -> Prop)
    `{forall x, Decision (P x)} (l : list A) :
  StronglySorted R l -> StronglySorted R (filter P l).
Proof.
  induction 1 as [|a l Hl IH Ha]; [constructor|].
  destruct (decide (P a)).
  - rewrite filter_cons_True by done. constructor; [done|].
    apply Forall_forall. intros y Hy. apply list_elem_of_filter in Hy as [_ Hy].
    rewrite Forall_forall in Ha. by apply Ha.
  - by rewrite filter_cons_False.
Qed.

(** The gaps the audit reports, as a list of numbers. *)
Lemma missingEntries_gaps present :
  exists gaps,
    missingEntries present = missingEntry <$> gaps
    /\ StronglySorted Z.lt gaps
    /\ forall z, z ∈ gaps -> z ∉ present.
Proof.
  unfold missingEntries. destruct present as [|p ps]; [by exists []; split; [|split; [constructor|intros z ?%not_elem_of_nil]]|].
  eexists. split; [reflexivity|]. split.
  - apply StronglySorted_filter, seqZ_ascending.
  - intros z Hz. apply list_elem_of_filter in Hz as [Hz _]. unfold has in Hz.
    by apply bool_decide_eq_false in Hz.
Qed.

(** X13: the audit pushes its duplicate-number entries first, one for every
    number that two or more blocks declare, and then its missing-number
    entries in ascending order of the missing number; a number declared once
    gives neither. *)
Theorem audit_entries_in_order (blocks : list Block) :
  exists dups gaps,
    auditNumbers blocks = (duplicateEntry <$> dups) ++ (missingEntry <$> gaps)
    /\ NoDup dups
    /\ (forall n, n ∈ dups <-> (2 <= timesDeclared blocks n)%nat)
    /\ StronglySorted Z.lt gaps
    /\ (forall z, z ∈ gaps -> ~ declares blocks z).
Proof.
  destruct (scanNumbers_spec blocks) as (_ & Hd & _ & Hdn).
  destruct (missingEntries_gaps (scanNumbers blocks).1) as (gaps & Hg & Hs & Hn).
  exists (scanNumbers blocks).2, gaps. unfold auditNumbers. rewrite Hg.
  split; [done|]. split; [done|]. split; [done|]. split; [done|].
  intros z Hz Hdecl. apply (Hn z Hz). by apply present_declares.
Qed.

Lemma filter_none {A} (P : A -> Prop) `{forall x, Decision (P x)} (l : list A) :
  (forall x, x ∈ l -> ~ P x) -> filter P l = [].
Proof.
  induction l as [|a l IH]; intros Hl; [done|].
  rewrite filter_cons_False by (apply Hl; left). apply IH. intros x Hx.
  apply Hl. by right.
Qed.

Lemma missingEntries_nil present :
  (forall lo hi z, lo ∈ present -> hi ∈ present -> lo <= z <= hi -> z ∈ present) ->
  missingEntries present = [].
Proof.
  intros Hfull. destruct (decide (present = [])) as [->|Hne]; [done|].
  destruct (sortNumbers_ends _ Hne) as (lo & hi & Hl & Hh & Hlo & Hhi & Hall).
  unfold missingEntries. destruct present as [|p ps]; [done|].
  rewrite Hl, Hh. simpl. rewrite filter_none; [done|].
  intros z Hz. apply elem_of_seqZ in Hz. unfold has.
  rewrite bool_decide_eq_false. intros Hnot. apply Hnot.
  apply (Hfull lo hi z); [done..|lia].
Qed.

(** X14: when every declared number is declared once and the declared
    numbers leave no gap between the least and the greatest, the audit pushes
    nothing, in whatever order the blocks come. *)
Theorem clean_numbering_no_entries (blocks : list Block) :
  (forall n, (timesDeclared blocks n <= 1)%nat) ->
  (forall lo hi z, declares blocks lo -> declares blocks hi -> lo <= z <= hi ->
                   declares blocks z) ->
  auditNumbers blocks = [].
Proof.
  intros Honce Hfull.
  destruct (scanNumbers_spec blocks) as (_ & _ & _ & Hdn).
  unfold auditNumbers. rewrite missingEntries_nil.
  - rewrite app_nil_r. destruct (scanNumbers blocks).2 as [|n ns]; [done|].
    assert (n ∈ n :: ns) as Hin by left.
    apply Hdn in Hin. specialize (Honce n). lia.
  - intros lo hi z Hlo%present_declares Hhi%present_declares Hz.
    apply present_declares. by apply (Hfull lo hi z).
Qed.

(** ** Trimmed and single-spaced text *)

Lemma collapseFrom_singleSpaced b s :
  singleSpaced b (collapseFrom is_ws b s) = true.
Proof.
  revert b. induction s as [|c s IH]; intros b; [done|]. simpl.
  destruct (is_ws c) eqn:Hc.
  - destruct b; [apply IH|]. simpl. by rewrite IH.
  - simpl. rewrite Hc. apply IH.
Qed.

Lemma singleSpaced_weaken b s :
  singleSpaced b s = true -> singleSpaced false s = true.
Proof.
  destruct s as [|c s]; [done|]. simpl. destruct (is_ws c); [|done].
  destruct b; [|done]. rewrite andb_false_r. done.
Qed.

Lemma singleSpaced_dropWhile b s :
  singleSpaced b s = true -> singleSpaced false (dropWhile is_ws s) = true.
Proof.
  revert b. induction s as [|c s IH]; intros b; [done|]. simpl.
  destruct (is_ws c) eqn:Hc.
  - intros H. apply andb_prop in H as [_ H]. by eapply IH.
  - intros H. simpl. by rewrite Hc.
Qed.

Lemma singleSpaced_app_l b s w :
  singleSpaced b (s ++ w) = true -> singleSpaced b s = true.
Proof.
  revert b. induction s as [|c s IH]; intros b; [done|]. simpl.
  destruct (is_ws c); [|apply IH].
  intros H. apply andb_prop in H as [-> H]. by rewrite (IH _ H).
Qed.

Lemma singleSpaced_trim b s : singleSpaced b s = true -> singleSpaced false (trim s) = true.
Proof.
  intros H. unfold trim, trimStart. apply singleSpaced_dropWhile in H.
  destruct (trimEnd_prefix (dropWhile is_ws s)) as (w & Hw). rewrite Hw in H.
  by apply singleSpaced_app_l in H.
Qed.

Lemma last_rev_head {A} (l : list A) : last (rev l) = head l.
Proof. destruct l as [|a l]; [done|]. simpl. apply last_snoc. Qed.

Lemma trimEnd_last s c : last (trimEnd s) = Some c -> is_ws c = false.
Proof.
  unfold trimEnd. rewrite last_rev_head. intros H.
  apply head_Some in H as (r & H). by eapply dropWhile_head.
Qed.

Lemma trim_noEdgeSpace s : noEdgeSpace (trim s).
Proof.
  split; intros c H.
  - apply head_Some in H as (r & H). by apply trim_head in H as [? _].
  - by apply trimEnd_last in H.
Qed.

Lemma trim_plainText b s : singleSpaced b s = true -> plainText (trim s).
Proof. intros H. split; [by eapply singleSpaced_trim|apply trim_noEdgeSpace]. Qed.

Lemma toPlainStem_plain html : plainText (toPlainStem html).
Proof. unfold toPlainStem. apply (trim_plainText false), collapseFrom_singleSpaced. Qed.

Lemma cleanChoiceHtml_plain html : plainText (cleanChoiceHtml html).
Proof. unfold cleanChoiceHtml. apply (trim_plainText false), collapseFrom_singleSpaced. Qed.

Lemma classifyLine_choice_texts j ln st :
  Forall (fun c => noEdgeSpace (c_text c)) (choices st) ->
  Forall (fun c => noEdgeSpace (c_text c)) (choices (classifyLine j ln st)).
Proof.
  intros H. unfold classifyLine. destruct (CHOICE _) as [[k body]|]; simpl.
  - apply Forall_app. split; [done|]. apply Forall_singleton. simpl.
    apply cleanChoiceHtml_plain.
  - destruct (ANSWER _); [done|]. destruct j; [done|].
    destruct (currentChoice st); [|done]. simpl.
    apply Forall_alter; [done|]. intros c _ _. simpl. apply trim_noEdgeSpace.
Qed.

Lemma classifyFrom_choice_texts ls :
  forall j st,
    Forall (fun c => noEdgeSpace (c_text c)) (choices st) ->
    Forall (fun c => noEdgeSpace (c_text c)) (choices (classifyFrom j ls st)).
Proof.
  induction ls as [|ln ls IH]; intros j st H; [done|]. simpl.
  by apply IH, classifyLine_choice_texts.
Qed.

(** X15: whatever the DOM library returns, the stem of every question is
    plain text: it has no whitespace at either end and no whitespace other
    than single spaces; and the text of every choice has no whitespace at
    either end. *)
Theorem question_text_is_tidy (wd : bool) (lines : list Line) (store : Store)
    (q : QuestionOut) :
  q ∈ questionsOf (POST wd lines store).1 ->
  plainText (q_stem q)
  /\ Forall (fun c => noEdgeSpace (c_text c)) (q_choices q).
Proof.
  intros H. apply question_from in H as (i & b & _ & ->). simpl.
  split; [apply toPlainStem_plain|].
  unfold classify. by apply classifyFrom_choice_texts.
Qed.

(** ** The answer normalizer *)

Lemma collapseFrom_id b s : singleSpaced b s = true -> collapseFrom is_ws b s = s.
Proof.
  revert b. induction s as [|c s IH]; intros b; [done|]. simpl.
  destruct (is_ws c) eqn:Hc.
  - intros H. apply andb_prop in H as [H Hs]. apply andb_prop in H as [Hsp Hb].
    apply N.eqb_eq in Hsp as ->. destruct b; [done|]. by rewrite (IH _ Hs).
  - intros H. by rewrite (IH _ H).
Qed.

Lemma trimEnd_id s : (forall c, last s = Some c -> is_ws c = false) -> trimEnd s = s.
Proof.
  intros H. unfold trimEnd.
  assert (forall c, head (rev s) = Some c -> is_ws c = false) as Hh.
  { intros c Hc. apply H. by rewrite <- (rev_involutive s), last_rev_head. }
  assert (dropWhile is_ws (rev s) = rev s) as ->; [|apply rev_involutive].
  destruct (rev s) as [|c r]; [done|]. simpl. by rewrite Hh.
Qed.

Lemma trim_id s : noEdgeSpace s -> trim s = s.
Proof.
  intros [Hh Hl]. unfold trim, trimStart.
  assert (dropWhile is_ws s = s) as ->; [|by apply trimEnd_id].
  destruct s as [|c s]; [done|]. simpl. by rewrite Hh.
Qed.

Lemma ws_not_word c : is_ws c = true -> is_word c = false.
Proof.
  intros H. destruct (is_word c) eqn:Hw; [|done]. exfalso.
  unfold is_word, is_upper, is_lower, is_digit in Hw.
  rewrite !orb_true_iff, !inRange_spec, N.eqb_eq in Hw.
  revert H. unfold is_ws. rewrite !orb_true_iff, !inRange_spec, !N.eqb_eq. lia.
Qed.

Lemma collapseFrom_last s c :
  last s = Some c -> is_ws c = false ->
  forall b, last (collapseFrom is_ws b s) = Some c.
Proof.
  intros Hl Hc. induction s as [|a s IH]; [done|]. intros b.
  destruct s as [|a' s'].
  - injection Hl as ->. simpl. by rewrite Hc.
  - rewrite last_cons_cons in Hl. specialize (IH Hl).
    change (collapseFrom is_ws b (a :: a' :: s'))
      with (if is_ws a
            then (if b then collapseFrom is_ws true (a' :: s')
                  else 32%N :: collapseFrom is_ws true (a' :: s'))
            else a :: collapseFrom is_ws false (a' :: s')).
    destruct (is_ws a); [destruct b|]; try apply IH;
      rewrite last_cons, IH; done.
Qed.

Lemma collapse_noEdgeSpace s : noEdgeSpace s -> noEdgeSpace (collapse is_ws s).
Proof.
  intros [Hh Hl]. unfold collapse. destruct s as [|c s]; [done|].
  assert (is_ws c = false) as Hc by (by apply Hh).
  destruct (last (c :: s)) as [d|] eqn:Hd; [|by apply last_None in Hd].
  split.
  - simpl. rewrite Hc. by intros ? [= <-].
  - rewrite (collapseFrom_last _ d Hd (Hl d eq_refl)). intros ? [= <-]. by apply Hl.
Qed.

Lemma leadingLetter_collapse s :
  noEdgeSpace s -> leadingLetter (collapse is_ws s) = None <-> leadingLetter s = None.
Proof.
  intros [Hh _]. destruct s as [|c s]; [done|].
  assert (is_ws c = false) as Hc by (by apply Hh).
  unfold collapse. simpl. rewrite Hc.
  destruct s as [|d s]; [done|]. simpl.
  destruct (is_ws d) eqn:Hd; [|done].
  rewrite (ws_not_word d Hd). done.
Qed.

(** The two shapes of a normalized answer. *)
Lemma normalizeAnswer_shape raw :
  (exists c, leadingLetter (trim raw) = Some [c]
             /\ normalizeAnswer raw = [toUpperCase c]
             /\ is_AH (toUpperCase c) = true)
  \/ (leadingLetter (trim raw) = None
      /\ normalizeAnswer raw = collapse is_ws (trim raw)
      /\ plainText (normalizeAnswer raw)).
Proof.
  unfold normalizeAnswer. destruct (leadingLetter (trim raw)) as [l|] eqn:E.
  - left. unfold leadingLetter in E. destruct (trim raw) as [|c rest]; [done|].
    destruct (is_AH (canonicalize c) && _) eqn:Hc; [|done]. injection E as <-.
    exists c. apply andb_prop in Hc as [Hc _]. done.
  - right. split; [done|]. split; [done|]. split.
    + apply collapseFrom_singleSpaced.
    + apply collapse_noEdgeSpace, trim_noEdgeSpace.
Qed.

(** X16: a normalized answer is either one capital letter from A to H or
    plain text (no whitespace at either end, single spaces only), and
    normalizing it again changes nothing. *)
Theorem normalizeAnswer_idempotent (raw : str) :
  ((exists k, normalizeAnswer raw = [k] /\ is_AH k = true)
   \/ plainText (normalizeAnswer raw))
  /\ normalizeAnswer (normalizeAnswer raw) = normalizeAnswer raw.
Proof.
  destruct (normalizeAnswer_shape raw) as [(c & _ & Hn & Hk)|(Hl & Hn & Hp)].
  - split; [left; eauto|]. rewrite Hn. set (k := toUpperCase c) in *.
    assert (is_ws k = false) as Hws.
    { unfold is_AH in Hk. apply inRange_spec in Hk. unfold is_ws, inRange.
      repeat (apply orb_false_intro); try (apply N.eqb_neq; lia);
        apply andb_false_iff; rewrite !N.leb_gt; lia. }
    unfold normalizeAnswer.
    assert (trim [k] = [k]) as -> by (apply trim_id; split; by intros ? [= <-]).
    unfold leadingLetter, canonicalize. rewrite (toUpperCase_AH k Hk), Hk. simpl.
    by rewrite (toUpperCase_AH k Hk).
  - split; [by right|]. rewrite Hn. unfold normalizeAnswer.
    assert (noEdgeSpace (collapse is_ws (trim raw))) as He
      by apply collapse_noEdgeSpace, trim_noEdgeSpace.
    rewrite (trim_id _ He).
    rewrite (proj2 (leadingLetter_collapse _ (trim_noEdgeSpace raw)) Hl).
    apply collapseFrom_id, collapseFrom_singleSpaced.
Qed.

(** ** Stripping the numbering prefix *)

Lemma starC_greedy p acc s :
  starC p acc (fun _ t => Some t) s = Some (dropWhile p s).
Proof.
  revert acc. induction s as [|c s IH]; intros acc; [done|]. simpl.
  destruct (p c); [|done]. by rewrite IH.
Qed.

(** A [p*] succeeds as soon as its continuation succeeds after some run of
    [p]. *)
Lemma starC_complete {R} p (k : str -> str -> option R) w :
  forall acc s,
    forallb p w = true -> is_Some (k (acc ++ w) s) -> is_Some (starC p acc k (w ++ s)).
Proof.
  induction w as [|c w IH]; intros acc s Hw Hk.
  - rewrite app_nil_r in Hk. simpl. destruct s as [|c s]; [done|]. simpl.
    destruct (p c); [|done]. by destruct (starC p (acc ++ [c]) k s).
  - simpl in Hw. apply andb_prop in Hw as [Hc Hw]. simpl. rewrite Hc.
    destruct (starC p (acc ++ [c]) k (w ++ s)) eqn:E; [done|].
    assert (is_Some (starC p (acc ++ [c]) k (w ++ s))) as Hs.
    { apply IH; [done|]. by rewrite <- app_assoc. }
    rewrite E in Hs. by destruct Hs.
Qed.

Lemma uptoC_complete {R} p (k : str -> str -> option R) w :
  forall n acc s,
    forallb p w = true -> (length w <= n)%nat -> is_Some (k (acc ++ w) s) ->
    is_Some (uptoC n p acc k (w ++ s)).
Proof.
  induction w as [|c w IH]; intros n acc s Hw Hn Hk.
  - rewrite app_nil_r in Hk. simpl. destruct n; [by destruct s|].
    destruct s as [|c s]; [done|]. simpl.
    destruct (p c); [|done]. by destruct (uptoC n p (acc ++ [c]) k s).
  - simpl in Hw, Hn. apply andb_prop in Hw as [Hc Hw].
    destruct n as [|n]; [lia|]. simpl. rewrite Hc.
    destruct (uptoC n p (acc ++ [c]) k (w ++ s)) eqn:E; [done|].
    assert (is_Some (uptoC n p (acc ++ [c]) k (w ++ s))) as Hs.
    { apply IH; [done|lia|]. by rewrite <- app_assoc. }
    rewrite E in Hs. by destruct Hs.
Qed.

Lemma chr_complete {R} p (k : char -> str -> option R) c s :
  p c = true -> is_Some (k c s) -> is_Some (chr p k (c :: s)).
Proof. intros Hc Hk. simpl. by rewrite Hc. Qed.

(** Whether [numberPrefix] matches does not depend on a continuation that
    accepts everything. *)
Lemma numberPrefix_matches {R R'} (k : str -> str -> option R)
    (k' : str -> str -> option R') s :
  (forall d t, is_Some (k' d t)) ->
  is_Some (numberPrefix k s) -> is_Some (numberPrefix k' s).
Proof.
  intros Hk' [r H]. unfold numberPrefix, star, rep13C, plus, plusC in *.
  apply starC_Some in H as (w1 & s1 & -> & Hw1 & H).
  apply chr_Some in H as (c & s2 & -> & Hc & H).
  apply uptoC_Some in H as (w2 & s3 & -> & Hw2 & Hlen & H).
  apply starC_Some in H as (w3 & s4 & -> & Hw3 & H).
  apply chr_Some in H as (c4 & s5 & -> & Hc4 & H).
  apply chr_Some in H as (c5 & s6 & -> & Hc5 & H).
  apply starC_complete; [done|]. apply chr_complete; [done|].
  apply uptoC_complete; [done..|].
  apply starC_complete; [done|]. apply chr_complete; [done|].
  apply chr_complete; [done|].
  apply (starC_complete is_ws (fun _ => k' ([c] ++ w2)) [] [c5] s6 eq_refl).
  apply Hk'.
Qed.

(** X17: [stripPrefix] with the numbering pattern leaves markup that does
    not start with a numbering marker as it is; from markup that does it
    removes a prefix of at least three code units (a digit, the separator, a
    whitespace), and what is left does not begin with whitespace. *)
Theorem stripNumberPrefix_spec (html : str) :
  (Q_START html = None -> stripNumberPrefix html = html)
  /\ (is_Some (Q_START html) ->
      exists pre,
        html = pre ++ stripNumberPrefix html /\ (3 <= length pre)%nat
        /\ forall c, head (stripNumberPrefix html) = Some c -> is_ws c = false).
Proof.
  unfold stripNumberPrefix. split.
  - intros Hq.
    destruct (numberPrefix (fun _ rest => Some rest) html) as [rest|] eqn:E; [|done].
    assert (is_Some (Q_START html)) as [d Hd].
    { unfold Q_START. eapply numberPrefix_matches; [|by rewrite E]. by eexists. }
    congruence.
  - intros Hq.
    assert (is_Some (numberPrefix (fun _ rest : str => Some rest) html)) as [rest H].
    { eapply numberPrefix_matches; [|exact Hq]. by eexists. }
    rewrite H. unfold numberPrefix, star, rep13C, plus, plusC in H.
    apply starC_Some in H as (w1 & s1 & -> & _ & H).
    apply chr_Some in H as (c & s2 & -> & _ & H).
    apply uptoC_Some in H as (w2 & s3 & -> & _ & _ & H).
    apply starC_Some in H as (w3 & s4 & -> & _ & H).
    apply chr_Some in H as (c4 & s5 & -> & _ & H).
    apply chr_Some in H as (c5 & s6 & -> & _ & H).
    rewrite starC_greedy in H. injection H as <-.
    destruct (dropWhile_split is_ws s6) as (u & Hu & _).
    exists (w1 ++ c :: w2 ++ w3 ++ c4 :: c5 :: u). split; [|split].
    + rewrite Hu at 1. rewrite <- !app_assoc. simpl. by rewrite <- !app_assoc.
    + rewrite !length_app. simpl. rewrite !length_app. simpl. lia.
    + intros x Hx. apply head_Some in Hx as (r & Hx). by eapply dropWhile_head.
Qed.

(** ** The line extractor *)

Lemma dropWhile_nil p s : dropWhile p s = [] <-> forallb p s = true.
Proof.
  induction s as [|c s IH]; [done|]. simpl. destruct (p c); [done|]. done.
Qed.

Lemma forallb_rev {A} (p : A -> bool) (l : list A) : forallb p (rev l) = forallb p l.
Proof.
  induction l as [|a l IH]; [done|]. simpl.
  rewrite forallb_app, IH. simpl. rewrite andb_true_r. apply andb_comm.
Qed.

Lemma trimEnd_nil s : trimEnd s = [] <-> forallb is_ws s = true.
Proof.
  unfold trimEnd. rewrite <- (forallb_rev is_ws s), <- dropWhile_nil. split.
  - intros H. apply (f_equal (@rev N)) in H. by rewrite rev_involutive in H.
  - by intros ->.
Qed.

Lemma trim_nil s : trim s = [] <-> forallb is_ws s = true.
Proof.
  unfold trim, trimStart. rewrite trimEnd_nil. split.
  - intros H. apply dropWhile_nil. destruct (dropWhile is_ws s) as [|c r] eqn:E; [done|].
    apply dropWhile_head in E. simpl in H. by rewrite E in H.
  - intros H. by rewrite (proj2 (dropWhile_nil _ _) H).
Qed.

Lemma keptLine_extractLine p : keptLine (extractLine p) = negb (blankParagraph p).
Proof.
  unfold keptLine, extractLine, blankParagraph. simpl.
  rewrite <- negb_andb. f_equal. apply eq_true_iff_eq.
  rewrite !andb_true_iff, !bool_decide_eq_true, trim_nil, trimEnd_nil. done.
Qed.

(** X18: the line extractor keeps the paragraphs in order, one line for
    every paragraph that has something other than whitespace in its markup
    or its text and none for the others; the markup of a line has no
    whitespace at either end and its text has none at its end. *)
Theorem extractLines_spec (paragraphs more : list (str * str)) (p : str * str) :
  extractLines (paragraphs ++ more) = extractLines paragraphs ++ extractLines more
  /\ extractLines [p] = (if blankParagraph p then [] else [extractLine p])
  /\ Forall (fun ln => noEdgeSpace (l_html ln)
                       /\ (forall c, last (l_text ln) = Some c -> is_ws c = false)
                       /\ (l_html ln <> [] \/ l_text ln <> []))
            (extractLines paragraphs).
Proof.
  unfold extractLines. split; [by rewrite fmap_app, List.filter_app|]. split.
  - simpl. rewrite keptLine_extractLine. by destruct (blankParagraph p).
  - apply Forall_forall. intros ln Hln. apply list_elem_of_In in Hln.
    apply List.filter_In in Hln as [Hin Hk]. apply list_elem_of_In in Hin.
    apply list_elem_of_fmap in Hin as (q & -> & _). split; [|split].
    + apply trim_noEdgeSpace.
    + apply trimEnd_last.
    + unfold keptLine in Hk. apply orb_prop in Hk as [Hk|Hk];
        apply negb_true_iff, bool_decide_eq_false in Hk; [by left|by right].
Qed.

End Handler.

(** ** The patterns and the handler on sample inputs *)

Example Q_START_paren : Q_START (lit "  12)  foo") = Some (lit "12").
Proof. reflexivity. Qed.

Example Q_START_four_digits : Q_START (lit "1234. x") = None.
Proof. reflexivity. Qed.

Example Q_START_needs_space : Q_START (lit "1.x") = None.
Proof. reflexivity. Qed.

Example CHOICE_paren : CHOICE (lit "B) bar baz") = Some (66%N, lit "bar baz").
Proof. reflexivity. Qed.

Example CHOICE_lower_case : CHOICE (lit "b) bar") = None.
Proof. reflexivity. Qed.

Example ANSWER_any_case : ANSWER (lit "correct answer - B") = Some (lit "B").
Proof. reflexivity. Qed.

Example ANSWER_needs_text : ANSWER (lit "Answer:") = None.
Proof. reflexivity. Qed.

Example normalizeAnswer_letter : normalizeAnswer (lit " b) x") = lit "B".
Proof. reflexivity. Qed.

Example normalizeAnswer_text : normalizeAnswer (lit "be   x") = lit "be x".
Proof. reflexivity. Qed.

Example collapseBreaks_run :
  collapseBreaks 0 (lit "a<br/><br/> <br/><br/>b<br/><br/>c") = lit "a<br/><br/>b<br/><br/>c".
Proof. reflexivity. Qed.

Example collapseBreaks_case : collapseBreaks 0 (lit "<BR/><BR/><BR/>") = lit "<BR/><BR/><BR/>".
Proof. reflexivity. Qed.

Example segment_preamble :
  segment [line "Title"; line "1. First"; line "more"; line "  "; line "2) Second"]
  = [{| b_num := Some 1; b_lines := [line "1. First"; line "more"] |};
     {| b_num := Some 2; b_lines := [line "2) Second"] |}].
Proof. reflexivity. Qed.

(** The multiple-choice sample of the specification. *)
Example POST_sampleQuiz :
  (POST tagless tagless true sampleQuiz []).1 =
  WithDiagnostics
    [{| q_id := lit "Q1"; q_index := 1; q_type := MULTIPLE_CHOICE;
        q_category := lit "Uncategorized"; q_stem := lit "What is 2+2?";
        q_media := {| m_type := lit "image"; m_url := lit "/images/2018/B/q1.png";
                      m_alt := [] |};
        q_choices := [{| c_key := lit "A"; c_text := lit "3" |};
                      {| c_key := lit "B"; c_text := lit "4" |}];
        q_answer := [] |}]
    []
    {| totalBlocks := 1; parsed := 1; unparsedCount := 0 |}.
Proof. reflexivity. Qed.

(** The free-response sample of the specification. *)
Example POST_essay :
  exists q,
    (POST tagless tagless true [line "1. Essay question."; line "Write 500 words."] []).1
    = WithDiagnostics [q] [] {| totalBlocks := 1; parsed := 1; unparsedCount := 0 |}
    /\ q_type q = FREE_RESPONSE /\ q_choices q = []
    /\ q_stem q = lit "Essay question.Write 500 words.".
Proof. eexists. split; [reflexivity|]. split; [reflexivity|]. split; reflexivity. Qed.

(** ** The claims on sample inputs *)

(** The dispatch on the first line, on a choice line, an answer line and a
    numbered line. *)
Lemma first_line_dispatch_witness :
  classifyLine tagless 0 (line "A. foo") clsInit =
    {| stemParts := [];
       choices := [{| c_key := lit "A"; c_text := lit "foo" |}];
       currentChoice := Some 0%nat; answer := None |}
  /\ classifyLine tagless 0 (line "Answer: B") clsInit =
    {| stemParts := []; choices := []; currentChoice := None;
       answer := Some (lit "B") |}
  /\ classifyLine tagless 0 (line "Essay question.") clsInit =
    {| stemParts := [lit "Essay question."]; choices := [];
       currentChoice := None; answer := None |}
  /\ classifyLine tagless 0 (line "1. What is 2+2?") clsInit =
    {| stemParts := [lit "What is 2+2?"]; choices := [];
       currentChoice := None; answer := None |}.
Proof.
  split; [|split; [|split]].
  - exact (proj1 (proj2 (first_line_dispatch tagless None (line "A. foo") []))
             65%N (lit "foo") eq_refl).
  - exact (proj1 (proj2 (proj2 (first_line_dispatch tagless None (line "Answer: B") [])))
             (lit "B") eq_refl eq_refl).
  - exact (proj1 (proj2 (proj2 (proj2
             (first_line_dispatch tagless None (line "Essay question.") []))))
             eq_refl eq_refl).
  - exact (proj2 (proj2 (proj2 (proj2
             (first_line_dispatch tagless (Some 1) (line "1. What is 2+2?") []))))
             (lit "1") eq_refl).
Defined.

(** A block whose first line is a choice line: the line becomes a choice and
    the stem accumulator stays empty, whatever the DOM library returns. *)
Lemma first_line_choice_counterexample :
  let b := {| b_num := None; b_lines := choiceFirst |} in
  blocksOf choiceFirst = [b]
  /\ CHOICE (trim (lit "A. foo")) = Some (65%N, lit "foo")
  /\ (forall dom,
        stemParts (classify dom b) = []
        /\ c_key <$> choices (classify dom b) = [lit "A"]).
Proof. split; [done|]. split; [done|]. intros dom. split; reflexivity. Qed.

Lemma nonempty_input_yields_question_witness :
  untitled <> []
  /\ blocksOf untitled = [{| b_num := None; b_lines := untitled |}]
  /\ (1 <= length (questionsOf (POST tagless tagless true untitled []).1))%nat.
Proof.
  assert (untitled <> []) as H by discriminate.
  pose proof (nonempty_input_yields_question tagless tagless true untitled [] H)
    as (Hwrap & _ & _ & Hone).
  split; [exact H|]. split; [exact (Hwrap eq_refl)|exact Hone].
Defined.

Lemma one_question_per_block_witness :
  let b := {| b_num := Some 1; b_lines := oneChoice |} in
  blocksOf oneChoice !! 0%nat = Some b
  /\ questionsOf (POST tagless tagless true oneChoice []).1 !! 0%nat
      = Some (buildQuestion tagless tagless 0 b)
  /\ length (questionsOf (POST tagless tagless true oneChoice []).1) = 1%nat.
Proof.
  pose proof (one_question_per_block tagless tagless true oneChoice [])
    as (Hlen & Hat & _).
  split; [reflexivity|]. split; [|exact Hlen].
  exact (Hat 0%nat _ eq_refl).
Defined.

Lemma answer_always_empty_witness :
  exists q,
    questionsOf (POST tagless tagless true sampleQuiz []).1 = [q]
    /\ answer (classify tagless {| b_num := Some 1; b_lines := sampleQuiz |})
        = Some (lit "B")
    /\ q_answer q = [].
Proof.
  eexists. split; [reflexivity|]. split; [reflexivity|].
  apply (answer_always_empty tagless tagless true sampleQuiz []).
  apply list_elem_of_here.
Defined.

Lemma duplicate_number_kept_witness :
  timesDeclared (blocksOf twoFives) 5 = 2%nat
  /\ questionsAt 5 (questionsOf (POST tagless tagless true twoFives []).1) = 2%nat
  /\ entriesAt DuplicateNumber 5 (entriesOf tagless tagless twoFives) = 1%nat.
Proof.
  assert (timesDeclared (blocksOf twoFives) 5 = 2%nat) as H by reflexivity.
  pose proof (duplicate_number_kept tagless tagless true twoFives [] 5 H)
    as (Hq & _ & _ & Hd & _).
  split; [exact H|]. split; [exact Hq|exact Hd].
Defined.

Lemma missing_numbers_reported_witness :
  isLeast (segment oneAndThree) 1 /\ isGreatest (segment oneAndThree) 3
  /\ entriesAt MissingNumber 2 (auditNumbers (segment oneAndThree)) = 1%nat
  /\ entriesAt MissingNumber 3 (auditNumbers (segment oneAndThree)) = 0%nat.
Proof.
  assert (forall n, declares (segment oneAndThree) n -> n = 1 \/ n = 3) as Hall.
  { intros n Hn. change (Some n ∈ [Some 1; Some 3]) in Hn.
    apply elem_of_cons in Hn as [Hn|Hn]; [left; congruence|].
    apply list_elem_of_singleton in Hn. right. congruence. }
  assert (isLeast (segment oneAndThree) 1) as Hlo.
  { split; [apply list_elem_of_here|]. intros n Hn. destruct (Hall n Hn); lia. }
  assert (isGreatest (segment oneAndThree) 3) as Hhi.
  { split; [apply list_elem_of_further, list_elem_of_here|].
    intros n Hn. destruct (Hall n Hn); lia. }
  pose proof (proj1 (missing_numbers_reported (segment oneAndThree)) 1 3) as H.
  split; [exact Hlo|]. split; [exact Hhi|]. split.
  - exact (H 2 Hlo Hhi).
  - exact (H 3 Hlo Hhi).
Defined.

Lemma type_by_choice_count_witness :
  let b := {| b_num := Some 1; b_lines := oneChoice |} in
  blocksOf oneChoice !! 0%nat = Some b
  /\ length (choices (classify tagless b)) = 1%nat
  /\ exists q,
       questionsOf (POST tagless tagless true oneChoice []).1 !! 0%nat = Some q
       /\ q_type q = FREE_RESPONSE
       /\ exists u, u ∈ (POST tagless tagless true oneChoice []).2
            /\ u_reason u = IncompleteChoices /\ u_index u = Some (q_index q).
Proof.
  split; [reflexivity|]. split; [reflexivity|].
  destruct (type_by_choice_count tagless tagless true oneChoice [] 0
              {| b_num := Some 1; b_lines := oneChoice |} eq_refl)
    as (q & Hq & _ & _ & _ & Hone).
  destruct (Hone eq_refl) as (Hfree & u & Hu & Hr & Hi & _).
  exists q. split; [exact Hq|]. split; [exact Hfree|].
  exists u. split; [exact Hu|]. split; [exact Hr|exact Hi].
Defined.

Lemma answer_text_reaches_samples_only_witness :
  Forall2 sameUpToAnswer quizB quizC
  /\ questionsOf (POST tagless tagless true quizB []).1
      = questionsOf (POST tagless tagless true quizC []).1
  /\ statsOf (POST tagless tagless true quizB []).1
      = statsOf (POST tagless tagless true quizC []).1.
Proof.
  assert (Forall2 sameUpToAnswer quizB quizC) as H.
  { constructor 2; [by left|]. constructor 2; [|constructor 1].
    right. split; eexists; reflexivity. }
  pose proof (answer_text_reaches_samples_only tagless tagless true quizB quizC [] H)
    as (Hq & Hs & _).
  split; [exact H|]. split; [exact Hq|exact Hs].
Defined.

(** Two single-line inputs that differ in the text after the answer marker
    only: the no-number entry quotes the line, so the diagnostics differ,
    whatever the DOM library returns.  In a numbered block with a short stem
    the empty-stem entry quotes the answer line as well. *)
Lemma answer_text_counterexample :
  Forall2 sameUpToAnswer answerB answerC
  /\ (forall dom1 dom2,
        head (entriesOf dom1 dom2 answerB)
          = Some {| u_index := None; u_reason := NoNumber;
                    u_sample := Some (lit "Answer: B"); u_note := None |}
        /\ head (entriesOf dom1 dom2 answerC)
          = Some {| u_index := None; u_reason := NoNumber;
                    u_sample := Some (lit "Answer: C"); u_note := None |}
        /\ diagnosticsOf (POST dom1 dom2 true answerB []).1
           <> diagnosticsOf (POST dom1 dom2 true answerC []).1)
  /\ entriesOf tagless tagless [line "1. x"; line "Answer: B"]
     = [{| u_index := Some 1; u_reason := EmptyStem;
           u_sample := Some (lit "1. x Answer: B"); u_note := None |}]
  /\ entriesOf tagless tagless [line "1. x"; line "Answer: C"]
     = [{| u_index := Some 1; u_reason := EmptyStem;
           u_sample := Some (lit "1. x Answer: C"); u_note := None |}].
Proof.
  split; [|split; [|split; reflexivity]].
  - constructor 2; [|constructor 1]. right. split; eexists; reflexivity.
  - intros dom1 dom2. split; [reflexivity|]. split; [reflexivity|].
    rewrite !POST_unfold. simpl. intros E. injection E as E. discriminate E.
Qed.

Lemma id_from_index_witness :
  exists qi qj,
    questionsOf (POST tagless tagless true twoFives []).1 = [qi; qj]
    /\ q_id qi = lit "Q5" /\ q_id qj = q_id qi /\ qi <> qj.
Proof.
  destruct (proj2 (id_from_index tagless tagless true twoFives []) 0%nat 1%nat
              {| b_num := Some 5; b_lines := [line "5. First"] |}
              {| b_num := Some 5; b_lines := [line "5. Second"] |} 5
              ltac:(discriminate) eq_refl eq_refl eq_refl eq_refl)
    as (qi & qj & Hi & Hj & _ & _ & Hid & Hsame).
  exists qi, qj. split; [|split; [exact Hid|split; [exact Hsame|]]].
  - injection Hi as <-. injection Hj as <-. reflexivity.
  - injection Hi as <-. injection Hj as <-. discriminate.
Defined.

(** ** The further properties on sample inputs *)

Lemma segment_blocks_opened_witness :
  let b := {| b_num := Some 1; b_lines := sampleQuiz |} in
  segment sampleQuiz = [b]
  /\ opened b
  /\ exists n, b_num b = Some n /\ 0 <= n <= 999.
Proof.
  assert ({| b_num := Some 1; b_lines := sampleQuiz |} ∈ segment sampleQuiz) as Hin
    by apply list_elem_of_here.
  destruct (segment_blocks_opened sampleQuiz _ Hin) as (Ho & Hn & _).
  split; [reflexivity|]. split; [exact Ho|exact Hn].
Defined.

Lemma segment_drops_preamble_witness :
  Forall (fun l => ~ startsBlock l) [line "Exam"; line "Name:"]
  /\ segment ([line "Exam"; line "Name:"] ++ sampleQuiz) = segment sampleQuiz.
Proof.
  assert (Forall (fun l => ~ startsBlock l) [line "Exam"; line "Name:"]) as H.
  { repeat constructor; intros [d Hd]; discriminate Hd. }
  split; [exact H|]. exact (proj1 (segment_drops_preamble _ sampleQuiz H)).
Defined.

Lemma segment_app_witness :
  startsBlock (line "3. Third")
  /\ segment ([line "1. First"; line "more"] ++ line "3. Third" :: [line "end"])
     = segment [line "1. First"; line "more"] ++ segment [line "3. Third"; line "end"].
Proof.
  assert (startsBlock (line "3. Third")) as H by (eexists; reflexivity).
  split; [exact H|]. exact (segment_app _ _ _ H).
Defined.

Lemma unnumbered_document_witness :
  untitled <> []
  /\ Forall (fun l => ~ startsBlock l) untitled
  /\ questionsOf (POST tagless tagless true untitled []).1
     = [buildQuestion tagless tagless 0 {| b_num := None; b_lines := untitled |}]
  /\ q_id (buildQuestion tagless tagless 0 {| b_num := None; b_lines := untitled |})
     = lit "Q1".
Proof.
  assert (untitled <> []) as Hne by discriminate.
  assert (Forall (fun l => ~ startsBlock l) untitled) as H.
  { repeat constructor; intros [d Hd]; discriminate Hd. }
  destruct (unnumbered_document tagless tagless true untitled [] Hne H)
    as (Hq & _ & Hid & _).
  split; [exact Hne|]. split; [exact H|]. split; [exact Hq|exact Hid].
Defined.

Lemma numbered_document_witness :
  Exists startsBlock sampleQuiz
  /\ blocksOf sampleQuiz = segment sampleQuiz
  /\ Forall (fun u => u_reason u <> NoNumber) (entriesOf tagless tagless twoFives).
Proof.
  assert (Exists startsBlock sampleQuiz) as H
    by (apply Exists_cons_hd; eexists; reflexivity).
  assert (Exists startsBlock twoFives) as H2
    by (apply Exists_cons_hd; eexists; reflexivity).
  split; [exact H|].
  split; [exact (proj1 (numbered_document tagless tagless true sampleQuiz [] H))|].
  apply Forall_forall. intros u Hu.
  exact (proj1 (proj2 (proj2 (numbered_document tagless tagless true twoFives [] H2))
                 u Hu)).
Defined.

Lemma continuation_extends_last_choice_witness :
  let ls := [line "1. Pick"; line "A. one"] in
  currentChoice (classify tagless {| b_num := Some 1; b_lines := ls |}) = Some 0%nat
  /\ exists earlier c,
       choices (classify tagless {| b_num := Some 1; b_lines := ls |}) = earlier ++ [c]
       /\ choices (classify tagless {| b_num := Some 1; b_lines := ls ++ [line "more"] |})
          = earlier ++ [appendToChoice (lit "more") c].
Proof.
  assert ([line "1. Pick"; line "A. one"] <> []) as Hne by discriminate.
  assert (~ isChoiceLine (line "more")) as Hc by (intros [d Hd]; discriminate Hd).
  assert (~ isAnswerLine (line "more")) as Ha by (intros [d Hd]; discriminate Hd).
  destruct (continuation_extends_last_choice tagless (Some 1) _ (line "more") Hne Hc Ha)
    as [Hsome _].
  split; [reflexivity|]. exact (proj2 (Hsome 0%nat eq_refl)).
Defined.

Lemma stem_of_plain_block_witness :
  let b := {| b_num := Some 1;
              b_lines := [line "1. Essay question."; line "Write 500 words."] |} in
  stemParts (classify tagless b) = [lit "Essay question."; lit "Write 500 words."]
  /\ choices (classify tagless b) = [].
Proof.
  assert (Forall (fun l => ~ isChoiceLine l)
            [line "1. Essay question."; line "Write 500 words."]) as H.
  { repeat constructor; intros [d Hd]; discriminate Hd. }
  assert (~ isAnswerLine (line "1. Essay question.")) as Ha
    by (intros [d Hd]; discriminate Hd).
  destruct (stem_of_plain_block tagless tagless (Some 1) _ _ H Ha) as (Hs & Hc & _).
  split; [exact Hs|exact Hc].
Defined.

Lemma clean_numbering_no_entries_witness :
  auditNumbers (segment [line "2. b"; line "1. a"; line "3. c"]) = [].
Proof.
  set (blocks := segment [line "2. b"; line "1. a"; line "3. c"]).
  assert (forall n, declares blocks n <-> n = 2 \/ n = 1 \/ n = 3) as Hd.
  { intros n. change (Some n ∈ [Some 2; Some 1; Some 3] <-> n = 2 \/ n = 1 \/ n = 3).
    rewrite !elem_of_cons, elem_of_nil. split.
    - intros [H|[H|[H|[]]]]; injection H as ->; auto.
    - intros [->|[->| ->]]; auto. }
  apply clean_numbering_no_entries.
  - intros n. unfold timesDeclared, blocks.
    change (segment [line "2. b"; line "1. a"; line "3. c"])
      with [{| b_num := Some 2; b_lines := [line "2. b"] |};
            {| b_num := Some 1; b_lines := [line "1. a"] |};
            {| b_num := Some 3; b_lines := [line "3. c"] |}].
    rewrite !filter_cons, filter_nil. simpl.
    repeat case_decide; simplify_eq; simpl; lia.
  - intros lo hi z Hlo%Hd Hhi%Hd Hz. apply Hd. lia.
Defined.

Lemma question_text_is_tidy_witness :
  exists q,
    questionsOf (POST tagless tagless true sampleQuiz []).1 = [q]
    /\ plainText (q_stem q).
Proof.
  eexists. split; [reflexivity|].
  apply (question_text_is_tidy tagless tagless true sampleQuiz []).
  apply list_elem_of_here.
Defined.

Lemma stripNumberPrefix_spec_witness :
  stripNumberPrefix (lit "<b>x</b>") = lit "<b>x</b>"
  /\ exists pre,
       lit " 12)  <b>x</b>" = pre ++ stripNumberPrefix (lit " 12)  <b>x</b>")
       /\ (3 <= length pre)%nat.
Proof.
  split.
  - exact (proj1 (stripNumberPrefix_spec (lit "<b>x</b>")) eq_refl).
  - destruct (proj2 (stripNumberPrefix_spec (lit " 12)  <b>x</b>")))
      as (pre & Hpre & Hlen & _); [eexists; reflexivity|].
    exists pre. split; [exact Hpre|exact Hlen].
Defined.

(** ** The page-list route *)

(** *** Sets and sorted lists *)

Import Pdf.

Lemma elem_of_setAdd s n x : x ∈ setAdd s n <-> x ∈ s \/ x = n.
Proof.
  unfold setAdd, setHas. case_bool_decide.
  - split; [by left|]. intros [?| ->]; done.
  - rewrite elem_of_app, list_elem_of_singleton. done.
Qed.

Lemma NoDup_setAdd s n : NoDup s -> NoDup (setAdd s n).
Proof.
  unfold setAdd, setHas. case_bool_decide; [done|]. intros Hs.
  apply NoDup_app. split; [done|]. split; [|apply NoDup_singleton].
  intros x Hx. rewrite list_elem_of_singleton. by intros ->.
Qed.

Lemma foldl_setAdd l :
  forall out, NoDup out ->
    NoDup (foldl setAdd out l) /\ forall x, x ∈ foldl setAdd out l <-> x ∈ out \/ x ∈ l.
Proof.
  induction l as [|n l IH]; intros out Hout; simpl.
  - split; [done|]. intros x. rewrite elem_of_nil. tauto.
  - destruct (IH (setAdd out n) (NoDup_setAdd _ _ Hout)) as [Hnd Hin].
    split; [done|]. intros x. rewrite Hin, elem_of_setAdd, elem_of_cons. tauto.
Qed.

Lemma addRange_spec out a b :
  NoDup out ->
  NoDup (addRange out a b)
  /\ forall x, x ∈ addRange out a b <-> x ∈ out \/ a <= x <= b.
Proof.
  intros Hout. unfold addRange.
  destruct (foldl_setAdd (seqZ a (b - a + 1)) out Hout) as [Hnd Hin].
  split; [done|]. intros x. rewrite Hin, elem_of_seqZ.
  split; (intros [?|?]; [by left|right; lia]).
Qed.

Lemma sorted_NoDup_ascending (l : list Z) :
  StronglySorted Z.le l -> NoDup l -> StronglySorted Z.lt l.
Proof.
  induction 1 as [|a l Hl IH Ha]; intros Hnd; [constructor|].
  apply NoDup_cons in Hnd as [Hnotin Hnd]. constructor; [by apply IH|].
  rewrite Forall_forall in *. intros x Hx. specialize (Ha x Hx).
  assert (x <> a) by (by intros ->). lia.
Qed.

Lemma StronglySorted_NoDup_lt (l : list Z) : StronglySorted Z.lt l -> NoDup l.
Proof.
  induction 1 as [|a l Hl IH Ha]; [constructor|]. apply NoDup_cons. split; [|done].
  intros Hin. rewrite Forall_forall in Ha. specialize (Ha a Hin). lia.
Qed.

(** *** Matching and splitting *)

Lemma starC_exact {R} p (k : str -> str -> option R) w s r :
  forallb p w = true -> (forall c, head s = Some c -> p c = false) ->
  forall acc, k (acc ++ w) s = Some r -> starC p acc k (w ++ s) = Some r.
Proof.
  intros Hw Hs. induction w as [|c w IH]; intros acc Hk.
  - rewrite app_nil_r in Hk. destruct s as [|c s]; [done|].
    simpl. by rewrite (Hs c eq_refl).
  - simpl in Hw. apply andb_prop in Hw as [Hc Hw]. simpl. rewrite Hc.
    rewrite (IH Hw (acc ++ [c])); [done|]. by rewrite <- app_assoc.
Qed.

Lemma plusC_exact {R} p (k : str -> str -> option R) d s r :
  d <> [] -> forallb p d = true -> (forall c, head s = Some c -> p c = false) ->
  k d s = Some r -> plusC p k (d ++ s) = Some r.
Proof.
  destruct d as [|c w]; [done|]. intros _ Hd Hs Hk. simpl in Hd.
  apply andb_prop in Hd as [Hc Hw]. unfold plusC. simpl. rewrite Hc.
  by apply starC_exact.
Qed.

Lemma PAGE_RANGE_page d :
  d <> [] -> forallb is_digit d = true -> PAGE_RANGE d = Some (d, None).
Proof.
  intros Hne Hd. unfold PAGE_RANGE. rewrite <- (app_nil_r d) at 1.
  by apply plusC_exact.
Qed.

Lemma PAGE_RANGE_range d1 d2 :
  d1 <> [] -> forallb is_digit d1 = true ->
  d2 <> [] -> forallb is_digit d2 = true ->
  PAGE_RANGE (d1 ++ lit "-" ++ d2) = Some (d1, Some d2).
Proof.
  intros Hne1 Hd1 Hne2 Hd2. unfold PAGE_RANGE. apply plusC_exact; [done..| |].
  - by intros c [= <-].
  - unfold alt. simpl. rewrite <- (app_nil_r d2) at 1.
    by rewrite (plusC_exact is_digit _ d2 [] (d1, Some d2)).
Qed.

Lemma elem_of_head {A} (l : list A) c : head l = Some c -> c ∈ l.
Proof. destruct l; [done|]. intros [= ->]. left. Qed.

Lemma elem_of_last {A} (l : list A) c : last l = Some c -> c ∈ l.
Proof.
  induction l as [|a l IH]; [done|]. destruct l as [|b l]; [intros [= ->]; left|].
  intros H. right. by apply IH.
Qed.

Lemma noEdgeSpace_no_ws s : Forall (fun c => is_ws c = false) s -> noEdgeSpace s.
Proof.
  rewrite Forall_forall. intros H.
  split; intros c Hc; apply H; [by apply elem_of_head|by apply elem_of_last].
Qed.

Lemma ascending_ext (l1 l2 : list Z) :
  StronglySorted Z.lt l1 -> StronglySorted Z.lt l2 ->
  (forall x, x ∈ l1 <-> x ∈ l2) -> l1 = l2.
Proof.
  intros H1 H2 Hin. apply (StronglySorted_unique_strong Z.lt); [|done|done|].
  - intros x y _ _ ? ?. lia.
  - apply NoDup_Permutation; [by apply StronglySorted_NoDup_lt..|done].
Qed.

Lemma splitFrom_part p :
  forallb (fun c => negb (is_listSep c)) p = true ->
  forall cur s, splitFrom cur false (p ++ s) = splitFrom (cur ++ p) false s.
Proof.
  induction p as [|c p IH]; intros Hp cur s; [by rewrite app_nil_r|].
  simpl in Hp. apply andb_prop in Hp as [Hc Hp]. apply negb_true_iff in Hc.
  simpl. rewrite Hc, (IH Hp). by rewrite <- app_assoc.
Qed.

Lemma splitFrom_first p b :
  p <> [] -> forallb (fun c => negb (is_listSep c)) p = true ->
  forall s, splitFrom [] b (p ++ s) = splitFrom p false s.
Proof.
  destruct p as [|c p]; [done|]. intros _ Hp s. simpl in Hp.
  apply andb_prop in Hp as [Hc Hp]. apply negb_true_iff in Hc.
  simpl. rewrite Hc. destruct b; by rewrite (splitFrom_part p Hp).
Qed.

(** Splitting a list written with commas gives back its parts. *)
Lemma split_join parts :
  parts <> [] ->
  Forall (fun p => p <> [] /\ forallb (fun c => negb (is_listSep c)) p = true) parts ->
  split (join (lit ",") parts) = parts.
Proof.
  intros Hne Hall. unfold split.
  cut (forall b, splitFrom [] b (join (lit ",") parts) = parts); [by intros H|].
  induction Hall as [|p parts [Hp Hsep] Hall IH]; [done|]. intros b.
  destruct parts as [|q parts].
  - simpl. rewrite <- (app_nil_r p) at 1. by rewrite splitFrom_first.
  - change (join (lit ",") (p :: q :: parts))
      with (p ++ lit "," ++ join (lit ",") (q :: parts)).
    rewrite splitFrom_first by done. simpl. f_equal. by apply IH.
Qed.

(** *** Writing a number and reading it back *)

Lemma fold_digits_uint d :
  forall acc : positive,
    fold_left (fun a c => 10 * a + digitVal c) (lit (NilEmpty.string_of_uint d)) (Z.pos acc)
    = Z.pos (Pos.of_uint_acc d acc).
Proof.
  induction d; intros acc; [done|..]; simpl; rewrite <- IHd; f_equal;
    unfold digitVal; simpl; lia.
Qed.

Lemma fold_digits_uint0 d :
  fold_left (fun a c => 10 * a + digitVal c) (lit (NilEmpty.string_of_uint d)) 0
  = Z.of_N (Pos.of_uint d).
Proof.
  induction d; [done|exact IHd|..]; simpl; by rewrite <- fold_digits_uint.
Qed.

Lemma digits_uint d : forallb is_digit (lit (NilEmpty.string_of_uint d)) = true.
Proof. induction d; [done|..]; simpl; exact IHd. Qed.

Lemma parseInt_decimal z : 0 <= z -> parseInt (decimal z) = z.
Proof.
  intros Hz. unfold parseInt, decimal.
  assert (N.to_uint (Z.to_N z) <> Decimal.Nil) as Hnil.
  { destruct (Z.to_N z); [done|]. apply DecimalPos.Unsigned.to_uint_nonnil. }
  destruct (N.to_uint (Z.to_N z)) eqn:E; [done|..]; rewrite <- E;
    unfold NilZero.string_of_uint; rewrite E; rewrite <- E;
    rewrite fold_digits_uint0; change Pos.of_uint with N.of_uint;
    rewrite DecimalN.Unsigned.of_to; lia.
Qed.

Lemma decimal_digits z : forallb is_digit (decimal z) = true.
Proof.
  unfold decimal, NilZero.string_of_uint.
  destruct (N.to_uint (Z.to_N z)) eqn:E; [done|..]; rewrite <- E; apply digits_uint.
Qed.

Lemma decimal_nonempty z : decimal z <> [].
Proof.
  unfold decimal, NilZero.string_of_uint.
  by destruct (N.to_uint (Z.to_N z)).
Qed.

Lemma digit_not_sep c : is_digit c = true -> is_listSep c = false.
Proof.
  intros H. unfold is_listSep. rewrite (digit_not_ws c H).
  unfold is_digit in H. apply inRange_spec in H.
  apply orb_false_iff. split; [apply N.eqb_neq; lia|done].
Qed.

Lemma digits_no_sep d :
  forallb is_digit d = true -> forallb (fun c => negb (is_listSep c)) d = true.
Proof.
  induction d as [|c d IH]; [done|]. simpl. intros [Hc Hd]%andb_prop.
  by rewrite (digit_not_sep c Hc), IH.
Qed.

Lemma numberText_decimal z : 0 <= z -> numberText z = decimal z.
Proof. intros Hz. unfold numberText. by rewrite (proj2 (Z.ltb_ge z 0)). Qed.

Lemma rangeText_no_sep start prev :
  0 <= start -> 0 <= prev ->
  rangeText start prev <> []
  /\ forallb (fun c => negb (is_listSep c)) (rangeText start prev) = true.
Proof.
  intros Hs Hp. unfold rangeText. rewrite !numberText_decimal by done.
  destruct (start =? prev).
  - split; [apply decimal_nonempty|apply digits_no_sep, decimal_digits].
  - split.
    + intros H. apply app_eq_nil in H as [H _]. by apply decimal_nonempty in H.
    + rewrite !forallb_app.
      by rewrite !(digits_no_sep (decimal _)) by apply decimal_digits.
Qed.

Lemma join_no_ws parts :
  Forall (fun p => p <> [] /\ forallb (fun c => negb (is_listSep c)) p = true) parts ->
  Forall (fun c => is_ws c = false) (join (lit ",") parts).
Proof.
  assert (forall p, forallb (fun c => negb (is_listSep c)) p = true ->
                    Forall (fun c => is_ws c = false) p) as Hp.
  { intros p. rewrite forallb_forall, Forall_forall. intros H c Hc.
    apply list_elem_of_In, H, negb_true_iff in Hc. unfold is_listSep in Hc.
    by apply orb_false_iff in Hc as [_ ?]. }
  induction 1 as [|p parts [_ H] Hall IH]; [constructor|].
  destruct parts as [|q parts]; [by apply Hp|].
  change (join (lit ",") (p :: q :: parts))
    with (p ++ lit "," ++ join (lit ",") (q :: parts)).
  apply Forall_app. split; [by apply Hp|]. apply Forall_app. split; [|done].
  by apply Forall_singleton.
Qed.

Lemma join_nonempty sep p parts : p <> [] -> join sep (p :: parts) <> [].
Proof.
  intros Hp. destruct parts; [done|]. simpl.
  intros H. by apply app_eq_nil in H as [? _].
Qed.

(** *** The selection of the page picker *)

Lemma invert_spec pageCount selected :
  Forall (fun x => 1 <= x <= default 0 pageCount) selected ->
  NoDup (invert pageCount selected)
  /\ forall x, x ∈ invert pageCount selected
       <-> 1 <= x <= default 0 pageCount /\ x ∉ selected.
Proof.
  intros Hall. unfold invert. destruct (noPageCount pageCount) eqn:E.
  - assert (default 0 pageCount = 0) as Hc.
    { destruct pageCount as [c|]; [|done]. by apply Z.eqb_eq in E. }
    rewrite Hc in *. destruct selected as [|a l]; [|apply Forall_cons in Hall as [? _]; lia].
    split; [constructor|]. intros x. split; [by intros ?%not_elem_of_nil|lia].
  - cut (forall l next, NoDup next ->
           NoDup (foldl (fun next i => if setHas selected i then next else setAdd next i)
                    next l)
           /\ forall x, x ∈ foldl (fun next i =>
                                     if setHas selected i then next else setAdd next i)
                              next l
                <-> x ∈ next \/ (x ∈ l /\ x ∉ selected)).
    { intros H. destruct (H (seqZ 1 (default 0 pageCount)) [] NoDup_nil_2) as [Hnd Hin].
      split; [done|]. intros x. rewrite Hin, elem_of_seqZ, elem_of_nil.
      split.
      - intros [HF|[? ?]]; [destruct HF|]. split; [lia|done].
      - intros [? ?]. right. split; [lia|done]. }
    induction l as [|i l IH]; intros next Hnext; simpl.
    + split; [done|]. intros x. rewrite elem_of_nil. tauto.
    + destruct (setHas selected i) eqn:Hi; unfold setHas in Hi;
        [apply bool_decide_eq_true in Hi|apply bool_decide_eq_false in Hi].
      * destruct (IH next Hnext) as [Hnd Hin]. split; [done|]. intros x.
        rewrite Hin, elem_of_cons. split; [tauto|].
        intros [?|[[->|?] ?]]; [by left|done|by right].
      * destruct (IH _ (NoDup_setAdd next i Hnext)) as [Hnd Hin]. split; [done|].
        intros x. rewrite Hin, elem_of_setAdd, elem_of_cons. split.
        -- intros [[?| ->]|[? ?]]; [by left|right; split; [by left|done]|right; tauto].
        -- intros [?|[[->|?] ?]]; [left; by left|left; by right|right; tauto].
Qed.

Lemma pickerStep_inv pageCount selected e :
  offered pageCount e ->
  NoDup selected -> Forall (fun x => 1 <= x <= default 0 pageCount) selected ->
  NoDup (pickerStep pageCount selected e)
  /\ Forall (fun x => 1 <= x <= default 0 pageCount) (pickerStep pageCount selected e).
Proof.
  intros He Hnd Hall. destruct e as [n checked| | |]; simpl.
  - simpl in He. unfold togglePage. destruct checked.
    + split; [by apply NoDup_setAdd|]. apply Forall_forall. intros x.
      rewrite elem_of_setAdd. rewrite Forall_forall in Hall.
      intros [?| ->]; [by apply Hall|done].
    + unfold setDelete. split; [by apply NoDup_filter|].
      apply Forall_forall. intros x [_ Hx]%list_elem_of_filter.
      rewrite Forall_forall in Hall. by apply Hall.
  - unfold selectAll. destruct (noPageCount pageCount); [done|].
    destruct (foldl_setAdd (seqZ 1 (default 0 pageCount)) [] NoDup_nil_2) as [? Hin].
    split; [done|]. apply Forall_forall. intros x. rewrite Hin, elem_of_seqZ, elem_of_nil.
    intros [HF|?]; [destruct HF|lia].
  - split; constructor.
  - destruct (invert_spec pageCount selected Hall) as [? Hin]. split; [done|].
    apply Forall_forall. intros x. rewrite Hin. tauto.
Qed.

(** X25: whatever the user does with the checkboxes and the All, None and
    Invert buttons, starting from the empty selection, the selection holds no
    page twice and only pages of the document. *)
Theorem selection_stays_in_document (pageCount : option Z) (events : list PickerEvent) :
  Forall (offered pageCount) events ->
  let selected := foldl (pickerStep pageCount) [] events in
  NoDup selected /\ Forall (fun x => 1 <= x <= default 0 pageCount) selected.
Proof.
  intros Hev. simpl.
  cut (forall selected, NoDup selected ->
         Forall (fun x => 1 <= x <= default 0 pageCount) selected ->
         NoDup (foldl (pickerStep pageCount) selected events)
         /\ Forall (fun x => 1 <= x <= default 0 pageCount)
              (foldl (pickerStep pageCount) selected events)).
  { intros H. apply H; constructor. }
  induction Hev as [|e events He Hev IH]; intros selected Hnd Hall; [done|].
  simpl. destruct (pickerStep_inv pageCount selected e He Hnd Hall). by apply IH.
Qed.

(** *** The pages a list selects *)

Section PdfFacts.

Variable isFinite : Z -> bool.

Lemma partStep_range max out part :
  partStep isFinite max out part
  = match partRange isFinite max part with
    | Some (a, b) => addRange out a b
    | None => out
    end.
Proof.
  unfold partStep, partRange. destruct part as [|c part]; [done|].
  destruct (PAGE_RANGE (c :: part)) as [[m1 m2]|]; [|done]. simpl.
  destruct (negb _ || negb _); [done|].
  destruct (_ <? _) eqn:E; simpl.
  - apply Z.ltb_lt in E. by rewrite Z.min_r, Z.max_l by lia.
  - apply Z.ltb_ge in E. by rewrite Z.min_l, Z.max_r by lia.
Qed.

Lemma foldl_partStep max parts :
  forall out, NoDup out ->
    NoDup (foldl (partStep isFinite max) out parts)
    /\ forall x, x ∈ foldl (partStep isFinite max) out parts
         <-> x ∈ out \/ exists part a b,
                          part ∈ parts /\ partRange isFinite max part = Some (a, b) /\ a <= x <= b.
Proof.
  induction parts as [|part parts IH]; intros out Hout; simpl.
  - split; [done|]. intros x. split; [by left|].
    intros [?|(part & a & b & Hin & _)]; [done|by apply not_elem_of_nil in Hin].
  - rewrite partStep_range. destruct (partRange isFinite max part) as [[a b]|] eqn:E.
    + destruct (addRange_spec out a b Hout) as [Hnd Hin].
      destruct (IH _ Hnd) as [Hnd' Hin']. split; [done|]. intros x.
      rewrite Hin', Hin. split.
      * intros [[?|?]|(p & a' & b' & Hp & Hr & Hx)]; [by left|right|right].
        -- exists part, a, b. split; [left|done].
        -- exists p, a', b'. split; [by right|done].
      * intros [?|(p & a' & b' & Hp & Hr & Hx)]; [by left; left|].
        apply elem_of_cons in Hp as [->|Hp].
        -- left. right. congruence.
        -- right. eauto 6.
    + destruct (IH _ Hout) as [Hnd' Hin']. split; [done|]. intros x.
      rewrite Hin'. split.
      * intros [?|(p & a' & b' & Hp & Hr & Hx)]; [by left|right].
        exists p, a', b'. split; [by right|done].
      * intros [?|(p & a' & b' & Hp & Hr & Hx)]; [by left|].
        apply elem_of_cons in Hp as [->|Hp]; [congruence|]. right. eauto 6.
Qed.

Lemma parsePagesList_unfold input max :
  exists pages,
    NoDup pages
    /\ (forall x, x ∈ pages <->
          exists part a b,
            part ∈ split (trim input) /\ trim input <> []
            /\ partRange isFinite max part = Some (a, b) /\ a <= x <= b)
    /\ parsePagesList isFinite input max = merge_sort Z.le pages.
Proof.
  unfold parsePagesList. destruct (trim input) as [|c s] eqn:E.
  - exists []. split; [constructor|]. split; [|done].
    intros x. split; [by intros ?%not_elem_of_nil|]. by intros (? & ? & ? & _ & ? & _).
  - destruct (foldl_partStep max (split (c :: s)) [] NoDup_nil_2) as [Hnd Hin].
    eexists. split; [exact Hnd|]. split; [|done]. intros x. rewrite Hin. split.
    + intros [?%not_elem_of_nil|(p & a & b & ? & ? & ?)]; [done|]. eauto 8.
    + intros (p & a & b & ? & _ & ? & ?). right. eauto 6.
Qed.

Lemma parsePagesList_ascending_aux input max :
  StronglySorted Z.lt (parsePagesList isFinite input max).
Proof.
  destruct (parsePagesList_unfold input max) as (pages & Hnd & _ & ->).
  apply sorted_NoDup_ascending.
  - apply StronglySorted_merge_sort; apply _.
  - by rewrite merge_sort_Permutation.
Qed.

(** X19: the pages [parsePagesList] returns are in strictly ascending
    order, so no page is listed twice, whatever the order and the overlaps of
    the parts of the input. *)
Theorem parsePagesList_ascending (input : str) (max : Z) :
  StronglySorted Z.lt (parsePagesList isFinite input max).
Proof. apply parsePagesList_ascending_aux. Qed.

Lemma partRange_bounds max part a b :
  partRange isFinite max part = Some (a, b) ->
  1 <= a /\ a <= b /\ b <= Z.max 1 max.
Proof.
  unfold partRange. destruct part; [done|].
  destruct (PAGE_RANGE _) as [[m1 m2]|]; [|done]. simpl.
  destruct (negb _ || negb _); [done|]. intros [= <- <-]. unfold clamp. lia.
Qed.

Lemma parsePagesList_range_aux input max x :
  x ∈ parsePagesList isFinite input max -> 1 <= x <= Z.max 1 max.
Proof.
  destruct (parsePagesList_unfold input max) as (pages & _ & Hin & ->).
  rewrite merge_sort_Permutation, Hin.
  intros (part & a & b & _ & _ & Hr & Hx). apply partRange_bounds in Hr. lia.
Qed.

(** X20: a page is returned by [parsePagesList] exactly when some part of
    the trimmed input, split at commas and whitespace, is a page or a range
    that covers it after clamping; every returned page lies between 1 and
    [max], or is page 1 when [max] is below 1. *)
Theorem parsePagesList_pages (input : str) (max : Z) (x : Z) :
  (x ∈ parsePagesList isFinite input max <->
     exists part a b,
       part ∈ split (trim input) /\ trim input <> []
       /\ partRange isFinite max part = Some (a, b) /\ a <= x <= b)
  /\ (x ∈ parsePagesList isFinite input max -> 1 <= x <= Z.max 1 max).
Proof.
  destruct (parsePagesList_unfold input max) as (pages & _ & Hin & ->).
  rewrite merge_sort_Permutation, Hin. split; [done|].
  intros (part & a & b & _ & _ & Hr & Hx). apply partRange_bounds in Hr. lia.
Qed.

Lemma keptPages_spec mode input total :
  1 <= total ->
  let kept := keptPages mode (parsePagesList isFinite input total) total in
  StronglySorted Z.lt kept
  /\ forall x, x ∈ kept <->
        1 <= x <= total
        /\ (if bool_decide (mode = lit "keep")
            then x ∈ parsePagesList isFinite input total
            else x ∉ parsePagesList isFinite input total).
Proof.
  intros Htotal kept. subst kept. unfold keptPages. case_bool_decide.
  - split; [apply parsePagesList_ascending_aux|]. intros x. split; [|tauto].
    intros Hx. split; [|done]. apply parsePagesList_range_aux in Hx. lia.
  - split; [apply StronglySorted_filter, seqZ_ascending|]. intros x.
    rewrite list_elem_of_filter, elem_of_seqZ. unfold setHas.
    rewrite bool_decide_eq_false. split; intros [? ?]; (split; [done || lia|done || lia]).
Qed.

(** X21: for a document of at least one page, keeping a page list and
    deleting the same page list split the pages 1 to [total] between them:
    the two results are ascending and together are a rearrangement of all
    pages, with no page in both. *)
Theorem keep_and_delete_split_the_pages (mode input : str) (total : Z) :
  1 <= total -> mode <> lit "keep" ->
  let kept := keptPages (lit "keep") (parsePagesList isFinite input total) total in
  let left := keptPages mode (parsePagesList isFinite input total) total in
  StronglySorted Z.lt kept /\ StronglySorted Z.lt left
  /\ kept ++ left ≡ₚ seqZ 1 total
  /\ forall x, x ∈ kept -> x ∉ left.
Proof.
  intros Htotal Hmode kept left.
  destruct (keptPages_spec (lit "keep") input total Htotal) as [Hs1 Hin1].
  destruct (keptPages_spec mode input total Htotal) as [Hs2 Hin2].
  fold kept in Hs1, Hin1. fold left in Hs2, Hin2.
  rewrite bool_decide_eq_true_2 in Hin1 by done.
  rewrite bool_decide_eq_false_2 in Hin2 by done.
  split; [done|]. split; [done|].
  assert (forall x, x ∈ kept -> x ∉ left) as Hdisj.
  { intros x Hx Hx'. apply Hin1 in Hx as [_ Hx]. apply Hin2 in Hx' as [_ Hx']. done. }
  split; [|done]. apply NoDup_Permutation.
  - apply NoDup_app. split; [|split; [done|]].
    + eapply StronglySorted_NoDup_lt; done.
    + eapply StronglySorted_NoDup_lt; done.
  - apply NoDup_seqZ.
  - intros x. rewrite elem_of_app, Hin1, Hin2, elem_of_seqZ.
    destruct (decide (x ∈ parsePagesList isFinite input total)); split;
      try (intros [[? ?]|[? ?]]; lia); intros ?; [left|right]; (split; [lia|done]).
Qed.


(** *** One part of the list *)

Lemma partRange_page max d :
  d <> [] -> forallb is_digit d = true -> isFinite (parseInt d) = true ->
  partRange isFinite max d = Some (clamp max (parseInt d), clamp max (parseInt d)).
Proof.
  intros Hne Hd Hfin. unfold partRange. rewrite (PAGE_RANGE_page d Hne Hd).
  destruct d; [done|]. simpl negb. rewrite Hfin. simpl.
  by rewrite Z.min_id, Z.max_id.
Qed.

Lemma partRange_range max d1 d2 :
  d1 <> [] -> forallb is_digit d1 = true -> isFinite (parseInt d1) = true ->
  d2 <> [] -> forallb is_digit d2 = true -> isFinite (parseInt d2) = true ->
  partRange isFinite max (d1 ++ lit "-" ++ d2)
  = Some (clamp max (Z.min (parseInt d1) (parseInt d2)),
          clamp max (Z.max (parseInt d1) (parseInt d2))).
Proof.
  intros Hne1 Hd1 Hfin1 Hne2 Hd2 Hfin2. unfold partRange.
  rewrite (PAGE_RANGE_range d1 d2 Hne1 Hd1 Hne2 Hd2).
  destruct d1 as [|c d1]; [done|]. simpl app. cbv beta iota zeta.
  by rewrite Hfin1, Hfin2.
Qed.

(** *** The parts [compressRanges] writes *)

Section Finite.
Variable max : Z.
Hypothesis finite_pages : forall z, 1 <= z <= max -> isFinite z = true.

Lemma partRange_rangeText start prev :
  1 <= start -> start <= prev -> prev <= max ->
  partRange isFinite max (rangeText start prev) = Some (start, prev).
Proof.
  intros H1 H2 H3. unfold rangeText. rewrite !numberText_decimal by lia.
  destruct (start =? prev) eqn:E.
  - apply Z.eqb_eq in E as <-.
    rewrite partRange_page;
      [|apply decimal_nonempty|apply decimal_digits
       |rewrite parseInt_decimal by lia; apply finite_pages; lia].
    rewrite parseInt_decimal by lia. unfold clamp. do 2 f_equal; lia.
  - rewrite partRange_range;
      [|apply decimal_nonempty|apply decimal_digits
       |rewrite parseInt_decimal by lia; apply finite_pages; lia
       |apply decimal_nonempty|apply decimal_digits
       |rewrite parseInt_decimal by lia; apply finite_pages; lia].
    rewrite !parseInt_decimal by lia. unfold clamp. do 2 f_equal; lia.
Qed.

Lemma compressFrom_spec rest :
  forall start prev out,
    1 <= start -> start <= prev ->
    StronglySorted Z.lt (prev :: rest) -> Forall (fun x => x <= max) (prev :: rest) ->
    Forall (fun p => p <> [] /\ forallb (fun c => negb (is_listSep c)) p = true) out ->
    Forall (fun p => p <> [] /\ forallb (fun c => negb (is_listSep c)) p = true)
      (compressFrom start prev rest out)
    /\ compressFrom start prev rest out <> []
    /\ forall x,
         (exists part a b, part ∈ compressFrom start prev rest out
            /\ partRange isFinite max part = Some (a, b) /\ a <= x <= b)
         <-> (exists part a b, part ∈ out
                /\ partRange isFinite max part = Some (a, b) /\ a <= x <= b)
             \/ start <= x <= prev \/ x ∈ rest.
Proof.
  induction rest as [|n rest IH]; intros start prev out H1 H2 Hs Hm Hout.
  - simpl. apply Forall_cons in Hm as [Hm _].
    split; [|split].
    + apply Forall_app. split; [done|]. apply Forall_singleton.
      apply rangeText_no_sep; lia.
    + intros H. by apply app_eq_nil in H as [_ H].
    + intros x. split.
      * intros (part & a & b & Hin & Hr & Hx).
        apply elem_of_app in Hin as [Hin|Hin]; [left; eauto 6|].
        apply list_elem_of_singleton in Hin as ->.
        rewrite partRange_rangeText in Hr by done. injection Hr as <- <-. by right; left.
      * intros [(part & a & b & Hin & Hr & Hx)|[Hx|Hx]].
        -- exists part, a, b. split; [apply elem_of_app; by left|done].
        -- exists (rangeText start prev), start, prev.
           split; [apply elem_of_app; right; by apply list_elem_of_singleton|].
           split; [by apply partRange_rangeText|done].
        -- by apply not_elem_of_nil in Hx.
  - assert (prev < n) as Hpn.
    { apply StronglySorted_inv in Hs as [_ Hs]. by apply Forall_cons in Hs as [? _]. }
    assert (StronglySorted Z.lt (n :: rest)) as Hs'
      by (by apply StronglySorted_inv in Hs as [? _]).
    assert (Forall (fun x => x <= max) (n :: rest)) as Hm'
      by (by apply Forall_cons in Hm as [_ ?]).
    assert (prev <= max) as Hpm by (by apply Forall_cons in Hm as [? _]).
    simpl. destruct (n =? prev + 1) eqn:E.
    + apply Z.eqb_eq in E.
      destruct (IH start n out H1 ltac:(lia) Hs' Hm' Hout) as (Ht & Hne & Hin).
      split; [done|]. split; [done|]. intros x. rewrite Hin, elem_of_cons.
      split.
      * intros [?|[?|?]]; [by left|right; destruct (decide (x = n)); [right; by left|left; lia]
                          |right; right; by right].
      * intros [?|[?|[->|?]]]; [by left|right; left; lia|right; left; lia|right; by right].
    + apply Z.eqb_neq in E.
      assert (Forall (fun p => p <> [] /\ forallb (fun c => negb (is_listSep c)) p = true)
                (out ++ [rangeText start prev])) as Hout'.
      { apply Forall_app. split; [done|]. apply Forall_singleton.
        apply rangeText_no_sep; lia. }
      destruct (IH n n _ ltac:(lia) ltac:(lia) Hs' Hm' Hout') as (Ht & Hne & Hin).
      split; [done|]. split; [done|]. intros x. rewrite Hin, elem_of_cons. split.
      * intros [(part & a & b & Hp & Hr & Hx)|[Hx|Hx]].
        -- apply elem_of_app in Hp as [Hp|Hp]; [left; eauto 6|].
           apply list_elem_of_singleton in Hp as ->.
           rewrite partRange_rangeText in Hr by done. injection Hr as <- <-.
           by right; left.
        -- right; right; left. lia.
        -- by right; right; right.
      * intros [(part & a & b & Hp & Hr & Hx)|[Hx|[->|Hx]]].
        -- left. exists part, a, b. split; [apply elem_of_app; by left|done].
        -- left. exists (rangeText start prev), start, prev.
           split; [apply elem_of_app; right; by apply list_elem_of_singleton|].
           split; [by apply partRange_rangeText|done].
        -- right; left. lia.
        -- by right; right.
Qed.

End Finite.

(** The pages of an input whose parts are known. *)
Lemma parsePagesList_parts input max parts pages :
  trim input <> [] -> split (trim input) = parts ->
  StronglySorted Z.lt pages ->
  (forall x, x ∈ pages <->
     exists part a b, part ∈ parts
       /\ partRange isFinite max part = Some (a, b) /\ a <= x <= b) ->
  parsePagesList isFinite input max = pages.
Proof.
  intros Hne Hparts Hs Hin. apply ascending_ext; [apply parsePagesList_ascending_aux|done|].
  destruct (parsePagesList_unfold input max) as (l & _ & Hl & ->).
  intros x. rewrite merge_sort_Permutation, Hl, Hin, Hparts. split.
  - intros (part & a & b & ? & _ & ? & ?). eauto 6.
  - intros (part & a & b & ? & ? & ?). eauto 8.
Qed.

Lemma parsePagesList_token max part pages :
  part <> [] -> forallb (fun c => negb (is_listSep c)) part = true ->
  StronglySorted Z.lt pages ->
  (forall x, x ∈ pages <->
     exists a b, partRange isFinite max part = Some (a, b) /\ a <= x <= b) ->
  parsePagesList isFinite part max = pages.
Proof.
  intros Hne Hsep Hs Hin.
  assert (trim part = part) as Ht.
  { apply trim_id, noEdgeSpace_no_ws.
    apply (join_no_ws [part]). by apply Forall_singleton. }
  apply (parsePagesList_parts part max [part]); [by rewrite Ht| |done|].
  - rewrite Ht. apply (split_join [part]); [done|]. by apply Forall_singleton.
  - intros x. rewrite Hin. split.
    + intros (a & b & ? & ?). exists part, a, b. split; [left|done].
    + intros (p & a & b & ->%list_elem_of_singleton & ? & ?). eauto.
Qed.

(** X23: a part that is one page number gives that page, moved to the
    nearest page of the document when it lies outside it (0 gives page 1, a
    number above [max] gives page [max]); a part that is a range gives every
    page between its two ends after the same move, whichever end is written
    first. *)
Theorem page_and_range_parts (max : Z) (d1 d2 : str) :
  d1 <> [] -> forallb is_digit d1 = true -> isFinite (parseInt d1) = true ->
  d2 <> [] -> forallb is_digit d2 = true -> isFinite (parseInt d2) = true ->
  let lo := clamp max (Z.min (parseInt d1) (parseInt d2)) in
  let hi := clamp max (Z.max (parseInt d1) (parseInt d2)) in
  parsePagesList isFinite d1 max = [clamp max (parseInt d1)]
  /\ parsePagesList isFinite (d1 ++ lit "-" ++ d2) max = seqZ lo (hi - lo + 1)
  /\ parsePagesList isFinite (d2 ++ lit "-" ++ d1) max = seqZ lo (hi - lo + 1).
Proof.
  intros Hne1 Hd1 Hf1 Hne2 Hd2 Hf2 lo hi.
  assert (forall a b, a <> [] -> forallb is_digit a = true -> forallb is_digit b = true ->
            (a ++ lit "-" ++ b) <> []
            /\ forallb (fun c => negb (is_listSep c)) (a ++ lit "-" ++ b) = true) as Htok.
  { intros a b Ha Hda Hdb. split.
    - intros H. by apply app_eq_nil in H as [? _].
    - rewrite !forallb_app. by rewrite (digits_no_sep a), (digits_no_sep b). }
  split; [|split].
  - apply parsePagesList_token; [done|by apply digits_no_sep| |].
    + repeat constructor.
    + intros x. rewrite partRange_page by done. rewrite list_elem_of_singleton. split.
      * intros ->. eexists _, _. split; [done|lia].
      * intros (a & b & [= <- <-] & ?). lia.
  - destruct (Htok d1 d2) as [? ?]; [done..|].
    apply parsePagesList_token; [done|done|apply seqZ_ascending|].
    intros x. rewrite partRange_range by done. rewrite elem_of_seqZ. split.
    + intros ?. exists lo, hi. split; [done|lia].
    + intros (a & b & [= <- <-] & ?). subst lo hi. lia.
  - destruct (Htok d2 d1) as [? ?]; [done..|].
    apply parsePagesList_token; [done|done|apply seqZ_ascending|].
    intros x. rewrite partRange_range by done. rewrite elem_of_seqZ.
    rewrite (Z.min_comm (parseInt d2)), (Z.max_comm (parseInt d2)). split.
    + intros ?. exists lo, hi. split; [done|lia].
    + intros (a & b & [= <- <-] & ?). subst lo hi. lia.
Qed.

Lemma pagesField_read_back pagesQuery selected total :
  forallb is_ws pagesQuery = true ->
  NoDup selected -> Forall (fun x => 1 <= x <= total) selected ->
  (forall z, 1 <= z <= total -> isFinite z = true) ->
  parsePagesList isFinite (pagesField pagesQuery selected) total
  = merge_sort Z.le selected.
Proof.
  intros Hq Hnd Hall Hfin. unfold pagesField.
  rewrite (proj2 (trim_nil pagesQuery) Hq).
  assert (StronglySorted Z.lt (merge_sort Z.le selected)) as Hs.
  { apply sorted_NoDup_ascending; [apply StronglySorted_merge_sort; apply _|].
    by rewrite merge_sort_Permutation. }
  assert (Forall (fun x => 1 <= x <= total) (merge_sort Z.le selected)) as Hall'
    by (by rewrite merge_sort_Permutation).
  destruct (merge_sort Z.le selected) as [|n rest]; [done|].
  apply Forall_cons in Hall' as [Hn Hrest]. unfold compressRanges.
  destruct (compressFrom_spec total Hfin rest n n [] ltac:(lia) ltac:(lia) Hs)
    as (Htok & Hne & Hin); [|constructor|].
  { constructor; [lia|]. eapply Forall_impl; [exact Hrest|]. simpl. lia. }
  assert (trim (join (lit ",") (compressFrom n n rest []))
          = join (lit ",") (compressFrom n n rest [])) as Ht
    by (by apply trim_id, noEdgeSpace_no_ws, join_no_ws).
  apply (parsePagesList_parts _ total (compressFrom n n rest [])).
  - rewrite Ht. destruct (compressFrom n n rest []) as [|p parts]; [done|].
    apply join_nonempty. by apply Forall_cons in Htok as [[? _] _].
  - rewrite Ht. by apply split_join.
  - done.
  - intros x. rewrite Hin, elem_of_cons. split.
    + intros [->|?]; right; [left; lia|by right].
    + intros [(part & ? & ? & ?%not_elem_of_nil & _)|[?|?]]; [done|left; lia|by right].
Qed.

(** X24: when nothing is typed in the page-list box, the list the page
    picker writes for the ticked pages is read back by the route as exactly
    those pages, in ascending order, provided every ticked page is a page of
    the document. *)
Theorem ticked_pages_round_trip (pagesQuery : str) (selected : list Z) (total : Z) :
  forallb is_ws pagesQuery = true ->
  NoDup selected -> Forall (fun x => 1 <= x <= total) selected ->
  (forall z, 1 <= z <= total -> isFinite z = true) ->
  parsePagesList isFinite (pagesField pagesQuery selected) total
  = merge_sort Z.le selected.
Proof. apply pagesField_read_back. Qed.

(** *** Inverting the selection *)

(** X26: inverting the selection and keeping it asks the route for the same
    edit as deleting the selection: the same refusal, or the same pages. *)
Theorem invert_then_keep_is_delete (pagesQuery mode : str) (selected : list Z) (total : Z) :
  forallb is_ws pagesQuery = true -> mode <> lit "keep" ->
  NoDup selected -> Forall (fun x => 1 <= x <= total) selected ->
  (forall z, 1 <= z <= total -> isFinite z = true) ->
  editPlan isFinite (lit "keep") (pagesField pagesQuery (invert (Some total) selected)) total
  = editPlan isFinite mode (pagesField pagesQuery selected) total.
Proof.
  intros Hq Hmode Hnd Hall Hfin.
  destruct (invert_spec (Some total) selected Hall) as [Hnd' Hin'].
  assert (Forall (fun x => 1 <= x <= total) (invert (Some total) selected)) as Hall'.
  { apply Forall_forall. intros x Hx. by apply Hin' in Hx as [? _]. }
  unfold editPlan.
  rewrite !pagesField_read_back by done.
  assert (keptPages (lit "keep") (merge_sort Z.le (invert (Some total) selected)) total
          = keptPages mode (merge_sort Z.le selected) total) as ->; [|done].
  unfold keptPages. rewrite bool_decide_eq_true_2, bool_decide_eq_false_2 by done.
  apply ascending_ext.
  - apply sorted_NoDup_ascending; [apply StronglySorted_merge_sort; apply _|].
    by rewrite merge_sort_Permutation.
  - apply StronglySorted_filter, seqZ_ascending.
  - intros x. rewrite merge_sort_Permutation, Hin', list_elem_of_filter, elem_of_seqZ.
    unfold setHas. rewrite bool_decide_eq_false, merge_sort_Permutation. simpl.
    split; intros [? ?]; (split; [done || lia|done || lia]).
Qed.

End PdfFacts.

Lemma belowInfinity_pages total z :
  total <= 1000 -> 1 <= z <= total -> Pdf.belowInfinity z = true.
Proof.
  intros Ht Hz. unfold Pdf.belowInfinity. apply Z.ltb_lt.
  apply (Z.le_lt_trans _ 1000); [lia|reflexivity].
Qed.

Lemma keep_and_delete_split_the_pages_witness :
  lit "delete" <> lit "keep"
  /\ Pdf.keptPages (lit "keep")
       (Pdf.parsePagesList Pdf.belowInfinity (lit "2,4-9") 5) 5 = [2; 4; 5]
  /\ Pdf.keptPages (lit "delete")
       (Pdf.parsePagesList Pdf.belowInfinity (lit "2,4-9") 5) 5 = [1; 3]
  /\ Pdf.keptPages (lit "keep")
       (Pdf.parsePagesList Pdf.belowInfinity (lit "2,4-9") 5) 5
     ++ Pdf.keptPages (lit "delete")
          (Pdf.parsePagesList Pdf.belowInfinity (lit "2,4-9") 5) 5
     ≡ₚ seqZ 1 5.
Proof.
  assert (lit "delete" <> lit "keep") as Hm by discriminate.
  destruct (keep_and_delete_split_the_pages Pdf.belowInfinity
              (lit "delete") (lit "2,4-9") 5 ltac:(lia) Hm) as (_ & _ & H & _).
  split; [exact Hm|]. split; [reflexivity|]. split; [reflexivity|exact H].
Defined.


Lemma page_and_range_parts_witness :
  Pdf.parsePagesList Pdf.belowInfinity (lit "12") 10 = [10]
  /\ Pdf.parsePagesList Pdf.belowInfinity (lit "12-3") 10 = seqZ 3 8
  /\ Pdf.parsePagesList Pdf.belowInfinity (lit "3-12") 10 = seqZ 3 8.
Proof.
  exact (page_and_range_parts Pdf.belowInfinity 10 (lit "12") (lit "3")
           ltac:(discriminate) eq_refl eq_refl ltac:(discriminate) eq_refl eq_refl).
Defined.

Lemma ticked_pages_round_trip_witness :
  Pdf.pagesField [] [5; 1; 2; 7] = lit "1-2,5,7"
  /\ Pdf.parsePagesList Pdf.belowInfinity (Pdf.pagesField [] [5; 1; 2; 7]) 8
     = [1; 2; 5; 7].
Proof.
  split; [reflexivity|].
  assert (NoDup [5; 1; 2; 7]) as Hnd by (apply (bool_decide_unpack _); exact I).
  assert (Forall (fun x => 1 <= x <= 8) [5; 1; 2; 7]) as Hall
    by (repeat constructor; lia).
  exact (ticked_pages_round_trip Pdf.belowInfinity [] [5; 1; 2; 7] 8 eq_refl Hnd Hall
           (fun z => belowInfinity_pages 8 z ltac:(lia))).
Defined.

Lemma selection_stays_in_document_witness :
  Forall (Pdf.offered (Some 5))
    [Pdf.TogglePage 3 true; Pdf.SelectAll; Pdf.TogglePage 2 false; Pdf.Invert;
     Pdf.TogglePage 5 true]
  /\ foldl (Pdf.pickerStep (Some 5)) []
       [Pdf.TogglePage 3 true; Pdf.SelectAll; Pdf.TogglePage 2 false; Pdf.Invert;
        Pdf.TogglePage 5 true]
     = [2; 5]
  /\ NoDup [2; 5] /\ Forall (fun x => 1 <= x <= 5) [2; 5].
Proof.
  assert (Forall (Pdf.offered (Some 5))
            [Pdf.TogglePage 3 true; Pdf.SelectAll; Pdf.TogglePage 2 false; Pdf.Invert;
             Pdf.TogglePage 5 true]) as Hev by (repeat constructor; simpl; lia).
  split; [exact Hev|]. split; [reflexivity|].
  exact (selection_stays_in_document (Some 5) _ Hev).
Defined.

Lemma invert_then_keep_is_delete_witness :
  lit "delete" <> lit "keep"
  /\ Pdf.invert (Some 5) [4; 2] = [1; 3; 5]
  /\ Pdf.editPlan Pdf.belowInfinity (lit "keep")
       (Pdf.pagesField [] (Pdf.invert (Some 5) [4; 2])) 5
     = Pdf.editPlan Pdf.belowInfinity (lit "delete") (Pdf.pagesField [] [4; 2]) 5.
Proof.
  assert (lit "delete" <> lit "keep") as Hm by discriminate.
  assert (NoDup [4; 2]) as Hnd by (apply (bool_decide_unpack _); exact I).
  assert (Forall (fun x => 1 <= x <= 5) [4; 2]) as Hall by (repeat constructor; lia).
  split; [exact Hm|]. split; [reflexivity|].
  exact (invert_then_keep_is_delete Pdf.belowInfinity [] (lit "delete") [4; 2] 5
           eq_refl Hm Hnd Hall (fun z => belowInfinity_pages 5 z ltac:(lia))).
Defined.




End Route.
